(** * Planet Postcard Forge: the place-resolution pipeline, the bounding-box
    geometry, the imagery request, the postcard's chips and file name, the
    date text and the fact cards.

    A shallow embedding of [src/app/page.tsx].  Part I holds the definitions,
    one per source function or source block; Part II holds the theorems.

    Conventions of the embedding.
    - A JavaScript string is a Rocq [string] (its UTF-8 bytes), except in
      [Download], where the regular expression runs under the [u] flag and the
      text is the list of its code points.
    - A JavaScript number is a binary64 [float] and its arithmetic is the
      binary64 arithmetic of [PrimFloat], in [Geo] as everywhere else; the
      theorems about the bounding box read the numbers as real numbers
      through [Binary64.val], each operation rounding its exact result.
    - [Math.cos], which the language leaves to the implementation, is a
      Section variable, like the other functions of the platform below.
    - Functions of the platform whose tables are not part of the repository
      ([String.prototype.toLowerCase], [Number], [Intl.NumberFormat],
      [Date.prototype.toLocaleDateString], the Unicode categories L and N) are
      Section variables: every theorem holds for any such function.
    - The network is a [World]: three oracles that answer a request from the
      history of events so far.  [console.log] calls are left out. *)

From Stdlib Require Import String Ascii List Bool Arith NArith ZArith Lia.
From Stdlib Require Import Reals Lra Floats.
Set Warnings "-inexact-float".
Import ListNotations.
Local Open Scope string_scope.
Local Open Scope list_scope.

(* ===================================================================== *)
(** * Part I: definitions *)
(* ===================================================================== *)

(** ** JavaScript values the code tests *)

Module JS.

(** [lang] has the TypeScript type ["ja" | "en"]. *)
Inductive Lang : Type := ja | en.

Definition Lang_eqb (a b : Lang) : bool :=
  match a, b with
  | ja, ja | en, en => true
  | _, _ => false
  end.

(** ToBoolean of a string: only the empty string is falsy. *)
Definition truthy_string (s : string) : bool :=
  match s with
  | EmptyString => false
  | String _ _ => true
  end.

(** ToBoolean of [string | undefined]. *)
Definition truthy_opt (v : option string) : bool :=
  match v with
  | Some s => truthy_string s
  | None => false
  end.

(** ToBoolean of a number: [+0], [-0] and [NaN] are falsy. *)
Definition truthy_number (x : float) : bool :=
  negb (PrimFloat.eqb x 0%float) && PrimFloat.eqb x x.

(** [a || b] on [string | undefined] operands. *)
Definition or_else (a b : option string) : option string :=
  if truthy_opt a then a else b.

(** [hay.includes(needle)]: [needle] occurs in [hay] as a contiguous run. *)
Fixpoint includes (hay needle : string) : bool :=
  String.prefix needle hay
  || match hay with
     | EmptyString => false
     | String _ rest => includes rest needle
     end.

(** [xs.join(sep)]. *)
Fixpoint join (sep : string) (xs : list string) : string :=
  match xs with
  | [] => ""
  | [x] => x
  | x :: rest => x ++ sep ++ join sep rest
  end.

(** The lower-casing of ASCII text, on which [toLowerCase] maps [A-Z] to
    [a-z] and leaves every other character alone.  It instantiates the
    [toLowerCase] variable in the concrete runs of Part II. *)
Definition ascii_lower (c : ascii) : ascii :=
  let n := nat_of_ascii c in
  if ((65 <=? n)%nat && (n <=? 90)%nat)%bool then ascii_of_nat (n + 32) else c.

Fixpoint ascii_toLowerCase (s : string) : string :=
  match s with
  | EmptyString => EmptyString
  | String c rest => String (ascii_lower c) (ascii_toLowerCase rest)
  end.

End JS.
Import JS.

(** ** The place-name dictionary and [getSearchTerm] *)

Module Dict.

(** [placeNameDict], in the order of the object literal. *)
Definition placeNameDict : list (string * string) :=
  [ ("アイルランド", "Ireland");
    ("イギリス", "United Kingdom");
    ("フランス", "France");
    ("ドイツ", "Germany");
    ("イタリア", "Italy");
    ("スペイン", "Spain");
    ("アメリカ", "United States");
    ("カナダ", "Canada");
    ("オーストラリア", "Australia");
    ("ニュージーランド", "New Zealand");
    ("中国", "China");
    ("韓国", "South Korea");
    ("台湾", "Taiwan");
    ("タイ", "Thailand");
    ("インド", "India");
    ("ロシア", "Russia");
    ("ブラジル", "Brazil");
    ("メキシコ", "Mexico");
    ("エジプト", "Egypt");
    ("南アフリカ", "South Africa");
    ("南極", "Antarctica");
    ("昭和基地", "Showa Station");
    ("マクマード基地", "McMurdo Station");
    ("大阪", "Osaka");
    ("京都", "Kyoto");
    ("名古屋", "Nagoya");
    ("横浜", "Yokohama");
    ("神戸", "Kobe");
    ("福岡", "Fukuoka");
    ("札幌", "Sapporo");
    ("仙台", "Sendai") ].

(** The entry of the literal under key [k]. *)
Fixpoint own_entry (k : string) (d : list (string * string)) : option string :=
  match d with
  | [] => None
  | (k', v) :: rest => if String.eqb k k' then Some v else own_entry k rest
  end.

(** [placeNameDict] is a plain object, so [placeNameDict[place]] also finds
    what every object inherits from [Object.prototype]. *)
Definition objectPrototypeKeys : list string :=
  [ "constructor"; "hasOwnProperty"; "isPrototypeOf"; "propertyIsEnumerable";
    "toLocaleString"; "toString"; "valueOf"; "__proto__";
    "__defineGetter__"; "__defineSetter__"; "__lookupGetter__";
    "__lookupSetter__" ].

(** What a search is made with: a string, or (behind the [string] type
    annotation) the function or object inherited under [key]. *)
Inductive searchTerm : Type :=
| Text (s : string)
| Inherited (key : string).

(** [placeNameDict[place]]; [None] is [undefined]. *)
Definition placeNameDict_get (place : string) : option searchTerm :=
  match own_entry place placeNameDict with
  | Some t => Some (Text t)
  | None =>
      if existsb (String.eqb place) objectPrototypeKeys
      then Some (Inherited place)
      else None
  end.

(** ToBoolean of a looked-up property: objects and functions are truthy. *)
Definition truthy_term (v : searchTerm) : bool :=
  match v with
  | Text s => truthy_string s
  | Inherited _ => true
  end.

(** [getSearchTerm(place, lang)]. *)
Definition getSearchTerm (place : string) (lang : Lang) : searchTerm :=
  match lang with
  | ja =>
      match placeNameDict_get place with
      | Some v => if truthy_term v then v else Text place
      | None => Text place
      end
  | en => Text place
  end.

(** [searchTerm !== place]. *)
Definition differs (term : searchTerm) (place : string) : bool :=
  match term with
  | Text s => negb (String.eqb s place)
  | Inherited _ => true
  end.

End Dict.
Import Dict.

(** ** Programs with network requests, state setters and exceptions *)

Module Prog.

(** What the search endpoint hands back to [wikiSearchTitle]. *)
Inductive search_response : Type :=
| SearchRejected (msg : string)      (* [fetch] or [res.json()] throws *)
| SearchNotOk (status : string)      (* [res.ok] is false *)
| SearchJson (results : option (list string)).
                                     (* the titles of [json?.query?.search] *)

(** The first page of a coordinates reply, as far as the code reads it:
    [page?.coordinates?.[0]] and [page?.pageprops?.wikibase_item]. *)
Record page : Type := {
  coordinates : option (float * float);
  wikibase_item : option string
}.

Inductive coord_response : Type :=
| CoordRejected (msg : string)
| CoordJson (first_page : option page).

(** The first row of a SPARQL reply: the [value] of each bound variable. *)
Record binding : Type := {
  itemLabel : option string;
  countryLabel : option string;
  population_value : option string;
  elev_value : option string
}.

Inductive facts_response : Type :=
| FactsRejected (msg : string)
| FactsJson (first_row : option binding).

(** The [facts] state: every field may be [undefined]. *)
Record Facts : Type := {
  label : option string;
  country : option string;
  population : option float;
  elev : option float
}.

(** [{}]. *)
Definition noFacts : Facts :=
  {| label := None; country := None; population := None; elev := None |}.

(** The state of the component that [onGenerate] writes. *)
Record State : Type := {
  status : string;
  center : option (float * float);
  facts : Facts
}.

Definition with_status (s : string) (st : State) : State :=
  {| status := s; center := center st; facts := facts st |}.

Definition with_center (c : float * float) (st : State) : State :=
  {| status := status st; center := Some c; facts := facts st |}.

Definition with_facts (f : Facts) (st : State) : State :=
  {| status := status st; center := center st; facts := f |}.

(** What a run does, in order. *)
Inductive event : Type :=
| Searched (q : searchTerm) (lang : Lang)
| CoordLookup (title : string) (lang : Lang)
| FactsLookup (qid : string) (lang : Lang)
| StatusSet (s : string)
| CenterSet (c : float * float)
| FactsSet (f : Facts).

(** An [async] function body: it returns, throws, awaits one of the three
    requests, or calls a state setter and goes on. *)
Inductive prog (A : Type) : Type :=
| Ret (a : A)
| Throw (msg : string)
| FetchSearch (q : searchTerm) (lang : Lang) (k : search_response -> prog A)
| FetchCoord (title : string) (lang : Lang) (k : coord_response -> prog A)
| FetchFacts (qid : string) (lang : Lang) (k : facts_response -> prog A)
| SetStatus (s : string) (k : prog A)
| SetCenter (c : float * float) (k : prog A)
| SetFacts (f : Facts) (k : prog A).

Arguments Ret {A} a.
Arguments Throw {A} msg.
Arguments FetchSearch {A} q lang k.
Arguments FetchCoord {A} title lang k.
Arguments FetchFacts {A} qid lang k.
Arguments SetStatus {A} s k.
Arguments SetCenter {A} c k.
Arguments SetFacts {A} f k.

Fixpoint bind {A B : Type} (p : prog A) (f : A -> prog B) : prog B :=
  match p with
  | Ret a => f a
  | Throw msg => Throw msg
  | FetchSearch q l k => FetchSearch q l (fun r => bind (k r) f)
  | FetchCoord t l k => FetchCoord t l (fun r => bind (k r) f)
  | FetchFacts q l k => FetchFacts q l (fun r => bind (k r) f)
  | SetStatus s k => SetStatus s (bind k f)
  | SetCenter c k => SetCenter c (bind k f)
  | SetFacts x k => SetFacts x (bind k f)
  end.

(** [try { p } catch (e) { handler(e) }]. *)
Fixpoint try_catch {A : Type} (p : prog A) (handler : string -> prog A) : prog A :=
  match p with
  | Ret a => Ret a
  | Throw msg => handler msg
  | FetchSearch q l k => FetchSearch q l (fun r => try_catch (k r) handler)
  | FetchCoord t l k => FetchCoord t l (fun r => try_catch (k r) handler)
  | FetchFacts q l k => FetchFacts q l (fun r => try_catch (k r) handler)
  | SetStatus s k => SetStatus s (try_catch k handler)
  | SetCenter c k => SetCenter c (try_catch k handler)
  | SetFacts x k => SetFacts x (try_catch k handler)
  end.

Definition setStatus (s : string) : prog unit := SetStatus s (Ret tt).
Definition setCenter (c : float * float) : prog unit := SetCenter c (Ret tt).
Definition setFacts (f : Facts) : prog unit := SetFacts f (Ret tt).

Declare Scope prog_scope.
Delimit Scope prog_scope with prog.
Notation "x <- p ;; q" := (bind p (fun x => q))
  (at level 61, p at next level, right associativity) : prog_scope.
Notation "p ;; q" := (bind p (fun _ => q))
  (at level 61, right associativity) : prog_scope.

(** The network: each oracle sees the events so far, so two equal requests
    may be answered differently. *)
Record World : Type := {
  search_api : list event -> searchTerm -> Lang -> search_response;
  coord_api : list event -> string -> Lang -> coord_response;
  facts_api : list event -> string -> Lang -> facts_response
}.

Inductive outcome (A : Type) : Type :=
| Returned (a : A)
| Thrown (msg : string).

Arguments Returned {A} a.
Arguments Thrown {A} msg.

(** [run w p st h]: the state, the history and the outcome after [p] ran
    from state [st] with the events [h] behind it. *)
Fixpoint run {A : Type} (w : World) (p : prog A) (st : State) (h : list event)
  : State * list event * outcome A :=
  match p with
  | Ret a => (st, h, Returned a)
  | Throw msg => (st, h, Thrown msg)
  | FetchSearch q l k => run w (k (search_api w h q l)) st (h ++ [Searched q l])
  | FetchCoord t l k => run w (k (coord_api w h t l)) st (h ++ [CoordLookup t l])
  | FetchFacts q l k => run w (k (facts_api w h q l)) st (h ++ [FactsLookup q l])
  | SetStatus s k => run w k (with_status s st) (h ++ [StatusSet s])
  | SetCenter c k => run w k (with_center c st) (h ++ [CenterSet c])
  | SetFacts f k => run w k (with_facts f st) (h ++ [FactsSet f])
  end.

(** The three components of what [run] returns. *)
Definition finalState {A : Type} (r : State * list event * outcome A) : State :=
  fst (fst r).

Definition history {A : Type} (r : State * list event * outcome A) : list event :=
  snd (fst r).

Definition result {A : Type} (r : State * list event * outcome A) : outcome A :=
  snd r.

(** How a run goes on after [p] in [bind p f]: [f] runs on what [p] returned;
    an exception skips it. *)
Definition andThen {A B : Type} (w : World) (r : State * list event * outcome A)
  (f : A -> prog B) : State * list event * outcome B :=
  match r with
  | (st, h, Returned a) => run w (f a) st h
  | (st, h, Thrown msg) => (st, h, Thrown msg)
  end.

(** How a run goes on after [p] in [try_catch p handler]. *)
Definition orCatch {A : Type} (w : World) (r : State * list event * outcome A)
  (handler : string -> prog A) : State * list event * outcome A :=
  match r with
  | (st, h, Returned a) => (st, h, Returned a)
  | (st, h, Thrown msg) => run w (handler msg) st h
  end.

(** The searches of a history, in order. *)
Fixpoint searches (h : list event) : list (searchTerm * Lang) :=
  match h with
  | [] => []
  | Searched q l :: rest => (q, l) :: searches rest
  | _ :: rest => searches rest
  end.

(** The coordinate lookups of a history, in order. *)
Fixpoint coord_lookups (h : list event) : list (string * Lang) :=
  match h with
  | [] => []
  | CoordLookup t l :: rest => (t, l) :: coord_lookups rest
  | _ :: rest => coord_lookups rest
  end.

(** The fact lookups of a history, in order. *)
Fixpoint facts_lookups (h : list event) : list (string * Lang) :=
  match h with
  | [] => []
  | FactsLookup q l :: rest => (q, l) :: facts_lookups rest
  | _ :: rest => facts_lookups rest
  end.

(** [useEffect(() => { if (center) rebuildSnapshot(); }, [center,
    rebuildSnapshot])], with [rebuildSnapshot] depending on [bbox], [date],
    [facts], [place] and [center]: of the setters [onGenerate] calls, only
    [setCenter] and [setFacts] give a dependency a new identity, so the
    effect that builds the imagery request runs only after one of them. *)
Definition rebuilds_snapshot (e : event) : bool :=
  match e with
  | CenterSet _ | FactsSet _ => true
  | _ => false
  end.

Definition imagery_requested (h : list event) : bool :=
  existsb rebuilds_snapshot h.

(** The reply carries no result: [!results || results.length === 0]. *)
Definition emptyResults (r : search_response) : bool :=
  match r with
  | SearchJson None | SearchJson (Some []) => true
  | _ => false
  end.

(** The reply carries no coordinates: [!coords]. *)
Definition noCoordinates (r : coord_response) : bool :=
  match r with
  | CoordRejected _ => false
  | CoordJson None => true
  | CoordJson (Some pg) =>
      match coordinates pg with
      | None => true
      | Some _ => false
      end
  end.

(** The first search of a history. *)
Definition firstSearch (h : list event) : option (searchTerm * Lang) :=
  hd_error (searches h).

End Prog.
Import Prog.
Local Open Scope prog_scope.

(** ** The three Wikipedia/Wikidata calls and [onGenerate] *)

Module Pipeline.

(** The status texts [onGenerate] shows. *)
Definition statusSearching : string := "検索中...".
Definition statusNotFound : string := "Wikipediaで該当ページが見つかりませんでした。".
Definition statusLocating : string := "座標を取得中...".
Definition statusFetchingFacts : string := "詳細情報を取得中...".
Definition statusNoCoordinates : string := "座標が取得できませんでした。".
Definition statusFailed (msg : string) : string := "検索に失敗しました: " ++ msg.

(** [const altLang = lang === "ja" ? "en" : "ja"]. *)
Definition altLang (lang : Lang) : Lang :=
  if Lang_eqb lang ja then en else ja.

(** What [wikiTitleToCoordAndQid] returns when the page has coordinates. *)
Record CoordQ : Type := {
  lat : float;
  lon : float;
  qid : option string
}.

Section Calls.

(** [String.prototype.toLowerCase] and the [Number] conversion. *)
Variable toLowerCase : string -> string.
Variable Number : string -> float.

(** The predicate of [results.find] in [wikiSearchTitle]. *)
Definition titleMatches (q title : string) : bool :=
  String.eqb (toLowerCase title) (toLowerCase q)
  || includes (toLowerCase title) (toLowerCase q).

(** [exactMatch?.title || results[0]?.title], [exactMatch] being the first
    result the predicate accepts. *)
Definition selectTitle (q : string) (results : list string) : option string :=
  or_else (find (titleMatches q) results) (hd_error results).

(** The selection in the words of the specification: "a case-insensitive
    exact title match, else a title that contains the query text, else the
    top-ranked result". *)
Definition exactTitle (q title : string) : bool :=
  String.eqb (toLowerCase title) (toLowerCase q).

Definition containsQuery (q title : string) : bool :=
  includes (toLowerCase title) (toLowerCase q).

Definition selectTitle_stated (q : string) (results : list string) : option string :=
  match find (exactTitle q) results with
  | Some t => Some t
  | None =>
      match find (containsQuery q) results with
      | Some t => Some t
      | None => hd_error results
      end
  end.

(** [wikiSearchTitle(q, lang)].  With results at hand, [q.toLowerCase()] is
    called on the first one: it throws when [q] is no string. *)
Definition wikiSearchTitle (q : searchTerm) (lang : Lang) : prog (option string) :=
  FetchSearch q lang (fun res =>
    match res with
    | SearchRejected msg => Throw msg
    | SearchNotOk code => Throw ("HTTP error! status: " ++ code)
    | SearchJson None => Ret None
    | SearchJson (Some []) => Ret None
    | SearchJson (Some results) =>
        match q with
        | Text s => Ret (selectTitle s results)
        | Inherited _ => Throw "q.toLowerCase is not a function"
        end
    end).

(** [wikiTitleToCoordAndQid(title, lang)]. *)
Definition wikiTitleToCoordAndQid (title : string) (lang : Lang)
  : prog (option CoordQ) :=
  FetchCoord title lang (fun res =>
    match res with
    | CoordRejected msg => Throw msg
    | CoordJson None => Ret None
    | CoordJson (Some pg) =>
        match coordinates pg with
        | None => Ret None
        | Some (la, lo) =>
            Ret (Some {| lat := la; lon := lo; qid := wikibase_item pg |})
        end
    end).

(** [const num = (x?: string) => (x ? Number(x) : undefined)]. *)
Definition num (x : option string) : option float :=
  match x with
  | Some s => if truthy_string s then Some (Number s) else None
  | None => None
  end.

(** [wikidataFacts(qid, lang)]. *)
Definition wikidataFacts (id : string) (lang : Lang) : prog Facts :=
  FetchFacts id lang (fun res =>
    match res with
    | FactsRejected msg => Throw msg
    | FactsJson None => Ret noFacts
    | FactsJson (Some b) =>
        Ret {| label := itemLabel b;
               country := countryLabel b;
               population := num (population_value b);
               elev := num (elev_value b) |}
    end).

(** Lines 311-338 of [onGenerate]: the four searches of the fallback chain,
    [title] being reassigned by each search that runs. *)
Definition placeSearchResolver (place : string) (lang : Lang)
  : prog (option string) :=
  let searchTerm := getSearchTerm place lang in
  title <- wikiSearchTitle searchTerm lang ;;
  title <- (if negb (truthy_opt title) && differs searchTerm place
            then wikiSearchTitle (Text place) lang
            else Ret title) ;;
  title <- (if negb (truthy_opt title) && negb (Lang_eqb lang en)
            then wikiSearchTitle searchTerm en
            else Ret title) ;;
  title <- (if negb (truthy_opt title)
            then wikiSearchTitle (Text place) (altLang lang)
            else Ret title) ;;
  Ret title.

(** Lines 356-360 and 366-370: what both branches do with coordinates. *)
Definition useCoordinates (c : CoordQ) (lang : Lang) : prog unit :=
  setCenter (lat c, lon c) ;;
  match qid c with
  | Some id =>
      if truthy_string id
      then setStatus statusFetchingFacts ;;
           f <- wikidataFacts id lang ;;
           setFacts f
      else Ret tt
  | None => Ret tt
  end.

(** Lines 345-375 of [onGenerate]; a branch that ends in [return] does not
    reach the final [setStatus("")]. *)
Definition coordinateFactResolver (title : string) (lang : Lang) : prog unit :=
  setStatus statusLocating ;;
  coordQ <- wikiTitleToCoordAndQid title lang ;;
  match coordQ with
  | None =>
      if negb (Lang_eqb lang en)
      then coordQen <- wikiTitleToCoordAndQid title en ;;
           match coordQen with
           | Some c => useCoordinates c lang ;; setStatus ""
           | None => setStatus statusNoCoordinates
           end
      else setStatus statusNoCoordinates
  | Some c => useCoordinates c lang ;; setStatus ""
  end.

(** [onGenerate], for the [place] and [lang] its closure holds. *)
Definition onGenerate (place : string) (lang : Lang) : prog unit :=
  try_catch
    (setStatus statusSearching ;;
     title <- placeSearchResolver place lang ;;
     match title with
     | Some t =>
         if truthy_string t
         then coordinateFactResolver t lang
         else setStatus statusNotFound
     | None => setStatus statusNotFound
     end)
    (fun msg => setStatus (statusFailed msg)).

End Calls.

(** The searches the four [if]s of [placeSearchResolver] allow, in order:
    the second needs a search term that differs from the text, the third a
    requested language other than [en]. *)
Definition stages (place : string) (lang : Lang) : list (searchTerm * Lang) :=
  let searchTerm := getSearchTerm place lang in
  ([(searchTerm, lang)]
   ++ (if differs searchTerm place then [(Text place, lang)] else [])
   ++ (if negb (Lang_eqb lang en) then [(searchTerm, en)] else [])
   ++ [(Text place, altLang lang)])%list.

(** The four stages in the words of the specification: "translated term in
    requested language; original text in requested language; translated
    term in the fallback language when the requested language is not the
    fallback; original text in the other language". *)
Definition stages_stated (place : string) (lang : Lang) : list (searchTerm * Lang) :=
  let translated := getSearchTerm place lang in
  ([(translated, lang); (Text place, lang)]
   ++ (if negb (Lang_eqb lang en) then [(translated, en)] else [])
   ++ [(Text place, altLang lang)])%list.

End Pipeline.
Import Pipeline.

(** ** The bounding box *)

Module Geo.

Local Open Scope float_scope.

(** [Math.PI]: the binary64 number nearest to pi. *)
Definition PI : float := 3.141592653589793.

Record BoundingBox : Type := {
  south : float;
  north : float;
  west : float;
  east : float
}.

Section Box.

(** [Math.cos], which ECMAScript leaves to the implementation
    ("implementation-approximated"): a parameter. *)
Variable cos : float -> float.

(** [degPerKmAtLat(lat)], as the pair [(degLatPerKm, degLonPerKm)]; every
    operation is the binary64 one. *)
Definition degPerKmAtLat (lat : float) : float * float :=
  let degLatPerKm := 1 / 110.574 in
  let degLonPerKm := 1 / (111.320 * cos ((lat * PI) / 180)) in
  (degLatPerKm, degLonPerKm).

(** The [bbox] memo: [null] while there is no [center]. *)
Definition bbox (center : option (float * float)) (scaleKm : float)
  : option BoundingBox :=
  match center with
  | None => None
  | Some (lat, lon) =>
      let '(degLatPerKm, degLonPerKm) := degPerKmAtLat lat in
      let halfLat := (scaleKm * degLatPerKm) / 2 in
      let halfLon := (scaleKm * degLonPerKm) / 2 in
      Some {| south := lat - halfLat;
              north := lat + halfLat;
              west := lon - halfLon;
              east := lon + halfLon |}
  end.

End Box.

End Geo.

(** ** The imagery request *)

Module Wvs.

(** The argument object of [buildWvsUrl]; an optional property that is left
    out is [None]. *)
Record Args : Type := {
  south : float;
  west : float;
  north : float;
  east : float;
  date : string;
  width : option float;
  height : option float;
  layers : option (list string);
  format : option string
}.

(** A default parameter value stands in for [undefined]. *)
Definition default {A : Type} (d : A) (v : option A) : A :=
  match v with
  | Some x => x
  | None => d
  end.

Definition defaultWidth : float := 1600%float.
Definition defaultHeight : float := 900%float.
Definition defaultLayers : list string :=
  [ "MODIS_Terra_CorrectedReflectance_TrueColor"; "Coastlines" ].
Definition defaultFormat : string := "image/png".

Definition endpoint : string := "https://wvs.earthdata.nasa.gov/api/v1/snapshot".

(** *** [URLSearchParams.prototype.toString] *)

(** Bytes the form-urlencoded serializer leaves as they are: ASCII letters
    and digits, and [*], [-], [.], [_]. *)
Definition unreserved (c : ascii) : bool :=
  let n := nat_of_ascii c in
  ((48 <=? n)%nat && (n <=? 57)%nat)
  || ((65 <=? n)%nat && (n <=? 90)%nat)
  || ((97 <=? n)%nat && (n <=? 122)%nat)
  || (n =? 42)%nat || (n =? 45)%nat || (n =? 46)%nat || (n =? 95)%nat.

(** An upper-case hexadecimal digit. *)
Definition hexDigit (n : nat) : ascii :=
  if (n <? 10)%nat then ascii_of_nat (48 + n) else ascii_of_nat (55 + n).

Definition encodeByte (c : ascii) : string :=
  if unreserved c then String c EmptyString
  else if Ascii.eqb c " "%char then "+"
  else let n := nat_of_ascii c in
       String "%"%char
         (String (hexDigit (n / 16)) (String (hexDigit (n mod 16)) EmptyString)).

Fixpoint urlencode (s : string) : string :=
  match s with
  | EmptyString => EmptyString
  | String c rest => (encodeByte c ++ urlencode rest)%string
  end.

(** One [name=value] piece. *)
Definition encodePair (kv : string * string) : string :=
  (urlencode (fst kv) ++ "=" ++ urlencode (snd kv))%string.

(** [name=value] pairs joined by [&], in the order of the list. *)
Definition serialize (params : list (string * string)) : string :=
  join "&" (map encodePair params).

(** [sep] does not occur in [s]. *)
Fixpoint free (sep : ascii) (s : string) : bool :=
  match s with
  | EmptyString => true
  | String c rest => negb (Ascii.eqb c sep) && free sep rest
  end.

(** *** Reading a query string back (the parser of [URLSearchParams]) *)

Definition hexValue (c : ascii) : option nat :=
  let n := nat_of_ascii c in
  if ((48 <=? n)%nat && (n <=? 57)%nat)%bool then Some (n - 48)
  else if ((65 <=? n)%nat && (n <=? 70)%nat)%bool then Some (n - 55)
  else if ((97 <=? n)%nat && (n <=? 102)%nat)%bool then Some (n - 87)
  else None.

(** [+] is a space and [%XY] the byte [XY]; any other byte stands for
    itself. *)
Fixpoint urldecode (s : string) : string :=
  match s with
  | EmptyString => EmptyString
  | String c rest =>
      if Ascii.eqb c "+"%char then String " "%char (urldecode rest)
      else if Ascii.eqb c "%"%char then
        match rest with
        | String a (String b rest') =>
            match hexValue a, hexValue b with
            | Some x, Some y =>
                String (ascii_of_nat (16 * x + y)) (urldecode rest')
            | _, _ => String c (urldecode rest)
            end
        | _ => String c (urldecode rest)
        end
      else String c (urldecode rest)
  end.

(** [s.split(sep)] for a one-byte separator. *)
Fixpoint splitOn (sep : ascii) (s : string) : list string :=
  match s with
  | EmptyString => [EmptyString]
  | String c rest =>
      if Ascii.eqb c sep then EmptyString :: splitOn sep rest
      else match splitOn sep rest with
           | x :: xs => String c x :: xs
           | [] => [String c EmptyString]
           end
  end.

(** The name before the first [=] and the value after it; a piece without
    [=] is a name with an empty value. *)
Fixpoint nameValue (piece : string) : string * string :=
  match piece with
  | EmptyString => (EmptyString, EmptyString)
  | String c rest =>
      if Ascii.eqb c "="%char then (EmptyString, rest)
      else let (n, v) := nameValue rest in (String c n, v)
  end.

(** The pairs of a query string; empty pieces between [&] are skipped. *)
Definition parseQuery (query : string) : list (string * string) :=
  map (fun piece => let (n, v) := nameValue piece in (urldecode n, urldecode v))
    (filter truthy_string (splitOn "&"%char query)).

Section Build.

(** The [Number::toString] conversion of template literals and [String()]. *)
Variable numberToString : float -> string.

(** The object handed to [new URLSearchParams], in property order. *)
Definition params (a : Args) : list (string * string) :=
  [ ("REQUEST", "GetSnapshot");
    ("TIME", date a);
    ("BBOX", (numberToString (south a) ++ "," ++ numberToString (west a) ++ ","
              ++ numberToString (north a) ++ "," ++ numberToString (east a))%string);
    ("CRS", "EPSG:4326");
    ("LAYERS", join "," (default defaultLayers (layers a)));
    ("FORMAT", default defaultFormat (format a));
    ("WIDTH", numberToString (default defaultWidth (width a)));
    ("HEIGHT", numberToString (default defaultHeight (height a))) ].

(** [buildWvsUrl(args)]. *)
Definition buildWvsUrl (a : Args) : string :=
  (endpoint ++ "?" ++ serialize (params a))%string.

End Build.

End Wvs.

(** ** The fact chips of the postcard *)

Module Compositor.

Section Chips.

(** [new Intl.NumberFormat("ja-JP").format], [Number::toString],
    [new Date(date).toLocaleDateString("ja-JP")] and
    [ctx.measureText(chip).width]. *)
Variable intlFormat : float -> string.
Variable numberToString : float -> string.
Variable toLocaleDateString : string -> string.
Variable measureText : string -> float.

(** [formatNumber(n)]: [undefined] for [null], [undefined] and [NaN]. *)
Definition formatNumber (n : option float) : option string :=
  match n with
  | None => None
  | Some x => if PrimFloat.eqb x x then Some (intlFormat x) else None
  end.

(** [`${v}`] for [v : string | undefined]. *)
Definition template (v : option string) : string :=
  match v with
  | Some s => s
  | None => "undefined"
  end.

(** [chips.push(x)]. *)
Definition push (chips : list string) (x : string) : list string :=
  (chips ++ [x])%list.

(** [if (facts.population)]. *)
Definition hasPopulation (f : Facts) : bool :=
  match population f with
  | Some x => truthy_number x
  | None => false
  end.

Definition populationChip (f : Facts) : string :=
  ("人口 " ++ template (formatNumber (population f)) ++ "人")%string.

Definition elevationChip (e : float) : string :=
  ("標高 " ++ numberToString e ++ "m")%string.

(** Lines 256-259 of [rebuildSnapshot]: the chips of the postcard. *)
Definition chips (f : Facts) (date : string) : list string :=
  let chips := [] in
  let chips := if hasPopulation f then push chips (populationChip f) else chips in
  let chips := match elev f with
               | Some e => push chips (elevationChip e)
               | None => chips
               end in
  push chips (toLocaleDateString date).

(** The chips in the words of the specification: "a population chip if
    population is present, an elevation chip if elevation is present, then
    always a calendar date chip", a fact being present when it is defined. *)
Definition chips_stated (f : Facts) (date : string) : list string :=
  ((match population f with
    | Some _ => [populationChip f]
    | None => []
    end)
   ++ (match elev f with
       | Some e => [elevationChip e]
       | None => []
       end)
   ++ [toLocaleDateString date])%list.

(** One drawn chip: its text, where its rectangle starts and how wide it
    is. *)
Record Pill : Type := {
  text : string;
  left : float;
  pillWidth : float
}.

(** Lines 261-273: the loop that draws the chips from [x] on. *)
Fixpoint drawChips (x : float) (chips : list string) : list Pill :=
  match chips with
  | [] => []
  | chip :: rest =>
      let padX := 14%float in
      let w := (measureText chip + padX * 2)%float in
      {| text := chip; left := x; pillWidth := w |}
        :: drawChips (x + (w + 10))%float rest
  end.

End Chips.

End Compositor.

(** ** The name of the downloaded file *)

Module Download.

(** A string as the regular expression sees it under the [u] flag: its code
    points. *)
Definition text : Type := list N.

(** The code points of an ASCII literal. *)
Definition codes (s : string) : text :=
  map N_of_ascii (list_ascii_of_string s).

Definition underscore : N := 95%N.
Definition hyphen : N := 45%N.

(** ToBoolean of a string. *)
Definition truthy_text (s : text) : bool :=
  match s with
  | [] => false
  | _ :: _ => true
  end.

Section Name.

(** The Unicode general categories [\p{L}] and [\p{N}]. *)
Variable isLetter : N -> bool.
Variable isNumber : N -> bool.

(** The character class [[^\p{L}\p{N}_-]]. *)
Definition unsafe (c : N) : bool :=
  negb (isLetter c || isNumber c || N.eqb c underscore || N.eqb c hyphen).

(** [s.replace(/[^\p{L}\p{N}_-]+/gu, "_")]: outside a match ([replaceRuns])
    a character of the class starts a match and puts the underscore; inside
    one ([insideRun]) the greedy [+] takes every further character of the
    class, and the first other character ends the match. *)
Fixpoint replaceRuns (s : text) : text :=
  match s with
  | [] => []
  | c :: rest =>
      if unsafe c then underscore :: insideRun rest else c :: replaceRuns rest
  end
with insideRun (s : text) : text :=
  match s with
  | [] => []
  | c :: rest =>
      if unsafe c then insideRun rest else c :: replaceRuns rest
  end.

(** [facts.label || place || "postcard"]. *)
Definition titleSource (label : option text) (place : text) : text :=
  match label with
  | Some l => if truthy_text l then l
              else if truthy_text place then place else codes "postcard"
  | None => if truthy_text place then place else codes "postcard"
  end.

(** [a.download] in [downloadPng]. *)
Definition downloadName (label : option text) (place date : text) : text :=
  let safeTitle := replaceRuns (titleSource label place) in
  (safeTitle ++ codes "_" ++ date ++ codes ".png")%list.

(** *** The file name in the words of the specification *)

(** The maximal runs of [s]: each run with the class of its characters,
    [true] for the characters to replace. *)
Fixpoint runs (s : text) : list (bool * text) :=
  match s with
  | [] => []
  | c :: rest =>
      match runs rest with
      | (b, r) :: more =>
          if Bool.eqb b (unsafe c) then (b, c :: r) :: more
          else (unsafe c, [c]) :: (b, r) :: more
      | [] => [(unsafe c, [c])]
      end
  end.

(** Neighbouring runs differ in class: no run can be made longer. *)
Fixpoint alternate (rs : list (bool * text)) : Prop :=
  match rs with
  | a :: (b :: _) as rest => fst a <> fst b /\ alternate rest
  | _ => True
  end.

(** Every maximal run of characters to replace becomes one underscore. *)
Definition replaceMaximalRuns (s : text) : text :=
  List.concat
    (map (fun run : bool * text => if fst run then [underscore] else snd run)
       (runs s)).

(** "the facts label if present, else the query text if non-empty, else the
    literal string postcard", a label being present when it is defined. *)
Definition titleSource_stated (label : option text) (place : text) : text :=
  match label with
  | Some l => l
  | None => if truthy_text place then place else codes "postcard"
  end.

Definition downloadName_stated (label : option text) (place date : text) : text :=
  (replaceMaximalRuns (titleSource_stated label place)
   ++ [underscore] ++ date ++ codes ".png")%list.

(** The same with a label that is present and not empty. *)
Definition titleSource_amended (label : option text) (place : text) : text :=
  match label with
  | Some (c :: l) => c :: l
  | _ => if truthy_text place then place else codes "postcard"
  end.

Definition downloadName_amended (label : option text) (place date : text) : text :=
  (replaceMaximalRuns (titleSource_amended label place)
   ++ [underscore] ++ date ++ codes ".png")%list.

End Name.

(** The ASCII rows of the two categories. *)
Definition asciiLetter (c : N) : bool :=
  ((65 <=? c) && (c <=? 90) || (97 <=? c) && (c <=? 122))%N.

Definition asciiDigit (c : N) : bool :=
  ((48 <=? c) && (c <=? 57))%N.

End Download.

(** ** Concrete worlds, states and platform functions

    The inputs of the concrete runs of Part II.  Where a run needs a platform
    function, the name says what stands in for it; the texts involved are
    ASCII, on which [ascii_toLowerCase], [asciiLetter] and [asciiDigit] agree
    with the platform. *)

Module Scenario.

(** [Number], [Intl.NumberFormat(...).format] and [toLocaleDateString] of
    the runs below; no result depends on what they print. *)
Definition sampleNumber (s : string) : float := 0%float.
Definition sampleFormat (x : float) : string := "0".
Definition sampleDate (d : string) : string := d.

(** The state of the component before the first query. *)
Definition idle : State :=
  {| status := ""; center := None; facts := noFacts |}.

(** The state a query for Tokyo left behind. *)
Definition tokyoFacts : Facts :=
  {| label := Some "Tokyo"; country := Some "Japan";
     population := Some 37000000%float; elev := Some 40%float |}.

Definition afterTokyo : State :=
  {| status := ""; center := Some (35.5, 139.75)%float; facts := tokyoFacts |}.

(** Every search comes back empty. *)
Definition silentWorld : World :=
  {| search_api := fun _ _ _ => SearchJson (Some []);
     coord_api := fun _ _ _ => CoordJson None;
     facts_api := fun _ _ _ => FactsJson None |}.

(** The search ranks "Tokyo Tower" above "Tokyo". *)
Definition towerWorld : World :=
  {| search_api := fun _ _ _ => SearchJson (Some ["Tokyo Tower"; "Tokyo"]);
     coord_api := fun _ _ _ => CoordJson None;
     facts_api := fun _ _ _ => FactsJson None |}.

(** A page is found, and it carries no coordinates in any language. *)
Definition unchartedWorld : World :=
  {| search_api := fun _ _ _ => SearchJson (Some ["Atlantis"]);
     coord_api := fun _ _ _ =>
       CoordJson (Some {| coordinates := None; wikibase_item := Some "Q1" |});
     facts_api := fun _ _ _ => FactsJson None |}.

(** A page with coordinates and without a Wikidata item. *)
Definition islandWorld : World :=
  {| search_api := fun _ _ _ => SearchJson (Some ["Null Island"]);
     coord_api := fun _ _ _ =>
       CoordJson (Some {| coordinates := Some (0, 0)%float;
                          wikibase_item := None |});
     facts_api := fun _ _ _ => FactsJson None |}.

(** [{ population: 37000000, elev: undefined }]. *)
Definition populous : Facts :=
  {| label := None; country := None;
     population := Some 37000000%float; elev := None |}.

(** A place whose recorded population is zero. *)
Definition uninhabited : Facts :=
  {| label := Some "Bouvet Island"; country := Some "Norway";
     population := Some 0%float; elev := None |}.

End Scenario.
Import Scenario.

(** ** [toISODate] *)

Module IsoDate.

(** What [toISODate] reads off its [Date]: [getFullYear()], [getMonth()]
    (0 for January) and [getDate()].  Both callers pass no argument, so the
    date is [new Date()], the current time, and the year is a natural
    number. *)
Record DateFields : Type := {
  fullYear : nat;
  monthIndex : nat;
  dayOfMonth : nat
}.

(** The digit [n], for [n] below ten. *)
Definition digit (n : nat) : ascii := ascii_of_nat (48 + n).

(** The decimal digits of [n], most significant first; [fuel] bounds the
    number of digits. *)
Fixpoint digits (fuel n : nat) : string :=
  match fuel with
  | 0 => EmptyString
  | S fuel' =>
      if (n <? 10)%nat then String (digit n) EmptyString
      else (digits fuel' (n / 10) ++ String (digit (n mod 10)) EmptyString)%string
  end.

(** [String(n)] for a natural number [n]. *)
Definition decimalString (n : nat) : string := digits (S n) n.

Fixpoint zeros (k : nat) : string :=
  match k with
  | 0 => EmptyString
  | S k' => String "0"%char (zeros k')
  end.

(** [const pad = (n) => String(n).padStart(2, "0")]. *)
Definition pad (n : nat) : string :=
  let s := decimalString n in
  (zeros (2 - String.length s) ++ s)%string.

(** [toISODate(d)]. *)
Definition toISODate (d : DateFields) : string :=
  let y := decimalString (fullYear d) in
  let m := pad (monthIndex d + 1) in
  let day := pad (dayOfMonth d) in
  (y ++ "-" ++ m ++ "-" ++ day)%string.

(** *** Reading a date string back *)

Definition digitValue (c : ascii) : option nat :=
  let n := nat_of_ascii c in
  if ((48 <=? n)%nat && (n <=? 57)%nat)%bool then Some (n - 48) else None.

(** The number a string of digits denotes, read after the digits of
    [acc]; [None] for the empty string and for a string with another
    character. *)
Fixpoint readDigits (s : string) (acc : nat) : option nat :=
  match s with
  | EmptyString => None
  | String c rest =>
      match digitValue c with
      | None => None
      | Some v =>
          match rest with
          | EmptyString => Some (10 * acc + v)
          | String _ _ => readDigits rest (10 * acc + v)
          end
      end
  end.

(** Year, month (1 for January) and day of a string [Y-M-D]. *)
Definition readISODate (s : string) : option (nat * nat * nat) :=
  match Wvs.splitOn "-"%char s with
  | [y; m; d] =>
      match readDigits y 0, readDigits m 0, readDigits d 0 with
      | Some y', Some m', Some d' => Some (y', m', d')
      | _, _, _ => None
      end
  | _ => None
  end.

End IsoDate.

(** ** The fact cards under the preview *)

Module Cards.

(** What React puts in the page for the children of the panel: a card, or
    the digits of a number (a falsy number that is the value of an [&&]
    is rendered, where [false], [null], [undefined] and the empty string
    render nothing). *)
Inductive node : Type :=
| Card (heading body : string)
| Bare (x : float).

(** What the expression of lines 538-559 renders: nothing, a number on
    its own, or the grid with its children. *)
Inductive panel : Type :=
| NoPanel
| BareNumber (x : float)
| Grid (children : list node).

Section Render.

Variable intlFormat : float -> string.
Variable numberToString : float -> string.

(** [{v}] for [v : string | undefined]. *)
Definition child (v : option string) : string :=
  match v with
  | Some s => s
  | None => ""
  end.

(** [{facts.country && card}]. *)
Definition countryCard (f : Facts) : list node :=
  match country f with
  | Some c => if truthy_string c then [Card "Country" c] else []
  | None => []
  end.

(** [{facts.population && card}]. *)
Definition populationCard (f : Facts) : list node :=
  match population f with
  | Some p =>
      if truthy_number p
      then [Card "Population"
              (child (Compositor.formatNumber intlFormat (population f)))]
      else [Bare p]
  | None => []
  end.

(** [{facts.elev != null && card}]. *)
Definition elevationCard (f : Facts) : list node :=
  match elev f with
  | Some e => [Card "Elevation (m)" (numberToString e)]
  | None => []
  end.

(** [{facts && (facts.country || facts.population || facts.elev) &&
    grid}]: when no operand of the [||] is truthy its value is the last
    one, [facts.elev]. *)
Definition factPanel (f : Facts) : panel :=
  let grid := Grid (countryCard f ++ populationCard f ++ elevationCard f)%list in
  if truthy_opt (country f) || Compositor.hasPopulation f then grid
  else match elev f with
       | Some e => if truthy_number e then grid else BareNumber e
       | None => NoPanel
       end.

(** The panel shows the node [n]. *)
Definition shows (p : panel) (n : node) : Prop :=
  match p with
  | Grid children => In n children
  | _ => False
  end.

End Render.

End Cards.

(** ** How a run of [onGenerate] ends *)

Module Outcome.

(** How a run ended, read off the final status [s]: with coordinates
    (the status is cleared), without a page, without coordinates, or with
    the message of an exception; [st] is the state before the run and [st']
    the state after it. *)
Definition settled (st st' : State) (s : string) : Prop :=
  (s = "" /\ exists c, center st' = Some c)
  \/ (s = statusNotFound /\ center st' = center st /\ facts st' = facts st)
  \/ (s = statusNoCoordinates /\ center st' = center st /\ facts st' = facts st)
  \/ (exists msg, s = statusFailed msg /\ facts st' = facts st).

(** A lookup was made for the page [title]; a lookup was made in the
    language [lang]. *)
Definition sameTitle (title : string) (x : string * Lang) : Prop := fst x = title.
Definition sameLang (lang : Lang) (x : string * Lang) : Prop := snd x = lang.

(** The message of the exception a search reply makes [wikiSearchTitle]
    throw before it looks at any result: a rejected [fetch], or a response
    whose [ok] is false. *)
Definition searchFailure (r : search_response) : option string :=
  match r with
  | SearchRejected msg => Some msg
  | SearchNotOk code => Some ("HTTP error! status: " ++ code)%string
  | SearchJson _ => None
  end.

End Outcome.
Import Outcome.

(** ** Alphabets: the bytes of a query string, the code points of a file
    name *)

Module Alphabet.

(** The bytes a form-urlencoded query string is made of: the bytes the
    serializer leaves alone, [+] for a space, [%] before two hexadecimal
    digits, and the separators [=] and [&]. *)
Definition queryByte (c : ascii) : bool :=
  Wvs.unreserved c || Ascii.eqb c "+"%char || Ascii.eqb c "%"%char
  || Ascii.eqb c "="%char || Ascii.eqb c "&"%char.

Fixpoint allBytes (p : ascii -> bool) (s : string) : bool :=
  match s with
  | EmptyString => true
  | String c rest => p c && allBytes p rest
  end.

Section Safe.

Variable isLetter : N -> bool.
Variable isNumber : N -> bool.

(** No code point of [s] is matched by [[^\p{L}\p{N}_-]]. *)
Definition safeText (s : Download.text) : Prop :=
  Forall (fun c => Download.unsafe isLetter isNumber c = false) s.

End Safe.

End Alphabet.
Import Alphabet.

(** ** Further worlds *)

Module Outages.

(** The Japanese page of Mount Fuji carries no coordinates, the English
    page does. *)
Definition splitWorld : World :=
  {| search_api := fun _ _ _ => SearchJson (Some ["Mount Fuji"]);
     coord_api := fun _ _ l =>
       match l with
       | ja => CoordJson (Some {| coordinates := None; wikibase_item := Some "Q39231" |})
       | en => CoordJson (Some {| coordinates := Some (35.5, 138.75)%float;
                                  wikibase_item := Some "Q39231" |})
       end;
     facts_api := fun _ _ _ =>
       FactsJson (Some {| itemLabel := Some "富士山"; countryLabel := Some "日本";
                          population_value := None; elev_value := None |}) |}.

(** Every search is answered with status 503. *)
Definition downWorld : World :=
  {| search_api := fun _ _ _ => SearchNotOk "503";
     coord_api := fun _ _ _ => CoordJson None;
     facts_api := fun _ _ _ => FactsJson None |}.

(** Two argument objects of [buildWvsUrl] for one box and one day: the
    first leaves the optional properties out, the second spells the default
    values out. *)
Definition bareArgs : Wvs.Args :=
  {| Wvs.south := 35%float; Wvs.west := 139%float;
     Wvs.north := 36%float; Wvs.east := 140%float;
     Wvs.date := "2026-03-09";
     Wvs.width := None; Wvs.height := None;
     Wvs.layers := None; Wvs.format := None |}.

Definition spelledArgs : Wvs.Args :=
  {| Wvs.south := 35%float; Wvs.west := 139%float;
     Wvs.north := 36%float; Wvs.east := 140%float;
     Wvs.date := "2026-03-09";
     Wvs.width := Some Wvs.defaultWidth; Wvs.height := Some Wvs.defaultHeight;
     Wvs.layers := Some Wvs.defaultLayers; Wvs.format := Some Wvs.defaultFormat |}.

End Outages.
Import Outages.

(** ** The fallback chain, as a list of searches *)

Module Fallback.

Section Chain.

Variable toLowerCase : string -> string.

(** The searches of a list made one after another, the first candidate
    ending the chain; the answer of the last search is returned as it is. *)
Fixpoint firstCandidate (chain : list (searchTerm * Lang)) : prog (option string) :=
  match chain with
  | [] => Ret None
  | (q, l) :: rest =>
      title <- wikiSearchTitle toLowerCase q l ;;
      match rest with
      | [] => Ret title
      | _ :: _ => if truthy_opt title then Ret title else firstCandidate rest
      end
  end.

End Chain.

(** The event a search leaves in the history. *)
Definition searched (s : searchTerm * Lang) : event := Searched (fst s) (snd s).

(** The searches [onGenerate] can make for a place: four for a translated
    text, three for another text when [ja] is requested, two when [en]
    is. *)
Definition chainOf (place : string) (lang : Lang) : list (searchTerm * Lang) :=
  match lang, placeNameDict_get place with
  | ja, Some term =>
      [(term, ja); (Text place, ja); (term, en); (Text place, en)]
  | ja, None => [(Text place, ja); (Text place, en); (Text place, en)]
  | en, _ => [(Text place, en); (Text place, ja)]
  end.

(** A search source that knows "Atlantis" in English only. *)
Definition englishOnlyWorld : World :=
  {| search_api := fun _ _ l =>
       match l with
       | ja => SearchJson (Some [])
       | en => SearchJson (Some ["Atlantis"])
       end;
     coord_api := fun _ _ _ => CoordJson None;
     facts_api := fun _ _ _ => FactsJson None |}.

End Fallback.
Import Fallback.

(** ** The row of chips on the canvas *)

Module ChipRow.

Section Row.

Variable intlFormat : float -> string.
Variable numberToString : float -> string.
Variable toLocaleDateString : string -> string.
Variable measureText : string -> float.

(** Lines 255-273 of [rebuildSnapshot]: the chips, drawn from [let x = 72]
    on. *)
Definition chipRow (f : Facts) (date : string) : list Compositor.Pill :=
  Compositor.drawChips measureText 72%float
    (Compositor.chips intlFormat numberToString toLocaleDateString f date).

(** Pills that follow one another from [x] on, left to right: each is as
    wide as its text and the padding of 14 on both sides, and the next one
    starts 10 after its right edge. *)
Fixpoint inRow (x : float) (pills : list Compositor.Pill) : Prop :=
  match pills with
  | [] => True
  | p :: rest =>
      Compositor.left p = x
      /\ Compositor.pillWidth p = (measureText (Compositor.text p) + 14 * 2)%float
      /\ inRow (x + (Compositor.pillWidth p + 10))%float rest
  end.

End Row.

End ChipRow.
Import ChipRow.

(** ** Binary64 numbers as real numbers *)

Module Binary64.

Local Open Scope R_scope.

(** [2^e] as a real number. *)
Definition bpow (e : Z) : R := powerRZ 2 e.

(** Where the real [v] lies in [[m * 2^e, (m + 1) * 2^e)]: on the lower
    end, below the middle, on it, or above it. *)
Definition located (v : R) (m e : Z) (l : location) : Prop :=
  match l with
  | loc_Exact => v = IZR m * bpow e
  | loc_Inexact Lt => IZR m * bpow e < v < (IZR m + / 2) * bpow e
  | loc_Inexact Eq => v = (IZR m + / 2) * bpow e
  | loc_Inexact Gt => (IZR m + / 2) * bpow e < v < (IZR m + 1) * bpow e
  end.

(** The exponent at which binary64 holds a positive real [v]: -1074 below
    [2^-1021] (the subnormal numbers and the first binade), and [d - 53]
    for [v] in [[2^(d-1), 2^d)] above. *)
Definition canonic (v : R) (E : Z) : Prop :=
  (E = (-1074)%Z /\ v < bpow (-1021))
  \/ (exists d : Z, E = (d - 53)%Z /\ (-1074 <= E)%Z /\ bpow (d - 1) <= v < bpow d).

(** [rv] is [v] rounded to nearest, ties to even, at its exponent (with no
    bound on the exponent from above). *)
Definition RN (v rv : R) : Prop :=
  exists (E m : Z) (l : location),
    canonic v E /\ (0 <= m)%Z /\ located v m E l
    /\ rv = IZR (round_nearest_even m l) * bpow E.

(** The float of sign [s] that stands for the magnitude [rv]: a zero, a
    finite number of that magnitude, or the infinity when [rv] is [2^1024]
    or more. *)
Definition repr (s : bool) (rv : R) (f : spec_float) : Prop :=
  (rv = 0 /\ f = S754_zero s)
  \/ (exists (m : positive) (e : Z),
        f = S754_finite s m e /\ rv = IZR (Zpos m) * bpow e)
  \/ (f = S754_infinity s /\ bpow 1024 <= rv).

Definition sgn (s : bool) : R := if s then -1 else 1.

(** The real number a float stands for, the infinities standing for
    [2^1024] and [-2^1024] (every finite float lies strictly between). *)
Definition Vx (f : spec_float) : R :=
  match f with
  | S754_zero _ => 0
  | S754_nan => 0
  | S754_finite s m e => sgn s * (IZR (Zpos m) * bpow e)
  | S754_infinity s => sgn s * bpow 1024
  end.

Definition is_nan_sf (f : spec_float) : bool :=
  match f with
  | S754_nan => true
  | _ => false
  end.

(** [f] is the exact real [S] rounded to binary64. *)
Definition rounds (S : R) (f : spec_float) : Prop :=
  (S = 0 /\ exists s, f = S754_zero s)
  \/ (0 < S /\ exists rv, RN S rv /\ repr false rv f)
  \/ (S < 0 /\ exists rv, RN (- S) rv /\ repr true rv f).

(** A zero or a finite number. *)
Definition finite_sf (f : spec_float) : bool :=
  match f with
  | S754_zero _ | S754_finite _ _ _ => true
  | _ => false
  end.

(** A positive finite number. *)
Definition positive_sf (f : spec_float) : bool :=
  match f with
  | S754_finite false _ _ => true
  | _ => false
  end.

(** The real value of a JavaScript number (0 for [NaN], [2^1024] and
    [-2^1024] for the infinities). *)
Definition val (x : float) : R := Vx (Prim2SF x).

(** Neither [NaN] nor negative: [+0], [-0], a positive number or
    [Infinity]. *)
Definition nonneg (x : float) : Prop :=
  is_nan_sf (Prim2SF x) = false /\ 0 <= val x.

(** A number other than [NaN], [Infinity] and [-Infinity]. *)
Definition finite (x : float) : Prop := finite_sf (Prim2SF x) = true.

End Binary64.

(** ** A cosine to run the box with *)

Module GeoScenario.

(** A stand-in for [Math.cos] in the runs of the box: the polynomial
    [1 - x^2 / 2].  It is even, for the angles next to 0 it returns what
    [Math.cos] returns there, 1, and it lies in (0, 1] for the latitudes of
    the runs. *)
Definition taylorCos (x : float) : float := (1 - (x * x) / 2)%float.

End GeoScenario.

(* ===================================================================== *)
(** * Part II: theorems *)
(* ===================================================================== *)

(** ** Runs of programs *)

Section ProgFacts.

Context {A B : Type} (w : World).

Lemma run_bind (p : prog A) (f : A -> prog B) (st : State) (h : list event) :
  run w (bind p f) st h = andThen w (run w p st h) f.
Proof.
  revert st h.
  induction p as [a | msg | q l k IH | t l k IH | q l k IH | s k IH | c k IH | x k IH];
    intros st h; simpl; auto.
Qed.

Lemma run_try_catch (p : prog A) (handler : string -> prog A)
  (st : State) (h : list event) :
  run w (try_catch p handler) st h = orCatch w (run w p st h) handler.
Proof.
  revert st h.
  induction p as [a | msg | q l k IH | t l k IH | q l k IH | s k IH | c k IH | x k IH];
    intros st h; simpl; auto.
Qed.

(** A run only adds to the history. *)
Lemma run_extends (p : prog A) (st : State) (h : list event) :
  exists h', history (run w p st h) = h ++ h'.
Proof.
  unfold history. revert st h.
  induction p as [a | msg | q l k IH | t l k IH | q l k IH | s k IH | c k IH | x k IH];
    intros st h; simpl;
    try (exists []; now rewrite app_nil_r);
    match goal with
    | |- context [run w ?p' ?st' (h ++ [?e])] =>
        first [ destruct (IH st' (h ++ [e])) as [h' E]
              | destruct (IH (search_api w h q l) st' (h ++ [e])) as [h' E]
              | destruct (IH (coord_api w h t l) st' (h ++ [e])) as [h' E]
              | destruct (IH (facts_api w h q l) st' (h ++ [e])) as [h' E] ];
        exists (e :: h'); rewrite E, <- app_assoc; reflexivity
    end.
Qed.

End ProgFacts.

Lemma searches_app (h1 h2 : list event) :
  searches (h1 ++ h2) = searches h1 ++ searches h2.
Proof.
  induction h1 as [| e h1 IH]; simpl; [reflexivity |].
  destruct e; simpl; rewrite ?IH; reflexivity.
Qed.

Lemma coord_lookups_app (h1 h2 : list event) :
  coord_lookups (h1 ++ h2) = coord_lookups h1 ++ coord_lookups h2.
Proof.
  induction h1 as [| e h1 IH]; simpl; [reflexivity |].
  destruct e; simpl; rewrite ?IH; reflexivity.
Qed.

Lemma facts_lookups_app (h1 h2 : list event) :
  facts_lookups (h1 ++ h2) = facts_lookups h1 ++ facts_lookups h2.
Proof.
  induction h1 as [| e h1 IH]; simpl; [reflexivity |].
  destruct e; simpl; rewrite ?IH; reflexivity.
Qed.

Lemma imagery_requested_app (h1 h2 : list event) :
  imagery_requested (h1 ++ h2) = imagery_requested h1 || imagery_requested h2.
Proof. apply existsb_app. Qed.

(** ** The dictionary *)

Lemma own_entry_In (k v : string) (d : list (string * string)) :
  own_entry k d = Some v -> In (k, v) d.
Proof.
  induction d as [| [k' v'] d IH]; simpl; [discriminate |].
  destruct (String.eqb_spec k k') as [-> | _].
  - intros [= ->]. now left.
  - intros E. right. now apply IH.
Qed.

(** No translation is the empty string, so [placeNameDict[place]] is truthy
    for every key of the literal. *)
Lemma placeNameDict_truthy (place t : string) :
  own_entry place placeNameDict = Some t -> truthy_string t = true.
Proof.
  intros E. apply own_entry_In in E.
  assert (A : Forall (fun kv => truthy_string (snd kv) = true) placeNameDict)
    by (repeat constructor).
  rewrite Forall_forall in A. apply (A _ E).
Qed.

Lemma getSearchTerm_entry (place t : string) (lang : Lang) :
  own_entry place placeNameDict = Some t ->
  getSearchTerm place lang = match lang with ja => Text t | en => Text place end.
Proof.
  intros E. unfold getSearchTerm, placeNameDict_get. rewrite E.
  destruct lang; [| reflexivity].
  cbn [truthy_term]. now rewrite (placeNameDict_truthy place t E).
Qed.

Lemma getSearchTerm_absent (place : string) (lang : Lang) :
  placeNameDict_get place = None -> getSearchTerm place lang = Text place.
Proof.
  intros E. unfold getSearchTerm. rewrite E. now destruct lang.
Qed.

Lemma differs_same (place : string) : differs (Text place) place = false.
Proof. simpl. now rewrite String.eqb_refl. Qed.

(** ** One search call: [wikiSearchTitle] *)

Lemma prefix_refl (s : string) : String.prefix s s = true.
Proof.
  induction s as [| c s IH]; simpl; [reflexivity |].
  now destruct (ascii_dec c c).
Qed.

Lemma includes_refl (s : string) : includes s s = true.
Proof.
  destruct s as [| c s]; simpl; [reflexivity |].
  destruct (ascii_dec c c); [| congruence].
  now rewrite prefix_refl.
Qed.

Lemma find_pointwise {A : Type} (f g : A -> bool) (l : list A) :
  (forall x, f x = g x) -> find f l = find g l.
Proof.
  intros E. induction l as [| a l IH]; simpl; [reflexivity |].
  now rewrite E, IH.
Qed.

Section SelectFacts.

Variable toLowerCase : string -> string.

(** A title that equals the query contains it: the predicate of [find] is
    containment, and an exact match has no precedence of its own. *)
Lemma titleMatches_contains (q title : string) :
  titleMatches toLowerCase q title = containsQuery toLowerCase q title.
Proof.
  unfold titleMatches, containsQuery.
  destruct (String.eqb_spec (toLowerCase title) (toLowerCase q)) as [-> | _];
    [| reflexivity].
  now rewrite includes_refl.
Qed.

(** What a search call selects: the first title that contains the query,
    else the top-ranked one. *)
Lemma selectTitle_first_containing (q : string) (results : list string) :
  selectTitle toLowerCase q results
  = or_else (find (containsQuery toLowerCase q) results) (hd_error results).
Proof.
  unfold selectTitle. f_equal. apply find_pointwise.
  intros t. apply titleMatches_contains.
Qed.

(** The selection is [undefined] exactly for the empty list. *)
Lemma selectTitle_none (q : string) (results : list string) :
  selectTitle toLowerCase q results = None <-> results = [].
Proof.
  unfold selectTitle, or_else. split.
  - destruct results as [| t ts]; [reflexivity |].
    destruct (truthy_opt (find (titleMatches toLowerCase q) (t :: ts))) eqn:T.
    + intros E. rewrite E in T. discriminate.
    + discriminate.
  - now intros ->.
Qed.

(** Where the stated order and the code agree: no title contains the query,
    or the first title that contains it also equals it. *)
Lemma selectTitle_stated_agrees (q : string) (results : list string) :
  find (containsQuery toLowerCase q) results
  = find (exactTitle toLowerCase q) results ->
  Forall (fun t => truthy_string t = true) results ->
  selectTitle toLowerCase q results = selectTitle_stated toLowerCase q results.
Proof.
  intros Same Named. rewrite selectTitle_first_containing.
  unfold selectTitle_stated, or_else. rewrite <- Same.
  destruct (find (containsQuery toLowerCase q) results) as [t |] eqn:F;
    [| reflexivity].
  apply find_some in F as [In _].
  rewrite Forall_forall in Named. cbn [truthy_opt]. now rewrite (Named t In).
Qed.

End SelectFacts.

(** C2 (the code departs from the claim): with the query "Tokyo" and the
    ranked results "Tokyo Tower", "Tokyo", the search call returns
    "Tokyo Tower", the first title that contains the query, although the
    second result is a case-insensitive exact match; the order of preference
    the claim states selects "Tokyo". *)
Theorem later_exact_match_is_passed_over :
  selectTitle ascii_toLowerCase "Tokyo" ["Tokyo Tower"; "Tokyo"]
  = Some "Tokyo Tower"
  /\ selectTitle_stated ascii_toLowerCase "Tokyo" ["Tokyo Tower"; "Tokyo"]
     = Some "Tokyo"
  /\ result (run towerWorld (wikiSearchTitle ascii_toLowerCase (Text "Tokyo") en)
               idle [])
     = Returned (Some "Tokyo Tower").
Proof.
  split; [| split].
  - rewrite selectTitle_first_containing. reflexivity.
  - reflexivity.
  - reflexivity.
Qed.

(** ** The fallback chain: [placeSearchResolver] *)

Section ResolverFacts.

Variable toLowerCase : string -> string.
Variable Number : string -> float.
Variable w : World.

(** A search call adds its one search to the history and leaves the state
    alone; an empty reply makes it return [undefined]. *)
Lemma wikiSearchTitle_run (q : searchTerm) (l : Lang) (st : State) (h : list event) :
  exists out,
    run w (wikiSearchTitle toLowerCase q l) st h = (st, h ++ [Searched q l], out)
    /\ (emptyResults (search_api w h q l) = true -> out = Returned None).
Proof.
  unfold wikiSearchTitle; simpl.
  destruct (search_api w h q l) as [msg | code | [[| t ts] |]]; simpl;
    try (destruct q); simpl; eexists;
    (split; [reflexivity | intros E; try discriminate; reflexivity]).
Qed.

Lemma wikiSearchTitle_empty (q : searchTerm) (l : Lang) (st : State) (h : list event) :
  emptyResults (search_api w h q l) = true ->
  run w (wikiSearchTitle toLowerCase q l) st h
  = (st, h ++ [Searched q l], Returned None).
Proof.
  intros E. destruct (wikiSearchTitle_run q l st h) as [out [R O]].
  rewrite R, (O E). reflexivity.
Qed.

Ltac resolver_step :=
  first
    [ rewrite run_bind
    | match goal with
      | H : truthy_opt ?t = _ |- context [truthy_opt ?t] => rewrite H
      | |- context [run w (wikiSearchTitle toLowerCase ?q ?l) ?s ?hh] =>
          let o := fresh "o" in
          let R := fresh "R" in
          destruct (wikiSearchTitle_run q l s hh) as [o [R _]];
          rewrite R; clear R; destruct o as [? | ?]
      | |- context [truthy_opt ?t] => destruct (truthy_opt t) eqn:?
      | |- context [differs ?t ?p] => destruct (differs t p) eqn:?
      end
    | progress cbn [andThen run negb andb] ].

(** The resolver leaves the state alone and only searches: an initial part
    of its stages, in their order, and all of them when it returns
    [undefined]. *)
Lemma placeSearchResolver_run (place : string) (lang : Lang)
  (st : State) (h : list event) :
  exists h' out,
    run w (placeSearchResolver toLowerCase place lang) st h = (st, h ++ h', out)
    /\ coord_lookups h' = []
    /\ facts_lookups h' = []
    /\ imagery_requested h' = false
    /\ (exists n, searches h' = firstn (S n) (stages place lang))
    /\ (forall t, out = Returned t -> truthy_opt t = false ->
        searches h' = stages place lang).
Proof.
  unfold placeSearchResolver, stages.
  set (term := getSearchTerm place lang). clearbody term.
  destruct lang; cbn [Lang_eqb negb altLang];
    repeat resolver_step;
    rewrite <- ?app_assoc; do 2 eexists; (split; [reflexivity |]);
    cbn;
    do 3 (split; [reflexivity |]);
    (split;
     [ first [ now exists 0 | now exists 1 | now exists 2 | now exists 3 ]
     | intros t' E F; congruence ]).
Qed.

(** The chain stops at the first search that yields a candidate. *)
Lemma first_candidate_ends_search (place : string) (lang : Lang)
  (st : State) (h : list event) (t : option string) :
  result (run w (wikiSearchTitle toLowerCase (getSearchTerm place lang) lang) st h)
  = Returned t ->
  truthy_opt t = true ->
  run w (placeSearchResolver toLowerCase place lang) st h
  = (st, h ++ [Searched (getSearchTerm place lang) lang], Returned t).
Proof.
  intros Answer Truthy. unfold placeSearchResolver.
  destruct (wikiSearchTitle_run (getSearchTerm place lang) lang st h) as [out [R _]].
  rewrite R in Answer. cbn in Answer. subst out.
  rewrite run_bind, R. cbn [andThen]. rewrite run_bind, Truthy.
  cbn [negb andb run andThen]. rewrite run_bind, Truthy.
  cbn [negb andb run andThen]. rewrite run_bind, Truthy.
  reflexivity.
Qed.

(** The first search of [onGenerate] is made with [getSearchTerm(place,
    lang)] in the requested language. *)
Lemma onGenerate_firstSearch (place : string) (lang : Lang) (st : State) :
  firstSearch (history (run w (onGenerate toLowerCase Number place lang) st []))
  = Some (getSearchTerm place lang, lang).
Proof.
  unfold onGenerate, placeSearchResolver, wikiSearchTitle.
  cbn [try_catch setStatus bind run app].
  match goal with
  | |- context [run w ?p ?s ?h] => destruct (run_extends w p s h) as [h' E]
  end.
  unfold firstSearch. rewrite E, searches_app. reflexivity.
Qed.

(** C3 (amended): for a query whose text is a key of the dictionary, the
    first search is made in the requested language, with the translated
    term when the requested language is [ja] and with the text as typed
    when it is [en]. *)
Theorem dictionary_entry_first_search
  (place t : string) (lang : Lang) (st : State) :
  own_entry place placeNameDict = Some t ->
  firstSearch (history (run w (onGenerate toLowerCase Number place lang) st []))
  = Some (match lang with ja => Text t | en => Text place end, lang).
Proof.
  intros E. rewrite onGenerate_firstSearch.
  now rewrite (getSearchTerm_entry place t lang E).
Qed.

End ResolverFacts.

(** The hypothesis of C3 holds for the key 大阪, searched as "Osaka" when
    [ja] is requested. *)
Lemma dictionary_entry_first_search_witness :
  firstSearch (history (run silentWorld
                 (onGenerate ascii_toLowerCase sampleNumber "大阪" ja) idle []))
  = Some (Text "Osaka", ja).
Proof.
  apply (dictionary_entry_first_search ascii_toLowerCase sampleNumber
           silentWorld "大阪" "Osaka" ja idle).
  reflexivity.
Defined.

(** C3 as stated fails for [en]: 大阪 is a key of the dictionary, and with
    [en] requested the first search is made with 大阪, not with "Osaka". *)
Lemma english_request_searches_untranslated :
  own_entry "大阪" placeNameDict = Some "Osaka"
  /\ firstSearch (history (run silentWorld
                    (onGenerate ascii_toLowerCase sampleNumber "大阪" en) idle []))
     = Some (Text "大阪", en)
  /\ firstSearch (history (run silentWorld
                    (onGenerate ascii_toLowerCase sampleNumber "大阪" en) idle []))
     <> Some (Text "Osaka", en).
Proof.
  split; [reflexivity |]. split; [reflexivity |].
  vm_compute. discriminate.
Qed.

(** ** The fallback chain, for every search source *)

(** What the dictionary lookup finds is truthy and is not the text itself
    (no key of the dictionary is its own translation, and an inherited
    member is an object). *)
Lemma placeNameDict_get_found (place : string) (term : searchTerm) :
  placeNameDict_get place = Some term ->
  truthy_term term = true /\ differs term place = true.
Proof.
  unfold placeNameDict_get.
  destruct (own_entry place placeNameDict) as [t |] eqn:E.
  - intros [= <-]. split.
    + cbn [truthy_term]. apply (placeNameDict_truthy place t E).
    + apply own_entry_In in E.
      assert (A : Forall (fun kv => differs (Text (snd kv)) (fst kv) = true) placeNameDict)
        by (repeat constructor).
      rewrite Forall_forall in A. apply (A _ E).
  - destruct (existsb (String.eqb place) objectPrototypeKeys); [| discriminate].
    intros [= <-]. split; reflexivity.
Qed.

Section FallbackFacts.

Variable toLowerCase : string -> string.
Variable Number : string -> float.
Variable w : World.

Ltac chain_step :=
  first
    [ progress cbn [andThen run negb andb firstCandidate bind]
    | rewrite run_bind
    | match goal with
      | H : truthy_opt ?t = _ |- context [truthy_opt ?t] => rewrite H
      end
    | match goal with
      | |- context [truthy_opt ?t] => destruct (truthy_opt t) eqn:?
      end
    | match goal with
      | |- context [run w (wikiSearchTitle toLowerCase ?q ?l) ?s ?hh] =>
          let o := fresh "o" in
          let R := fresh "R" in
          destruct (wikiSearchTitle_run toLowerCase w q l s hh) as [o [R _]];
          rewrite R; clear R; destruct o as [? | ?]
      end ].

(** Whatever the search source answers, the resolver runs as the chain of
    its searches does: one search after another, up to the first
    candidate. *)
Lemma placeSearchResolver_chain (place : string) (lang : Lang)
  (st : State) (h : list event) :
  run w (placeSearchResolver toLowerCase place lang) st h
  = run w (firstCandidate toLowerCase (chainOf place lang)) st h.
Proof.
  unfold placeSearchResolver, chainOf, getSearchTerm.
  destruct lang; cbn [Lang_eqb negb altLang].
  - destruct (placeNameDict_get place) as [term |] eqn:G.
    + destruct (placeNameDict_get_found place term G) as [T D].
      rewrite T, D. cbn [firstCandidate].
      repeat chain_step; reflexivity.
    + rewrite differs_same. cbn [firstCandidate].
      repeat chain_step; reflexivity.
  - rewrite differs_same.
    destruct (placeNameDict_get place); cbn [firstCandidate];
      repeat chain_step; reflexivity.
Qed.

(** A chain whose searches all come back empty makes every one of them. *)
Lemma firstCandidate_empty (chain : list (searchTerm * Lang)) (st : State)
  (h : list event) :
  (forall h q l, emptyResults (search_api w h q l) = true) ->
  chain <> [] ->
  run w (firstCandidate toLowerCase chain) st h
  = (st, h ++ map searched chain, Returned None).
Proof.
  intros Empty. revert h. induction chain as [| [q l] rest IH]; intros h NE;
    [congruence |].
  cbn [firstCandidate]. rewrite run_bind, wikiSearchTitle_empty by apply Empty.
  cbn [andThen map searched fst snd].
  destruct rest as [| s rest'].
  - reflexivity.
  - cbn [truthy_opt]. rewrite IH by discriminate.
    now rewrite <- app_assoc.
Qed.

(** C1: whatever the search source answers, the resolver makes the
    searches of its stages one after another, in the order of the claim,
    and stops at the first stage that yields a candidate: it runs as
    [firstCandidate] runs on the list of its searches.  That list is, for a
    text with a translation and [ja] requested, the translated term in
    [ja], the text in [ja], the translated term in [en], the text in [en];
    for a text absent from the dictionary it is the text in [ja], in [en]
    and in [en] again when [ja] is requested, and the text in [en], then in
    [ja], when [en] is requested.  For a text absent from the dictionary
    the stages of the claim are this list with its first search named
    twice (there being no translation, stage 1 and stage 2 ask for one and
    the same search, which is made once); when every search comes back
    empty the resolver returns [undefined] after all the searches of the
    list, so after the search of every stage of the claim, and [onGenerate]
    reports that no page was found. *)
Theorem absent_query_exhausts_stages (place : string) (lang : Lang)
  (st : State) (h : list event) :
  let chain :=
    match lang, placeNameDict_get place with
    | ja, Some term =>
        [(term, ja); (Text place, ja); (term, en); (Text place, en)]
    | ja, None => [(Text place, ja); (Text place, en); (Text place, en)]
    | en, _ => [(Text place, en); (Text place, ja)]
    end in
  run w (placeSearchResolver toLowerCase place lang) st h
  = run w (firstCandidate toLowerCase chain) st h
  /\ (placeNameDict_get place = None ->
      stages_stated place lang = (Text place, lang) :: chain
      /\ ((forall h q l, emptyResults (search_api w h q l) = true) ->
          run w (placeSearchResolver toLowerCase place lang) st h
          = (st, h ++ map searched chain, Returned None)
          /\ incl (stages_stated place lang) chain
          /\ run w (onGenerate toLowerCase Number place lang) st []
             = (with_status statusNotFound st,
                [StatusSet statusSearching] ++ map searched chain
                  ++ [StatusSet statusNotFound],
                Returned tt))).
Proof.
  cbv zeta. split; [apply placeSearchResolver_chain |].
  intros Absent.
  assert (Stated : stages_stated place lang
                   = (Text place, lang)
                       :: match lang with
                          | ja => [(Text place, ja); (Text place, en); (Text place, en)]
                          | en => [(Text place, en); (Text place, ja)]
                          end).
  { unfold stages_stated. rewrite (getSearchTerm_absent place lang Absent).
    now destruct lang. }
  rewrite Absent.
  assert (Same : match lang with
                 | ja => [(Text place, ja); (Text place, en); (Text place, en)]
                 | en => [(Text place, en); (Text place, ja)]
                 end
                 = chainOf place lang)
    by (unfold chainOf; rewrite Absent; now destruct lang).
  split; [now destruct lang |].
  intros Empty.
  assert (Run : forall st h,
            run w (placeSearchResolver toLowerCase place lang) st h
            = (st, h ++ map searched (chainOf place lang), Returned None)).
  { intros st' h'. rewrite placeSearchResolver_chain.
    apply firstCandidate_empty; [exact Empty |].
    rewrite <- Same. destruct lang; discriminate. }
  assert (Goal3 : run w (onGenerate toLowerCase Number place lang) st []
             = (with_status statusNotFound st,
                [StatusSet statusSearching] ++ map searched (chainOf place lang)
                  ++ [StatusSet statusNotFound],
                Returned tt)).
  { unfold onGenerate. rewrite run_try_catch. cbn [setStatus bind run app].
    rewrite run_bind, Run. cbn [andThen setStatus run orCatch].
    now rewrite <- app_assoc. }
  rewrite <- Same in Run, Goal3.
  split; [apply Run |]. split; [| exact Goal3].
  rewrite Stated. intros x [<- | In]; [| exact In].
  destruct lang; now left.
Qed.

End FallbackFacts.

(** C1 at work for "Atlantis", which the dictionary does not hold.  Where
    only the English search knows it, the chain stops at its second search
    with that candidate; where every search is empty, the three searches
    are made, and [onGenerate] reports that no page was found. *)
Lemma absent_query_exhausts_stages_witness :
  run englishOnlyWorld (placeSearchResolver ascii_toLowerCase "Atlantis" ja) idle []
  = (idle,
     [Searched (Text "Atlantis") ja; Searched (Text "Atlantis") en],
     Returned (Some "Atlantis"))
  /\ run silentWorld (placeSearchResolver ascii_toLowerCase "Atlantis" ja) idle []
     = (idle,
        [Searched (Text "Atlantis") ja; Searched (Text "Atlantis") en;
         Searched (Text "Atlantis") en],
        Returned None)
  /\ run silentWorld (onGenerate ascii_toLowerCase sampleNumber "Atlantis" ja) idle []
     = (with_status statusNotFound idle,
        [StatusSet statusSearching; Searched (Text "Atlantis") ja;
         Searched (Text "Atlantis") en; Searched (Text "Atlantis") en;
         StatusSet statusNotFound],
        Returned tt).
Proof.
  split.
  - rewrite (proj1 (absent_query_exhausts_stages ascii_toLowerCase sampleNumber
                      englishOnlyWorld "Atlantis" ja idle [])).
    reflexivity.
  - destruct (proj2 (absent_query_exhausts_stages ascii_toLowerCase sampleNumber
                       silentWorld "Atlantis" ja idle []) eq_refl) as [_ E].
    destruct (E (fun _ _ _ => eq_refl)) as (A & _ & B).
    split; [exact A | exact B].
Defined.

(** ** Coordinates and facts: [coordinateFactResolver] *)

Ltac split_fetch :=
  match goal with
  | |- context [match coord_api ?w ?h ?q ?l with _ => _ end] =>
      let pg := fresh "pg" in
      destruct (coord_api w h q l) as [? | [pg |]];
      [ | destruct pg as [[[? ?] |] [? |]] | ]
  | |- context [match facts_api ?w ?h ?q ?l with _ => _ end] =>
      destruct (facts_api w h q l) as [? | [? |]]
  | |- context [truthy_string ?t] => destruct (truthy_string t) eqn:?
  end.

Section CoordinateFacts.

Variable toLowerCase : string -> string.
Variable Number : string -> float.
Variable w : World.

(** Once the resolver has found a title, [onGenerate] is the coordinate
    block run under the [catch]; the searches before it made no lookup and
    touched neither the center nor the facts. *)
Lemma onGenerate_resolved (place : string) (lang : Lang) (st st1 : State)
  (h1 : list event) (title : string) :
  run w (placeSearchResolver toLowerCase place lang)
    (with_status statusSearching st) [StatusSet statusSearching]
  = (st1, h1, Returned (Some title)) ->
  truthy_string title = true ->
  run w (onGenerate toLowerCase Number place lang) st []
  = orCatch w (run w (coordinateFactResolver Number title lang)
                 (with_status statusSearching st) h1)
      (fun msg => setStatus (statusFailed msg))
  /\ coord_lookups h1 = [] /\ facts_lookups h1 = [] /\ imagery_requested h1 = false.
Proof.
  intros Found Truthy.
  destruct (placeSearchResolver_run toLowerCase w place lang
              (with_status statusSearching st) [StatusSet statusSearching])
    as (h' & out & R & C & F & I & _).
  rewrite R in Found. injection Found as E1 E2 E3. subst st1 h1 out.
  split.
  - unfold onGenerate. rewrite run_try_catch. cbn [setStatus bind run app].
    rewrite run_bind, R. cbn [andThen]. now rewrite Truthy.
  - unfold imagery_requested in *. simpl. rewrite C, F, I. repeat split.
Qed.

(** C4: once a candidate title is resolved, the coordinates are looked up
    for that title in the requested language; when that reply carries no
    coordinates and the requested language is not [en], the same title is
    looked up once more, in [en], and no third time.  When coordinates come
    back in neither language, [onGenerate] sets the status "coordinates
    could not be obtained" and returns: no fact lookup is made, the center
    and the facts stay as they were, and no setter ran that could make the
    snapshot effect build an imagery request. *)
Theorem coordinates_unavailable_halts (place : string) (lang : Lang)
  (st st1 : State) (h1 : list event) (title : string) :
  run w (placeSearchResolver toLowerCase place lang)
    (with_status statusSearching st) [StatusSet statusSearching]
  = (st1, h1, Returned (Some title)) ->
  truthy_string title = true ->
  let r := run w (onGenerate toLowerCase Number place lang) st [] in
  let first := coord_api w (h1 ++ [StatusSet statusLocating]) title lang in
  coord_lookups (history r)
  = (title, lang)
      :: (if noCoordinates first && negb (Lang_eqb lang en)
          then [(title, en)] else [])
  /\ ((forall h l, noCoordinates (coord_api w h title l) = true) ->
      history r
      = h1 ++ [StatusSet statusLocating; CoordLookup title lang]
           ++ (if Lang_eqb lang en then [] else [CoordLookup title en])
           ++ [StatusSet statusNoCoordinates]
      /\ status (finalState r) = statusNoCoordinates
      /\ center (finalState r) = center st
      /\ facts (finalState r) = facts st
      /\ facts_lookups (history r) = []
      /\ imagery_requested (history r) = false
      /\ result r = Returned tt).
Proof.
  intros Found Truthy r first.
  destruct (onGenerate_resolved place lang st st1 h1 title Found Truthy)
    as (R & C & F & I).
  subst r first. rewrite R. clear R Found.
  unfold coordinateFactResolver, useCoordinates, wikiTitleToCoordAndQid, wikidataFacts.
  split.
  - unfold history.
    destruct lang; cbn [Lang_eqb negb setStatus setCenter setFacts bind run orCatch];
      repeat (split_fetch;
              cbn [noCoordinates coordinates wikibase_item bind run orCatch fst snd
                   qid lat lon andb setStatus setCenter setFacts]);
      rewrite ?coord_lookups_app, ?app_nil_r; rewrite C; reflexivity.
  - intros Nowhere.
    destruct lang; cbn [Lang_eqb negb setStatus bind run orCatch].
    + pose proof (Nowhere (h1 ++ [StatusSet statusLocating]) ja) as N1.
      destruct (coord_api w (h1 ++ [StatusSet statusLocating]) title ja)
        as [? | [[[[? ?] |] ?] |]]; try discriminate N1;
        cbn [coordinates bind run orCatch];
        match goal with |- context [coord_api w ?h title en] =>
          pose proof (Nowhere h en) as N2;
          destruct (coord_api w h title en) as [? | [[[[? ?] |] ?] |]]
        end; try discriminate N2;
        cbn [coordinates setStatus bind run orCatch history finalState result
             fst snd with_status status center facts];
        rewrite <- ?app_assoc; cbn [app];
        rewrite ?facts_lookups_app, ?imagery_requested_app, ?app_nil_r,
          ?orb_false_r;
        rewrite ?F, ?I; repeat split.
    + pose proof (Nowhere (h1 ++ [StatusSet statusLocating]) en) as N1.
      destruct (coord_api w (h1 ++ [StatusSet statusLocating]) title en)
        as [? | [[[[? ?] |] ?] |]]; try discriminate N1;
        cbn [coordinates setStatus bind run orCatch history finalState result
             fst snd with_status status center facts];
        rewrite <- ?app_assoc; cbn [app];
        rewrite ?facts_lookups_app, ?imagery_requested_app, ?app_nil_r,
          ?orb_false_r;
        rewrite ?F, ?I; repeat split.
Qed.

(** What [useCoordinates] does to the facts: without an item identifier it
    makes no lookup and leaves them as they were; with one, a lookup that
    answers replaces them as a whole by what the row holds, and a lookup
    that is rejected throws past [setFacts]. *)
Lemma useCoordinates_facts (c : CoordQ) (lang : Lang) (st : State) (h : list event) :
  let r := run w (useCoordinates Number c lang) st h in
  center (finalState r) = Some (lat c, lon c)
  /\ match qid c with
     | Some id =>
         if truthy_string id then
           match facts_api w (h ++ [CenterSet (lat c, lon c);
                                    StatusSet statusFetchingFacts]) id lang with
           | FactsRejected msg =>
               facts (finalState r) = facts st /\ result r = Thrown msg
           | FactsJson None => facts (finalState r) = noFacts
           | FactsJson (Some b) =>
               facts (finalState r)
               = {| label := itemLabel b;
                    country := countryLabel b;
                    population := num Number (population_value b);
                    elev := num Number (elev_value b) |}
           end
         else facts (finalState r) = facts st /\ facts_lookups (history r) = facts_lookups h
     | None => facts (finalState r) = facts st /\ facts_lookups (history r) = facts_lookups h
     end.
Proof.
  unfold useCoordinates, wikidataFacts, finalState, history, result.
  cbn [setCenter setStatus setFacts bind run fst snd].
  destruct (qid c) as [id |].
  - destruct (truthy_string id); cbn [setStatus setFacts bind run fst snd].
    + rewrite <- app_assoc. cbn [app].
      destruct (facts_api w _ id lang) as [msg | [b |]];
        cbn [bind run fst snd]; repeat split.
    + rewrite facts_lookups_app, app_nil_r. repeat split.
  - cbn [run fst snd]. rewrite facts_lookups_app, app_nil_r. repeat split.
Qed.

End CoordinateFacts.

(** The hypotheses of C4 hold where "Atlantis" is found and has
    coordinates in no language: both lookups are made, and the state the
    Tokyo query left is untouched but for the status. *)
Lemma coordinates_unavailable_halts_witness :
  let r := run unchartedWorld
             (onGenerate ascii_toLowerCase sampleNumber "Atlantis" ja) afterTokyo [] in
  history r
  = [StatusSet statusSearching; Searched (Text "Atlantis") ja;
     StatusSet statusLocating; CoordLookup "Atlantis" ja;
     CoordLookup "Atlantis" en; StatusSet statusNoCoordinates]
  /\ status (finalState r) = statusNoCoordinates
  /\ center (finalState r) = Some (35.5, 139.75)%float
  /\ facts (finalState r) = tokyoFacts
  /\ facts_lookups (history r) = []
  /\ imagery_requested (history r) = false
  /\ result r = Returned tt.
Proof.
  refine (proj2 (coordinates_unavailable_halts ascii_toLowerCase sampleNumber
                   unchartedWorld "Atlantis" ja afterTokyo
                   (with_status statusSearching afterTokyo)
                   [StatusSet statusSearching; Searched (Text "Atlantis") ja]
                   "Atlantis" _ _) _).
  - reflexivity.
  - reflexivity.
  - intros h l. reflexivity.
Defined.

(** C5 (the code departs from the claim): after a query for Tokyo, a query
    for a page that has coordinates and no Wikidata item moves the center
    and makes no fact lookup, and [setFacts] is never called: the facts of
    Tokyo stay in the state, where the claim has an empty fact set. *)
Theorem facts_of_previous_query_survive :
  let r := run islandWorld
             (onGenerate ascii_toLowerCase sampleNumber "Null Island" en)
             afterTokyo [] in
  result r = Returned tt
  /\ status (finalState r) = ""
  /\ center (finalState r) = Some (0, 0)%float
  /\ facts_lookups (history r) = []
  /\ facts (finalState r) = tokyoFacts
  /\ facts (finalState r) <> noFacts.
Proof.
  cbv zeta. do 5 (split; [reflexivity |]).
  vm_compute. discriminate.
Qed.

(** ** Binary64 arithmetic: powers of two *)

Section BpowFacts.

Import Binary64.

Local Open Scope R_scope.

Lemma bpow_pos (e : Z) : 0 < bpow e.
Proof. apply powerRZ_lt. lra. Qed.

Lemma bpow_add (a b : Z) : bpow (a + b) = bpow a * bpow b.
Proof. apply powerRZ_add. lra. Qed.

Lemma bpow_0 : bpow 0 = 1.
Proof. reflexivity. Qed.

Lemma bpow_1 : bpow 1 = 2.
Proof. unfold bpow. simpl. lra. Qed.

Lemma bpow_succ (e : Z) : bpow (e + 1) = 2 * bpow e.
Proof. rewrite bpow_add, bpow_1. lra. Qed.

Lemma bpow_nonneg (n : Z) : (0 <= n)%Z -> bpow n = IZR (2 ^ n).
Proof.
  intros H. pattern n. apply natlike_ind; [reflexivity | | exact H].
  intros x Hx IH. unfold Z.succ.
  rewrite bpow_succ, IH, Z.pow_add_r by lia.
  rewrite mult_IZR. change (2 ^ 1)%Z with 2%Z. lra.
Qed.

Lemma bpow_ge_1 (n : Z) : (0 <= n)%Z -> 1 <= bpow n.
Proof.
  intros H. rewrite bpow_nonneg by exact H.
  apply IZR_le. pose proof (Z.pow_pos_nonneg 2 n). lia.
Qed.

Lemma bpow_le (a b : Z) : (a <= b)%Z -> bpow a <= bpow b.
Proof.
  intros H. replace b with (a + (b - a))%Z by lia. rewrite bpow_add.
  pose proof (bpow_pos a). pose proof (bpow_ge_1 (b - a) ltac:(lia)). nra.
Qed.

Lemma bpow_lt (a b : Z) : (a < b)%Z -> bpow a < bpow b.
Proof.
  intros H. replace b with (a + 1 + (b - a - 1))%Z by lia.
  rewrite bpow_add, bpow_succ.
  pose proof (bpow_pos a). pose proof (bpow_ge_1 (b - a - 1) ltac:(lia)). nra.
Qed.

Lemma bpow_lt_inv (a b : Z) : bpow a < bpow b -> (a < b)%Z.
Proof.
  intros H. destruct (Z_lt_le_dec a b) as [L | G]; [exact L |].
  apply bpow_le in G. lra.
Qed.

Lemma bpow_le_inv (a b : Z) : bpow a <= bpow b -> (a <= b)%Z.
Proof.
  intros H. destruct (Z_le_gt_dec a b) as [L | G]; [exact L |].
  apply Z.gt_lt, bpow_lt in G. lra.
Qed.

End BpowFacts.

(** ** Binary64 arithmetic: the shifts of the rounding *)

Section ShiftFacts.

Import Binary64.

Local Open Scope R_scope.

Lemma digits2_pos_bounds (p : positive) :
  (2 ^ (Zpos (digits2_pos p) - 1) <= Zpos p < 2 ^ Zpos (digits2_pos p))%Z.
Proof.
  induction p as [p IH | p IH |]; cbn [digits2_pos].
  - rewrite Pos2Z.inj_succ.
    replace (Z.succ (Zpos (digits2_pos p)) - 1)%Z with (Zpos (digits2_pos p) - 1 + 1)%Z by lia.
    rewrite Z.pow_succ_r, Z.pow_add_r by lia. change (2 ^ 1)%Z with 2%Z. lia.
  - rewrite Pos2Z.inj_succ.
    replace (Z.succ (Zpos (digits2_pos p)) - 1)%Z with (Zpos (digits2_pos p) - 1 + 1)%Z by lia.
    rewrite Z.pow_succ_r, Z.pow_add_r by lia. change (2 ^ 1)%Z with 2%Z. lia.
  - cbn. lia.
Qed.

Lemma located_range (v : R) (m e : Z) (l : location) :
  located v m e l -> IZR m * bpow e <= v < (IZR m + 1) * bpow e.
Proof.
  pose proof (bpow_pos e) as P.
  destruct l as [| []]; cbn [located]; intros H; nra.
Qed.

Lemma loc_of_shr_record_of_loc (m : Z) (l : location) :
  loc_of_shr_record (shr_record_of_loc m l) = l.
Proof. now destruct l as [| []]. Qed.

Lemma shr_m_of_loc (m : Z) (l : location) : shr_m (shr_record_of_loc m l) = m.
Proof. now destruct l as [| []]. Qed.

(** One step of the right shift keeps the value located. *)
Lemma shr_1_located (v : R) (e : Z) (mrs : shr_record) :
  (0 <= shr_m mrs)%Z ->
  located v (shr_m mrs) e (loc_of_shr_record mrs) ->
  (0 <= shr_m (shr_1 mrs))%Z
  /\ located v (shr_m (shr_1 mrs)) (e + 1) (loc_of_shr_record (shr_1 mrs)).
Proof.
  destruct mrs as [m r s]. cbn [shr_m]. intros Pos L.
  pose proof (bpow_pos e) as P. pose proof (bpow_succ e) as S.
  destruct m as [| [p | p |] |]; [| | | | lia];
    destruct r, s; cbn [shr_1 shr_m loc_of_shr_record orb located] in L |- *;
    (split; [lia |]); rewrite S;
    try rewrite (Pos2Z.inj_xI p) in L; try rewrite (Pos2Z.inj_xO p) in L;
    rewrite ?plus_IZR, ?mult_IZR in L; lra.
Qed.

End ShiftFacts.

(** ** Binary64 arithmetic: rounding to nearest is monotone *)

Section RoundFacts.

Import Binary64.

Local Open Scope R_scope.

Lemma iter_shr_1_located (v : R) (p : positive) :
  forall (e : Z) (mrs : shr_record),
    (0 <= shr_m mrs)%Z ->
    located v (shr_m mrs) e (loc_of_shr_record mrs) ->
    (0 <= shr_m (iter_pos shr_1 p mrs))%Z
    /\ located v (shr_m (iter_pos shr_1 p mrs)) (e + Zpos p)
         (loc_of_shr_record (iter_pos shr_1 p mrs)).
Proof.
  induction p as [p IH | p IH |]; intros e mrs Pos L; cbn [iter_pos].
  - destruct (shr_1_located v e mrs Pos L) as [P1 L1].
    destruct (IH _ _ P1 L1) as [P2 L2].
    destruct (IH _ _ P2 L2) as [P3 L3].
    split; [exact P3 |].
    replace (e + Zpos p~1)%Z with (e + 1 + Zpos p + Zpos p)%Z by lia. exact L3.
  - destruct (IH _ _ Pos L) as [P2 L2].
    destruct (IH _ _ P2 L2) as [P3 L3].
    split; [exact P3 |].
    replace (e + Zpos p~0)%Z with (e + Zpos p + Zpos p)%Z by lia. exact L3.
  - apply (shr_1_located v e mrs Pos L).
Qed.

(** The right shift by [n] places keeps the value located. *)
Lemma shr_located (v : R) (m e n : Z) (l : location) :
  (0 <= m)%Z -> located v m e l ->
  (0 <= shr_m (fst (shr (shr_record_of_loc m l) e n)))%Z
  /\ snd (shr (shr_record_of_loc m l) e n) = (e + Z.max n 0)%Z
  /\ located v (shr_m (fst (shr (shr_record_of_loc m l) e n)))
       (e + Z.max n 0)
       (loc_of_shr_record (fst (shr (shr_record_of_loc m l) e n))).
Proof.
  intros Pos L.
  assert (L0 : located v (shr_m (shr_record_of_loc m l)) e
                 (loc_of_shr_record (shr_record_of_loc m l)))
    by (now rewrite shr_m_of_loc, loc_of_shr_record_of_loc).
  assert (P0 : (0 <= shr_m (shr_record_of_loc m l))%Z) by (now rewrite shr_m_of_loc).
  destruct n as [| p | p]; cbn [shr fst snd].
  - replace (e + Z.max 0 0)%Z with e by lia. now split; [| split].
  - replace (e + Z.max (Zpos p) 0)%Z with (e + Zpos p)%Z by lia.
    destruct (iter_shr_1_located v p e _ P0 L0) as [P1 L1].
    now split; [| split].
  - replace (e + Z.max (Zneg p) 0)%Z with e by lia. now split; [| split].
Qed.

Lemma round_nearest_even_range (m : Z) (l : location) :
  (m <= round_nearest_even m l <= m + 1)%Z.
Proof.
  destruct l as [| []]; cbn [round_nearest_even]; try lia.
  destruct (Z.even m); lia.
Qed.

Lemma Rmult_lt_cancel (a b x : R) : 0 < x -> a * x < b * x -> a < b.
Proof. intros P H. apply (Rmult_lt_reg_r x); assumption. Qed.

Lemma Rmult_le_scale (a b x : R) : 0 < x -> a <= b -> a * x <= b * x.
Proof. intros P H. apply Rmult_le_compat_r; lra. Qed.

(** Below the top of its binade. *)
Lemma canonic_below (v : R) (E : Z) : canonic v E -> v < bpow (E + 53).
Proof.
  intros [[-> H] | (d & -> & _ & _ & H)].
  - exact H.
  - now replace (d - 53 + 53)%Z with d by lia.
Qed.

Lemma canonic_le (v1 v2 : R) (E1 E2 : Z) :
  canonic v1 E1 -> canonic v2 E2 -> v1 <= v2 -> (E1 <= E2)%Z.
Proof.
  intros [[-> H1] | (d1 & -> & G1 & L1 & U1)] [[-> H2] | (d2 & -> & G2 & L2 & U2)] Le.
  - lia.
  - lia.
  - assert (bpow (d1 - 1) < bpow (-1021)) by lra.
    apply bpow_lt_inv in H. lia.
  - assert (bpow (d1 - 1) < bpow d2) by lra.
    apply bpow_lt_inv in H. lia.
Qed.

(** The mantissa of a located value in terms of integers. *)
Lemma located_mantissa_lt (v : R) (m E k : Z) (l : location) :
  located v m E l -> v < bpow (E + k) -> (0 <= k)%Z -> (m < 2 ^ k)%Z.
Proof.
  intros L U K. apply located_range in L as [Lo _].
  apply lt_IZR. rewrite <- bpow_nonneg by exact K.
  apply (Rmult_lt_cancel _ _ (bpow E) (bpow_pos E)).
  rewrite <- bpow_add, (Z.add_comm k E). lra.
Qed.

Lemma located_mantissa_ge (v : R) (m E k : Z) (l : location) :
  located v m E l -> bpow (E + k) <= v -> (0 <= k)%Z -> (2 ^ k <= m)%Z.
Proof.
  intros L U K. apply located_range in L as [_ Up].
  assert (H : (2 ^ k < m + 1)%Z); [| lia].
  apply lt_IZR. rewrite <- bpow_nonneg by exact K. rewrite plus_IZR.
  apply (Rmult_lt_cancel _ _ (bpow E) (bpow_pos E)).
  rewrite <- bpow_add, (Z.add_comm k E). lra.
Qed.

(** Same exponent and same mantissa: the later value is located no
    lower, and is rounded no lower. *)
Lemma round_nearest_even_located (v1 v2 : R) (m E : Z) (l1 l2 : location) :
  located v1 m E l1 -> located v2 m E l2 -> v1 <= v2 ->
  (round_nearest_even m l1 <= round_nearest_even m l2)%Z.
Proof.
  pose proof (bpow_pos E) as P.
  destruct l1 as [| [] ], l2 as [| [] ]; cbn [located round_nearest_even];
    intros L1 L2 Le; try lia; try (destruct (Z.even m); lia); exfalso; lra.
Qed.

(** Rounding is monotone. *)
Lemma RN_mono (v1 v2 r1 r2 : R) :
  RN v1 r1 -> RN v2 r2 -> v1 <= v2 -> r1 <= r2.
Proof.
  intros (E1 & m1 & l1 & C1 & P1 & L1 & ->) (E2 & m2 & l2 & C2 & P2 & L2 & ->) Le.
  pose proof (canonic_le v1 v2 E1 E2 C1 C2 Le) as LE.
  pose proof (round_nearest_even_range m1 l1) as R1.
  pose proof (round_nearest_even_range m2 l2) as R2.
  destruct (Z.eq_dec E1 E2) as [<- | NE].
  - apply Rmult_le_scale; [apply bpow_pos |]. apply IZR_le.
    pose proof (located_range _ _ _ _ L1) as [Lo1 Up1].
    pose proof (located_range _ _ _ _ L2) as [Lo2 Up2].
    assert (M : (m1 < m2 + 1)%Z).
    { apply lt_IZR. rewrite plus_IZR.
      apply (Rmult_lt_cancel _ _ (bpow E1) (bpow_pos E1)). lra. }
    destruct (Z.eq_dec m1 m2) as [<- | Nm].
    + apply (round_nearest_even_located v1 v2 m1 E1 l1 l2 L1 L2 Le).
    + lia.
  - assert (Lt : (E1 < E2)%Z) by lia.
    destruct C2 as [[-> _] | (d2 & -> & G2 & Lo2 & Up2)].
    { destruct C1 as [[-> _] | (d1 & -> & G1 & _)]; lia. }
    pose proof (canonic_below v1 E1 C1) as B1.
    pose proof (located_mantissa_lt v1 m1 E1 53 l1 L1 B1 ltac:(lia)) as M1.
    assert (M2 : (2 ^ 52 <= m2)%Z).
    { apply (located_mantissa_ge v2 m2 (d2 - 53) 52 l2 L2); [| lia].
      now replace (d2 - 53 + 52)%Z with (d2 - 1)%Z by lia. }
    apply Rle_trans with (bpow (E1 + 53)).
    + rewrite Z.add_comm, bpow_add, (bpow_nonneg 53) by lia.
      apply Rmult_le_scale; [apply bpow_pos |]. apply IZR_le. lia.
    + apply Rle_trans with (bpow (d2 - 53 + 52)).
      * apply bpow_le. lia.
      * rewrite Z.add_comm, bpow_add, (bpow_nonneg 52) by lia.
        apply Rmult_le_scale; [apply bpow_pos |]. apply IZR_le. lia.
Qed.

End RoundFacts.

(** ** Binary64 arithmetic: [binary_round_aux] rounds to nearest *)

Section RoundAux.

Import Binary64.

Local Open Scope R_scope.

Lemma fexp64_eq (x : Z) : fexp prec emax x = Z.max (x - 53) (-1074).
Proof. reflexivity. Qed.

Lemma Zdigits2_bounds (m : Z) :
  (0 < m)%Z -> (2 ^ (Zdigits2 m - 1) <= m < 2 ^ Zdigits2 m)%Z /\ (0 < Zdigits2 m)%Z.
Proof.
  destruct m as [| p | p]; try lia. intros _. cbn [Zdigits2].
  split; [apply digits2_pos_bounds | lia].
Qed.

Lemma Zdigits2_le (m k : Z) : (0 < m < 2 ^ k)%Z -> (0 <= k)%Z -> (Zdigits2 m <= k)%Z.
Proof.
  intros [P U] K. destruct (Zdigits2_bounds m P) as [[Lo _] D].
  destruct (Z_le_gt_dec (Zdigits2 m) k) as [L | G]; [exact L |].
  assert (2 ^ k <= 2 ^ (Zdigits2 m - 1))%Z by (apply Z.pow_le_mono_r; lia). lia.
Qed.

Lemma Zdigits2_ge (m k : Z) : (2 ^ k <= m)%Z -> (0 <= k)%Z -> (k < Zdigits2 m)%Z.
Proof.
  intros Lo K. assert (P : (0 < m)%Z) by (pose proof (Z.pow_pos_nonneg 2 k); lia).
  destruct (Zdigits2_bounds m P) as [[_ Up] D].
  destruct (Z_lt_le_dec k (Zdigits2 m)) as [L | G]; [exact L |].
  assert (2 ^ Zdigits2 m <= 2 ^ k)%Z by (apply Z.pow_le_mono_r; lia). lia.
Qed.

(** The exponent the algorithm shifts to is the exponent of the value. *)
Lemma located_canonic (v : R) (m e : Z) (l : location) :
  (0 <= m)%Z -> 0 < v -> located v m e l ->
  (e <= fexp prec emax (Zdigits2 m + e))%Z ->
  canonic v (fexp prec emax (Zdigits2 m + e)).
Proof.
  intros Pos V L Pre. rewrite fexp64_eq in *.
  apply located_range in L as [Lo Up].
  pose proof (bpow_pos e) as Pe.
  destruct (Z.eq_dec m 0) as [-> | NZ].
  - cbn [Zdigits2] in *. left. split; [lia |].
    assert (bpow e <= bpow (-1074)) by (apply bpow_le; lia).
    assert (bpow (-1074) < bpow (-1021)) by (apply bpow_lt; lia). lra.
  - destruct (Zdigits2_bounds m ltac:(lia)) as [[Dlo Dup] Dpos].
    set (dg := Zdigits2 m) in *.
    assert (Blo : bpow (dg + e - 1) <= v).
    { replace (dg + e - 1)%Z with (dg - 1 + e)%Z by lia.
      rewrite bpow_add, bpow_nonneg by lia.
      apply Rle_trans with (IZR m * bpow e); [| exact Lo].
      apply Rmult_le_scale; [exact Pe | now apply IZR_le]. }
    assert (Bup : v < bpow (dg + e)).
    { rewrite bpow_add, bpow_nonneg by lia.
      apply Rlt_le_trans with ((IZR m + 1) * bpow e); [exact Up |].
      apply Rmult_le_scale; [exact Pe |]. rewrite <- plus_IZR. apply IZR_le. lia. }
    destruct (Z_le_gt_dec (-1074) (dg + e - 53)) as [N | S].
    + right. exists (dg + e)%Z. split; [lia |]. split; [lia |]. now split.
    + left. split; [lia |].
      assert (bpow (dg + e) <= bpow (-1021)) by (apply bpow_le; lia). lra.
Qed.

(** Shifting a mantissa of zero gives zero. *)
Lemma shr_zero (e n : Z) :
  shr_m (fst (shr (shr_record_of_loc 0 loc_Exact) e n)) = 0%Z.
Proof.
  destruct (shr_located 0 0 e n loc_Exact ltac:(lia)) as (P & _ & L).
  { cbn. lra. }
  apply located_range in L as [Lo _].
  pose proof (bpow_pos (e + Z.max n 0)) as Pe.
  assert (H : IZR (shr_m (fst (shr (shr_record_of_loc 0 loc_Exact) e n))) <= 0).
  { destruct (Rle_or_lt (IZR (shr_m (fst (shr (shr_record_of_loc 0 loc_Exact) e n)))) 0)
      as [A | A]; [exact A |].
    exfalso.
    assert (0 < IZR (shr_m (fst (shr (shr_record_of_loc 0 loc_Exact) e n)))
                * bpow (e + Z.max n 0)) by (apply Rmult_lt_0_compat; assumption).
    lra. }
  apply le_IZR in H. lia.
Qed.

(** What [binary_round_aux] returns for a located positive value: the
    value rounded to nearest even, as a float of the sign asked for. *)
Lemma binary_round_aux_RN (s : bool) (v : R) (m e : Z) (l : location) :
  (0 <= m)%Z -> 0 < v -> located v m e l ->
  (e <= fexp prec emax (Zdigits2 m + e))%Z ->
  exists rv, RN v rv /\ repr s rv (binary_round_aux prec emax s m e l).
Proof.
  intros Pos V L Pre.
  pose proof (located_canonic v m e l Pos V L Pre) as C.
  unfold binary_round_aux, shr_fexp.
  set (E := fexp prec emax (Zdigits2 m + e)) in *.
  destruct (shr_located v m e (E - e) l Pos L) as (P1 & E1 & L1).
  replace (e + Z.max (E - e) 0)%Z with E in * by lia.
  destruct (shr (shr_record_of_loc m l) e (E - e)) as [mrs1 e1].
  cbn [fst snd] in P1, E1, L1. subst e1.
  set (m1 := shr_m mrs1) in *. set (l1 := loc_of_shr_record mrs1) in *.
  set (m2 := round_nearest_even m1 l1).
  exists (IZR m2 * bpow E). split.
  { exists E, m1, l1. now repeat split. }
  pose proof (round_nearest_even_range m1 l1) as R2. fold m2 in R2.
  pose proof (located_mantissa_lt v m1 E 53 l1 L1 (canonic_below v E C) ltac:(lia)) as M1.
  assert (GE : (-1074 <= E)%Z) by (unfold E; rewrite fexp64_eq; lia).
  destruct (Z.eq_dec m2 0) as [Z2 | NZ2].
  - rewrite Z2. cbn [Zdigits2].
    pose proof (shr_zero E (fexp prec emax (0 + E) - E)) as SZ.
    destruct (shr (shr_record_of_loc 0 loc_Exact) E (fexp prec emax (0 + E) - E))
      as [mrs2 e2]. cbn [fst] in SZ. rewrite SZ.
    left. split; [lra | reflexivity].
  - assert (P2 : (0 < m2)%Z) by lia.
    destruct (Z_lt_le_dec m2 (2 ^ 53)) as [Small | Big].
    + pose proof (Zdigits2_le m2 53 ltac:(lia) ltac:(lia)) as D2.
      assert (N2 : (fexp prec emax (Zdigits2 m2 + E) - E <= 0)%Z)
        by (rewrite fexp64_eq; lia).
      assert (Sh : shr (shr_record_of_loc m2 loc_Exact) E
                     (fexp prec emax (Zdigits2 m2 + E) - E)
                   = (shr_record_of_loc m2 loc_Exact, E)).
      { destruct (fexp prec emax (Zdigits2 m2 + E) - E)%Z; try lia; reflexivity. }
      rewrite Sh. cbn [shr_record_of_loc shr_m].
      destruct m2 as [| q | q]; try lia.
      destruct (Z.leb E (emax - prec)) eqn:Fin.
      * right; left. exists q, E. now split.
      * right; right. split; [reflexivity |].
        apply Z.leb_gt in Fin. change (emax - prec)%Z with 971%Z in Fin.
        assert (M52 : (2 ^ 52 <= m1)%Z).
        { destruct C as [[EE _] | (d & EE & _ & Lo & _)]; [lia |].
          apply (located_mantissa_ge v m1 E 52 l1 L1); [| lia].
          now replace (E + 52)%Z with (d - 1)%Z by lia. }
        apply Rle_trans with (bpow (E + 52)); [apply bpow_le; lia |].
        rewrite Z.add_comm, bpow_add, (bpow_nonneg 52) by lia.
        apply Rmult_le_scale; [apply bpow_pos |]. apply IZR_le. lia.
    + assert (EQ : m2 = (2 ^ 53)%Z) by lia. rewrite EQ.
      assert (N2 : (fexp prec emax (Zdigits2 (2 ^ 53) + E) - E = 1)%Z).
      { change (Zdigits2 (2 ^ 53)) with 54%Z. rewrite fexp64_eq. lia. }
      rewrite N2. cbn [shr_record_of_loc shr iter_pos].
      change (shr_1 {| shr_m := 2 ^ 53; shr_r := false; shr_s := false |})
        with {| shr_m := 2 ^ 52; shr_r := false; shr_s := false |}.
      cbn [shr_m]. change (2 ^ 52)%Z with (Zpos (2 ^ 52)).
      assert (Val : IZR (2 ^ 53) * bpow E = IZR (Zpos (2 ^ 52)) * bpow (E + 1)).
      { rewrite bpow_succ. change (2 ^ 53)%Z with (2 * Zpos (2 ^ 52))%Z.
        rewrite mult_IZR. lra. }
      destruct (Z.leb (E + 1) (emax - prec)) eqn:Fin.
      * right; left. exists (2 ^ 52)%positive, (E + 1)%Z. now split.
      * right; right. split; [reflexivity |].
        apply Z.leb_gt in Fin. change (emax - prec)%Z with 971%Z in Fin.
        apply Rle_trans with (bpow (E + 53)); [apply bpow_le; lia |].
        rewrite Z.add_comm, bpow_add, (bpow_nonneg 53) by lia. lra.
Qed.

End RoundAux.

(** ** Binary64 arithmetic: comparison is comparison of values *)

Section OrderFacts.

Import Binary64.

Local Open Scope R_scope.

Lemma bounded_facts (m : positive) (e : Z) :
  bounded prec emax m e = true ->
  (Zpos m < 2 ^ 53)%Z /\ (-1074 <= e <= 971)%Z
  /\ ((-1074 < e)%Z -> (2 ^ 52 <= Zpos m)%Z)
  /\ fexp prec emax (Zpos (digits2_pos m) + e) = e.
Proof.
  unfold bounded, canonical_mantissa. intros H.
  apply andb_prop in H as [C B]. apply Z.eqb_eq in C. apply Z.leb_le in B.
  change (emax - prec)%Z with 971%Z in B.
  pose proof (digits2_pos_bounds m) as [Lo Up].
  pose proof C as C'. rewrite fexp64_eq in C'.
  set (dg := Zpos (digits2_pos m)) in *.
  assert (D : (dg <= 53)%Z) by lia.
  split; [| split; [lia | split; [| exact C]]].
  - assert (2 ^ dg <= 2 ^ 53)%Z by (apply Z.pow_le_mono_r; lia). lia.
  - intros G. assert (dg = 53)%Z by lia.
    replace 52%Z with (dg - 1)%Z by lia. exact Lo.
Qed.

Lemma finite_below_top (m : positive) (e : Z) :
  bounded prec emax m e = true -> IZR (Zpos m) * bpow e < bpow 1024.
Proof.
  intros B. destruct (bounded_facts m e B) as (M & [_ E] & _).
  apply Rlt_le_trans with (bpow 53 * bpow e).
  - apply Rmult_lt_compat_r; [apply bpow_pos |].
    rewrite bpow_nonneg by lia. now apply IZR_lt.
  - rewrite <- bpow_add. apply bpow_le. lia.
Qed.

Lemma finite_pos (m : positive) (e : Z) : 0 < IZR (Zpos m) * bpow e.
Proof.
  apply Rmult_lt_0_compat; [| apply bpow_pos]. apply IZR_lt. lia.
Qed.

(** Floats of a smaller exponent are smaller. *)
Lemma bounded_exponent_lt (m1 m2 : positive) (e1 e2 : Z) :
  bounded prec emax m1 e1 = true -> bounded prec emax m2 e2 = true ->
  (e1 < e2)%Z -> IZR (Zpos m1) * bpow e1 < IZR (Zpos m2) * bpow e2.
Proof.
  intros B1 B2 Lt.
  destruct (bounded_facts m1 e1 B1) as (M1 & E1 & _).
  destruct (bounded_facts m2 e2 B2) as (_ & E2 & N2 & _).
  apply Rlt_le_trans with (bpow 53 * bpow e1).
  - apply Rmult_lt_compat_r; [apply bpow_pos |].
    rewrite bpow_nonneg by lia. now apply IZR_lt.
  - apply Rle_trans with (bpow 52 * bpow e2).
    + rewrite <- !bpow_add. apply bpow_le. lia.
    + apply Rmult_le_scale; [apply bpow_pos |].
      rewrite bpow_nonneg by lia. apply IZR_le. apply N2. lia.
Qed.

Lemma bounded_compare (m1 m2 : positive) (e1 e2 : Z) :
  bounded prec emax m1 e1 = true -> bounded prec emax m2 e2 = true ->
  match (match Z.compare e1 e2 with
         | Lt => Lt
         | Gt => Gt
         | Eq => Pos.compare_cont Eq m1 m2
         end) with
  | Lt => IZR (Zpos m1) * bpow e1 < IZR (Zpos m2) * bpow e2
  | Eq => IZR (Zpos m1) * bpow e1 = IZR (Zpos m2) * bpow e2
  | Gt => IZR (Zpos m2) * bpow e2 < IZR (Zpos m1) * bpow e1
  end.
Proof.
  intros B1 B2. destruct (Z.compare_spec e1 e2) as [<- | L | G].
  - change (Pos.compare_cont Eq m1 m2) with (Pos.compare m1 m2).
    pose proof (bpow_pos e1) as P.
    destruct (Pos.compare_spec m1 m2) as [<- | L | G].
    + reflexivity.
    + apply Rmult_lt_compat_r; [exact P |]. apply IZR_lt. lia.
    + apply Rmult_lt_compat_r; [exact P |]. apply IZR_lt. lia.
  - now apply bounded_exponent_lt.
  - now apply bounded_exponent_lt.
Qed.

(** The comparison of floats is the comparison of their values. *)
Lemma SFcompare_Vx (f1 f2 : spec_float) :
  valid_binary f1 = true -> valid_binary f2 = true ->
  match SFcompare f1 f2 with
  | Some Lt => Vx f1 < Vx f2
  | Some Eq => Vx f1 = Vx f2
  | Some Gt => Vx f2 < Vx f1
  | None => is_nan_sf f1 = true \/ is_nan_sf f2 = true
  end.
Proof.
  pose proof (bpow_pos 1024) as T.
  destruct f1 as [s1 | s1 | | s1 m1 e1], f2 as [s2 | s2 | | s2 m2 e2];
    cbn [valid_binary SFcompare Vx is_nan_sf]; intros V1 V2;
    try (now left); try (now right);
    try pose proof (finite_below_top m1 e1 V1) as F1;
    try pose proof (finite_pos m1 e1) as P1;
    try pose proof (finite_below_top m2 e2 V2) as F2;
    try pose proof (finite_pos m2 e2) as P2;
    try (destruct s1; cbn [sgn]; lra);
    try (destruct s2; cbn [sgn]; lra);
    try (destruct s1, s2; cbn [sgn]; lra).
  pose proof (bounded_compare m1 m2 e1 e2 V1 V2) as C.
  destruct s1, s2; cbn [sgn]; try lra.
  - destruct (Z.compare e1 e2); [destruct (Pos.compare_cont Eq m1 m2) | |];
      cbn [CompOpp]; lra.
  - destruct (Z.compare e1 e2); [destruct (Pos.compare_cont Eq m1 m2) | |]; lra.
Qed.

Lemma SFcompare_not_nan (f1 f2 : spec_float) (c : comparison) :
  SFcompare f1 f2 = Some c -> is_nan_sf f1 = false /\ is_nan_sf f2 = false.
Proof.
  destruct f1, f2; cbn [SFcompare is_nan_sf]; intros H;
    try discriminate; now split.
Qed.

Lemma SFleb_Vx (f1 f2 : spec_float) :
  valid_binary f1 = true -> valid_binary f2 = true ->
  SFleb f1 f2 = true ->
  is_nan_sf f1 = false /\ is_nan_sf f2 = false /\ Vx f1 <= Vx f2.
Proof.
  intros V1 V2. unfold SFleb. pose proof (SFcompare_Vx f1 f2 V1 V2) as C.
  destruct (SFcompare f1 f2) as [c |] eqn:E; [| discriminate].
  destruct (SFcompare_not_nan f1 f2 c E) as [N1 N2].
  destruct c; try discriminate; intros _; (split; [exact N1 | split; [exact N2 | lra]]).
Qed.

Lemma Vx_SFleb (f1 f2 : spec_float) :
  valid_binary f1 = true -> valid_binary f2 = true ->
  is_nan_sf f1 = false -> is_nan_sf f2 = false -> Vx f1 <= Vx f2 ->
  SFleb f1 f2 = true.
Proof.
  intros V1 V2 N1 N2 Le. unfold SFleb.
  pose proof (SFcompare_Vx f1 f2 V1 V2) as C.
  destruct (SFcompare f1 f2) as [[] |]; try reflexivity.
  - lra.
  - destruct C; congruence.
Qed.

Lemma SFltb_Vx (f1 f2 : spec_float) :
  valid_binary f1 = true -> valid_binary f2 = true ->
  SFltb f1 f2 = true ->
  is_nan_sf f1 = false /\ is_nan_sf f2 = false /\ Vx f1 < Vx f2.
Proof.
  intros V1 V2. unfold SFltb. pose proof (SFcompare_Vx f1 f2 V1 V2) as C.
  destruct (SFcompare f1 f2) as [c |] eqn:E; [| discriminate].
  destruct (SFcompare_not_nan f1 f2 c E) as [N1 N2].
  destruct c; try discriminate; intros _; (split; [exact N1 | split; [exact N2 | lra]]).
Qed.

Lemma Vx_SFltb (f1 f2 : spec_float) :
  valid_binary f1 = true -> valid_binary f2 = true ->
  is_nan_sf f1 = false -> is_nan_sf f2 = false -> Vx f1 < Vx f2 ->
  SFltb f1 f2 = true.
Proof.
  intros V1 V2 N1 N2 Le. unfold SFltb.
  pose proof (SFcompare_Vx f1 f2 V1 V2) as C.
  destruct (SFcompare f1 f2) as [[] |]; try reflexivity; try lra.
  destruct C; congruence.
Qed.

End OrderFacts.

(** ** Binary64 arithmetic: addition rounds the exact sum *)

Section RoundsFacts.

Import Binary64.

Local Open Scope R_scope.

Lemma RN_nonneg (v rv : R) : RN v rv -> 0 <= rv.
Proof.
  intros (E & m & l & _ & P & _ & ->).
  pose proof (round_nearest_even_range m l) as R.
  apply Rmult_le_pos; [| apply Rlt_le, bpow_pos]. apply IZR_le. lia.
Qed.

Lemma repr_Vx (s : bool) (rv : R) (f : spec_float) :
  repr s rv f -> valid_binary f = true -> 0 <= rv ->
  Vx f = sgn s * Rmin rv (bpow 1024).
Proof.
  pose proof (bpow_pos 1024) as T.
  intros [[-> ->] | [(m & e & -> & ->) | [-> Big]]] V P; cbn [Vx].
  - rewrite Rmin_left by lra. lra.
  - pose proof (finite_below_top m e V). rewrite Rmin_left by lra. reflexivity.
  - rewrite Rmin_right by lra. reflexivity.
Qed.

Lemma repr_not_nan (s : bool) (rv : R) (f : spec_float) :
  repr s rv f -> is_nan_sf f = false.
Proof. now intros [[_ ->] | [(m & e & -> & _) | [-> _]]]. Qed.

Lemma rounds_not_nan (S : R) (f : spec_float) : rounds S f -> is_nan_sf f = false.
Proof.
  intros [[_ [s ->]] | [[_ (rv & _ & H)] | [_ (rv & _ & H)]]];
    [reflexivity | |]; exact (repr_not_nan _ _ _ H).
Qed.

(** The value of a rounded number, through the rounding of its magnitude. *)
Lemma rounds_Vx (S : R) (f : spec_float) :
  rounds S f -> valid_binary f = true ->
  (S = 0 /\ Vx f = 0)
  \/ (0 < S /\ exists rv, RN S rv /\ Vx f = Rmin rv (bpow 1024))
  \/ (S < 0 /\ exists rv, RN (- S) rv /\ Vx f = - Rmin rv (bpow 1024)).
Proof.
  intros [[Z [s ->]] | [[P (rv & N & H)] | [P (rv & N & H)]]] V.
  - left. now split.
  - right; left. split; [exact P |]. exists rv. split; [exact N |].
    rewrite (repr_Vx _ _ _ H V (RN_nonneg _ _ N)). cbn [sgn]. lra.
  - right; right. split; [exact P |]. exists rv. split; [exact N |].
    rewrite (repr_Vx _ _ _ H V (RN_nonneg _ _ N)). cbn [sgn]. lra.
Qed.

Lemma Rmin_nonneg (a b : R) : 0 <= a -> 0 <= b -> 0 <= Rmin a b.
Proof. intros. apply Rmin_glb; assumption. Qed.

(** Rounding is monotone, on values. *)
Lemma rounds_mono (S1 S2 : R) (f1 f2 : spec_float) :
  rounds S1 f1 -> rounds S2 f2 ->
  valid_binary f1 = true -> valid_binary f2 = true ->
  S1 <= S2 -> Vx f1 <= Vx f2.
Proof.
  pose proof (bpow_pos 1024) as T.
  intros R1 R2 V1 V2 Le.
  destruct (rounds_Vx S1 f1 R1 V1) as [[Z1 ->] | [(P1 & r1 & N1 & ->) | (P1 & r1 & N1 & ->)]];
    destruct (rounds_Vx S2 f2 R2 V2) as [[Z2 ->] | [(P2 & r2 & N2 & ->) | (P2 & r2 & N2 & ->)]];
    try lra;
    try pose proof (Rmin_nonneg r1 (bpow 1024) (RN_nonneg _ _ N1) (Rlt_le _ _ T));
    try pose proof (Rmin_nonneg r2 (bpow 1024) (RN_nonneg _ _ N2) (Rlt_le _ _ T));
    try lra.
  - pose proof (RN_mono S1 S2 r1 r2 N1 N2 Le).
    apply Rle_min_compat_r. assumption.
  - assert (L : - S2 <= - S1) by lra.
    pose proof (RN_mono (- S2) (- S1) r2 r1 N2 N1 L).
    apply Ropp_le_contravar, Rle_min_compat_r. assumption.
Qed.

Lemma rounds_SFleb (S1 S2 : R) (f1 f2 : spec_float) :
  rounds S1 f1 -> rounds S2 f2 ->
  valid_binary f1 = true -> valid_binary f2 = true ->
  S1 <= S2 -> SFleb f1 f2 = true.
Proof.
  intros R1 R2 V1 V2 Le.
  apply Vx_SFleb; try assumption.
  - exact (rounds_not_nan _ _ R1).
  - exact (rounds_not_nan _ _ R2).
  - exact (rounds_mono S1 S2 f1 f2 R1 R2 V1 V2 Le).
Qed.

(** A float is its own value rounded. *)
Lemma rounds_self (f : spec_float) :
  valid_binary f = true -> finite_sf f = true -> rounds (Vx f) f.
Proof.
  destruct f as [s | s | | s m e]; cbn [finite_sf valid_binary Vx];
    intros V F; try discriminate.
  - left. split; [reflexivity | now exists s].
  - destruct (bounded_facts m e V) as (_ & _ & _ & C).
    pose proof (finite_pos m e) as P.
    assert (N : RN (IZR (Zpos m) * bpow e) (IZR (Zpos m) * bpow e)).
    { exists e, (Zpos m), loc_Exact. split; [| split; [lia | split; reflexivity]].
      rewrite <- C at 2.
      apply (located_canonic _ (Zpos m) e loc_Exact); [lia | exact P | reflexivity |].
      cbn [Zdigits2]. lia. }
    assert (Rp : forall s', repr s' (IZR (Zpos m) * bpow e) (S754_finite s' m e)).
    { intros s'. right; left. now exists m, e. }
    destruct s; cbn [sgn].
    + right; right. split; [lra |].
      exists (IZR (Zpos m) * bpow e). split; [| apply Rp].
      replace (- (-1 * (IZR (Zpos m) * bpow e))) with (IZR (Zpos m) * bpow e) by lra.
      exact N.
    + right; left. split; [lra |].
      exists (IZR (Zpos m) * bpow e). split; [| apply Rp].
      replace (1 * (IZR (Zpos m) * bpow e)) with (IZR (Zpos m) * bpow e) by lra.
      exact N.
Qed.

Lemma iter_xO_value (m d : positive) :
  Zpos (Pos.iter xO m d) = (Zpos m * 2 ^ Zpos d)%Z.
Proof.
  induction d as [| d IH] using Pos.peano_ind.
  - cbn [Pos.iter]. lia.
  - rewrite Pos.iter_succ, Pos2Z.inj_xO, IH, Pos2Z.inj_succ, Z.pow_succ_r by lia. lia.
Qed.

Lemma iter_xO_digits (m d : positive) :
  Zpos (digits2_pos (Pos.iter xO m d)) = (Zpos (digits2_pos m) + Zpos d)%Z.
Proof.
  induction d as [| d IH] using Pos.peano_ind.
  - cbn [Pos.iter digits2_pos]. lia.
  - rewrite Pos.iter_succ. cbn [digits2_pos]. lia.
Qed.

(** Aligning a mantissa to a smaller exponent keeps the value and the
    sum of digits and exponent. *)
Lemma shl_align_spec (m : positive) (e t : Z) :
  IZR (Zpos (fst (shl_align m e t))) * bpow (snd (shl_align m e t))
  = IZR (Zpos m) * bpow e
  /\ snd (shl_align m e t) = Z.min e t
  /\ (Zpos (digits2_pos (fst (shl_align m e t))) + snd (shl_align m e t)
      = Zpos (digits2_pos m) + e)%Z.
Proof.
  unfold shl_align. destruct (t - e)%Z as [| d | d] eqn:D; cbn [fst snd].
  - split; [reflexivity | split; lia].
  - split; [reflexivity | split; lia].
  - rewrite iter_xO_value, iter_xO_digits, mult_IZR.
    split; [| split; lia].
    assert (B : bpow e = IZR (2 ^ Zpos d) * bpow t).
    { rewrite <- bpow_nonneg, <- bpow_add by lia. f_equal. lia. }
    rewrite B. lra.
Qed.

Lemma binary_round_RN (s : bool) (p : positive) (e : Z) :
  exists rv, RN (IZR (Zpos p) * bpow e) rv
             /\ repr s rv (binary_round prec emax s p e).
Proof.
  unfold binary_round.
  destruct (shl_align_spec p e (fexp prec emax (Zpos (digits2_pos p) + e)))
    as (Val & Ex & Dg).
  destruct (shl_align p e (fexp prec emax (Zpos (digits2_pos p) + e))) as [mz ez].
  cbn [fst snd] in *. rewrite <- Val.
  apply binary_round_aux_RN.
  - lia.
  - apply finite_pos.
  - reflexivity.
  - cbn [Zdigits2]. rewrite Dg. lia.
Qed.

(** An integer multiple of a power of two, rounded. *)
Lemma binary_normalize_rounds (m e : Z) (s : bool) :
  rounds (IZR m * bpow e) (binary_normalize prec emax m e s).
Proof.
  destruct m as [| p | p]; cbn [binary_normalize].
  - left. split; [lra | now exists s].
  - right; left. split; [apply finite_pos |]. apply binary_round_RN.
  - right; right. pose proof (finite_pos p e) as P.
    change (Zneg p) with (- Zpos p)%Z. rewrite opp_IZR.
    split; [lra |].
    replace (- (- IZR (Zpos p) * bpow e)) with (IZR (Zpos p) * bpow e) by lra.
    apply binary_round_RN.
Qed.

Lemma cond_Zopp_IZR (s : bool) (m : Z) : IZR (cond_Zopp s m) = sgn s * IZR m.
Proof. destruct s; cbn [cond_Zopp sgn]; [rewrite opp_IZR |]; lra. Qed.

(** The sum of two finite floats is the exact sum, rounded. *)
Lemma SFadd_rounds (x y : spec_float) :
  valid_binary x = true -> valid_binary y = true ->
  finite_sf x = true -> finite_sf y = true ->
  rounds (Vx x + Vx y) (SFadd prec emax x y).
Proof.
  intros Vx' Vy' Fx Fy.
  destruct x as [sx | sx | | sx mx ex], y as [sy | sy | | sy my ey];
    try discriminate; cbn [SFadd Vx].
  - left. split; [lra |]. destruct sx, sy; eexists; reflexivity.
  - rewrite Rplus_0_l. now apply (rounds_self (S754_finite sy my ey)).
  - rewrite Rplus_0_r. now apply (rounds_self (S754_finite sx mx ex)).
  - destruct (shl_align_spec mx ex (Z.min ex ey)) as (Vmx & Emx & _).
    destruct (shl_align_spec my ey (Z.min ex ey)) as (Vmy & Emy & _).
    replace (Z.min ex (Z.min ex ey)) with (Z.min ex ey) in Emx by lia.
    replace (Z.min ey (Z.min ex ey)) with (Z.min ex ey) in Emy by lia.
    rewrite Emx in Vmx. rewrite Emy in Vmy.
    rewrite <- Vmx, <- Vmy.
    set (ax := fst (shl_align mx ex (Z.min ex ey))).
    set (ay := fst (shl_align my ey (Z.min ex ey))).
    replace (sgn sx * (IZR (Zpos ax) * bpow (Z.min ex ey))
             + sgn sy * (IZR (Zpos ay) * bpow (Z.min ex ey)))
      with (IZR (cond_Zopp sx (Zpos ax) + cond_Zopp sy (Zpos ay)) * bpow (Z.min ex ey))
      by (rewrite plus_IZR, !cond_Zopp_IZR; lra).
    apply binary_normalize_rounds.
Qed.

Lemma SFsub_SFadd (x y : spec_float) :
  SFsub prec emax x y = SFadd prec emax x (SFopp y).
Proof.
  destruct x as [sx | sx | | sx mx ex], y as [sy | sy | | sy my ey];
    cbn [SFsub SFadd SFopp]; try reflexivity;
    destruct sx, sy; reflexivity.
Qed.

Lemma Vx_SFopp (x : spec_float) : Vx (SFopp x) = - Vx x.
Proof.
  destruct x as [s | s | | s m e]; cbn [SFopp Vx]; try lra;
    destruct s; cbn [sgn negb]; lra.
Qed.


Lemma finite_SFopp (x : spec_float) : finite_sf (SFopp x) = finite_sf x.
Proof. now destruct x. Qed.

Lemma is_nan_SFopp (x : spec_float) : is_nan_sf (SFopp x) = is_nan_sf x.
Proof. now destruct x. Qed.

End RoundsFacts.

(** ** Binary64 arithmetic: multiplication and division round the exact result *)

Section MulDivFacts.

Import Binary64.

Local Open Scope R_scope.

Lemma sgn_xorb (a b : bool) : sgn (xorb a b) = sgn a * sgn b.
Proof. destruct a, b; cbn [xorb sgn]; lra. Qed.

(** From the rounding of a magnitude to the rounding of a signed value. *)
Lemma rounds_signed (s : bool) (v : R) (f : spec_float) :
  0 < v -> (exists rv, RN v rv /\ repr s rv f) -> rounds (sgn s * v) f.
Proof.
  intros P H. destruct s; cbn [sgn].
  - right; right. split; [lra |].
    now replace (- (-1 * v)) with v by lra.
  - right; left. split; [lra |].
    now replace (1 * v) with v by lra.
Qed.

(** The product of two finite floats is the exact product, rounded. *)
Lemma SFmul_rounds (x y : spec_float) :
  valid_binary x = true -> valid_binary y = true ->
  finite_sf x = true -> finite_sf y = true ->
  rounds (Vx x * Vx y) (SFmul prec emax x y).
Proof.
  intros Vx' Vy' Fx Fy.
  destruct x as [sx | sx | | sx mx ex], y as [sy | sy | | sy my ey];
    try discriminate; cbn [SFmul Vx];
    try (left; split; [lra | eexists; reflexivity]).
  cbn [valid_binary] in Vx', Vy'.
  destruct (bounded_facts mx ex Vx') as (_ & _ & _ & Cx).
  destruct (bounded_facts my ey Vy') as (_ & _ & _ & Cy).
  rewrite fexp64_eq in Cx, Cy.
  pose proof (digits2_pos_bounds mx) as [Lx _].
  pose proof (digits2_pos_bounds my) as [Ly _].
  set (dx := Zpos (digits2_pos mx)) in *. set (dy := Zpos (digits2_pos my)) in *.
  assert (Dx : (0 < dx)%Z) by (unfold dx; lia).
  assert (Dy : (0 < dy)%Z) by (unfold dy; lia).
  assert (Lo : (2 ^ (dx + dy - 2) <= Zpos (mx * my))%Z).
  { replace (dx + dy - 2)%Z with ((dx - 1) + (dy - 1))%Z by lia.
    rewrite Z.pow_add_r, Pos2Z.inj_mul by lia.
    apply Z.mul_le_mono_nonneg; try assumption;
      apply Z.pow_nonneg; lia. }
  pose proof (Zdigits2_ge (Zpos (mx * my)) (dx + dy - 2) Lo ltac:(lia)) as Dg.
  replace (sgn sx * (IZR (Zpos mx) * bpow ex) * (sgn sy * (IZR (Zpos my) * bpow ey)))
    with (sgn (xorb sx sy) * (IZR (Zpos (mx * my)) * bpow (ex + ey)))
    by (rewrite sgn_xorb, Pos2Z.inj_mul, mult_IZR, bpow_add; lra).
  apply rounds_signed; [apply finite_pos |].
  apply binary_round_aux_RN.
  - lia.
  - apply finite_pos.
  - reflexivity.
  - rewrite fexp64_eq. lia.
Qed.

Lemma located_fraction (v rho : R) (m e : Z) (l : location) :
  v = (IZR m + rho) * bpow e ->
  match l with
  | loc_Exact => rho = 0
  | loc_Inexact Lt => 0 < rho < / 2
  | loc_Inexact Eq => rho = / 2
  | loc_Inexact Gt => / 2 < rho < 1
  end ->
  located v m e l.
Proof.
  pose proof (bpow_pos e) as P. intros -> H.
  destruct l as [| []]; cbn [located].
  - subst rho. lra.
  - subst rho. reflexivity.
  - destruct H. split; apply Rmult_lt_compat_r; lra.
  - destruct H. split; apply Rmult_lt_compat_r; lra.
Qed.

Lemma new_location_spec (nb k : Z) :
  (0 < nb)%Z -> (0 <= k < nb)%Z ->
  match new_location nb k with
  | loc_Exact => IZR k / IZR nb = 0
  | loc_Inexact Lt => 0 < IZR k / IZR nb < / 2
  | loc_Inexact Eq => IZR k / IZR nb = / 2
  | loc_Inexact Gt => / 2 < IZR k / IZR nb < 1
  end.
Proof.
  intros Pn [K0 K1].
  assert (Pr : 0 < IZR nb) by (apply IZR_lt; lia).
  assert (Half : forall c, (c = Lt -> (2 * k < nb)%Z) -> (c = Eq -> (2 * k = nb)%Z)
                 -> (c = Gt -> (nb < 2 * k)%Z) -> (0 < k)%Z ->
                 match loc_Inexact c with
                 | loc_Exact => IZR k / IZR nb = 0
                 | loc_Inexact Lt => 0 < IZR k / IZR nb < / 2
                 | loc_Inexact Eq => IZR k / IZR nb = / 2
                 | loc_Inexact Gt => / 2 < IZR k / IZR nb < 1
                 end).
  { intros c HL HE HG Kp.
    assert (0 < IZR k) by (apply IZR_lt; lia).
    assert (IZR k < IZR nb) by (apply IZR_lt; lia).
    destruct c.
    - specialize (HE eq_refl). apply (f_equal IZR) in HE. rewrite mult_IZR in HE.
      apply Rmult_eq_reg_r with (IZR nb); [| lra]. field_simplify; lra.
    - specialize (HL eq_refl). apply IZR_lt in HL. rewrite mult_IZR in HL.
      split.
      + apply Rdiv_lt_0_compat; lra.
      + apply Rmult_lt_reg_r with (IZR nb); [lra |]. field_simplify; lra.
    - specialize (HG eq_refl). apply IZR_lt in HG. rewrite mult_IZR in HG.
      split.
      + apply Rmult_lt_reg_r with (IZR nb); [lra |]. field_simplify; lra.
      + apply Rmult_lt_reg_r with (IZR nb); [lra |]. field_simplify; lra. }
  unfold new_location, new_location_even, new_location_odd.
  destruct (Z.even nb) eqn:Ev; destruct (Z.eqb_spec k 0) as [-> | NZ];
    try (unfold Rdiv; lra).
  - apply Half; try lia;
      destruct (Z.compare_spec (2 * k) nb); intros; try discriminate; lia.
  - assert (Od : Z.odd nb = true) by (rewrite <- Z.negb_even, Ev; reflexivity).
    apply Z.odd_spec in Od as [j Hj].
    destruct (Z.compare_spec (2 * k + 1) nb);
      [apply (Half Lt) | apply (Half Lt) | apply (Half Gt)];
      intros; try discriminate; lia.
Qed.

(** The quotient and the location [SFdiv_core_binary] computes hold the
    exact quotient. *)
Lemma SFdiv_core_binary_located (mx my : positive) (ex ey : Z) :
  let v := (IZR (Zpos mx) * bpow ex) / (IZR (Zpos my) * bpow ey) in
  let '(q, e', l) := SFdiv_core_binary prec emax (Zpos mx) ex (Zpos my) ey in
  (0 <= q)%Z /\ located v q e' l
  /\ (e' <= fexp prec emax (Zpos (digits2_pos mx) + ex
                            - (Zpos (digits2_pos my) + ey)))%Z
  /\ bpow (Zpos (digits2_pos mx) + ex - (Zpos (digits2_pos my) + ey) - 1) < v.
Proof.
  intros v. unfold SFdiv_core_binary. cbn [Zdigits2].
  set (dx := Zpos (digits2_pos mx)). set (dy := Zpos (digits2_pos my)).
  set (e' := Z.min (fexp prec emax (dx + ex - (dy + ey))) (ex - ey)).
  set (s := (ex - ey - e')%Z).
  assert (S0 : (0 <= s)%Z) by (unfold s, e'; lia).
  set (m' := match s with
             | 0%Z => Zpos mx
             | Zpos _ => Z.shiftl (Zpos mx) s
             | Zneg _ => 0%Z
             end).
  assert (M' : m' = (Zpos mx * 2 ^ s)%Z).
  { unfold m'. destruct s as [| p | p] eqn:Es; try lia.
    apply Z.shiftl_mul_pow2. lia. }
  pose proof (Z_div_mod m' (Zpos my) ltac:(lia)) as DM.
  destruct (Z.div_eucl m' (Zpos my)) as [q r]. destruct DM as [Eq [R0 R1]].
  assert (Mpos : (0 <= m')%Z) by (rewrite M'; apply Z.mul_nonneg_nonneg; [lia | apply Z.pow_nonneg; lia]).
  assert (Q0 : (0 <= q)%Z) by nia.
  pose proof (bpow_pos ex) as Pex. pose proof (bpow_pos ey) as Pey.
  pose proof (bpow_pos e') as Pe'.
  assert (Pmy : 0 < IZR (Zpos my)) by (apply IZR_lt; lia).
  assert (Pmx : 0 < IZR (Zpos mx)) by (apply IZR_lt; lia).
  assert (Val : v = (IZR q + IZR r / IZR (Zpos my)) * bpow e').
  { unfold v.
    assert (B : bpow ex = IZR (2 ^ s) * bpow e' * bpow ey).
    { rewrite <- bpow_nonneg, <- !bpow_add by lia. f_equal. unfold s. lia. }
    rewrite B.
    assert (Q : IZR (Zpos mx) * IZR (2 ^ s) = IZR (Zpos my) * IZR q + IZR r).
    { rewrite <- !mult_IZR, <- plus_IZR. f_equal. lia. }
    field_simplify; [| lra | lra].
    replace (IZR (Zpos mx) * IZR (2 ^ s) * bpow e')
      with ((IZR (Zpos my) * IZR q + IZR r) * bpow e') by (rewrite <- Q; ring).
    field. lra. }
  split; [exact Q0 |]. split.
  - apply (located_fraction v (IZR r / IZR (Zpos my)) q e'); [exact Val |].
    apply new_location_spec; lia.
  - split; [unfold e'; lia |].
    pose proof (digits2_pos_bounds mx) as [Lx _].
    pose proof (digits2_pos_bounds my) as [_ Uy].
    fold dx in Lx. fold dy in Uy.
    assert (Dx : (0 < dx)%Z) by (unfold dx; lia).
    assert (Dy : (0 < dy)%Z) by (unfold dy; lia).
    unfold v.
    assert (Num : bpow (dx - 1) * bpow ex <= IZR (Zpos mx) * bpow ex).
    { apply Rmult_le_scale; [exact Pex |].
      rewrite bpow_nonneg by lia. now apply IZR_le. }
    assert (Den : IZR (Zpos my) * bpow ey < bpow dy * bpow ey).
    { apply Rmult_lt_compat_r; [exact Pey |].
      rewrite bpow_nonneg by lia. now apply IZR_lt. }
    assert (Dpos : 0 < IZR (Zpos my) * bpow ey) by (apply Rmult_lt_0_compat; assumption).
    apply Rmult_lt_reg_r with (IZR (Zpos my) * bpow ey); [exact Dpos |].
    unfold Rdiv. rewrite Rmult_assoc, Rinv_l, Rmult_1_r by lra.
    apply Rlt_le_trans with (bpow (dx + ex - (dy + ey) - 1) * (bpow dy * bpow ey)).
    + apply Rmult_lt_compat_l; [apply bpow_pos | exact Den].
    + rewrite <- !bpow_add.
      replace (dx + ex - (dy + ey) - 1 + (dy + ey))%Z with (dx - 1 + ex)%Z by lia.
      rewrite bpow_add. exact Num.
Qed.

(** The quotient of two finite floats is the exact quotient, rounded. *)
Lemma SFdiv_rounds (x : spec_float) (sy : bool) (my : positive) (ey : Z) :
  valid_binary x = true -> finite_sf x = true ->
  rounds (Vx x / Vx (S754_finite sy my ey))
    (SFdiv prec emax x (S754_finite sy my ey)).
Proof.
  intros Vx' Fx.
  pose proof (finite_pos my ey) as Py.
  destruct x as [sx | sx | | sx mx ex]; try discriminate; cbn [SFdiv Vx].
  - left. split; [unfold Rdiv; lra | eexists; reflexivity].
  - pose proof (SFdiv_core_binary_located mx my ex ey) as H. cbv zeta in H.
    destruct (SFdiv_core_binary prec emax (Zpos mx) ex (Zpos my) ey) as [[q e'] l].
    destruct H as (Q0 & L & E' & Lo).
    set (v := IZR (Zpos mx) * bpow ex / (IZR (Zpos my) * bpow ey)) in *.
    assert (Pv : 0 < v).
    { unfold v. apply Rdiv_lt_0_compat; apply finite_pos. }
    replace (sgn sx * (IZR (Zpos mx) * bpow ex) / (sgn sy * (IZR (Zpos my) * bpow ey)))
      with (sgn (xorb sx sy) * v).
    2:{ rewrite sgn_xorb. unfold v.
        pose proof (bpow_pos ey) as Pey.
        assert (Pmy : 0 < IZR (Zpos my)) by (apply IZR_lt; lia).
        destruct sx, sy; cbn [sgn]; field; repeat split; lra. }
    apply rounds_signed; [exact Pv |].
    apply binary_round_aux_RN; try assumption.
    rewrite fexp64_eq in *.
    set (D := (Zpos (digits2_pos mx) + ex - (Zpos (digits2_pos my) + ey))%Z) in *.
    destruct (Z.eq_dec q 0) as [-> | NZ].
    + cbn [Zdigits2].
      apply located_range in L as [_ Up].
      assert (bpow (D - 1) < bpow e') by lra.
      apply bpow_lt_inv in H. lia.
    + destruct (Z_le_gt_dec e' (-1074)) as [Sm | Bg]; [lia |].
      assert (Q52 : (2 ^ 52 <= q)%Z).
      { apply (located_mantissa_ge v q e' 52 l L); [| lia].
        apply Rle_trans with (bpow (D - 1)); [apply bpow_le; lia | lra]. }
      pose proof (Zdigits2_ge q 52 Q52 ltac:(lia)). lia.
Qed.

End MulDivFacts.

(** ** JavaScript numbers: the operations round, the tests compare values *)

Section FloatFacts.

Import Binary64.

Local Open Scope R_scope.

Lemma SFcompare_refl (f : spec_float) :
  is_nan_sf f = false -> SFcompare f f = Some Eq.
Proof.
  destruct f as [s | s | | s m e]; cbn [is_nan_sf SFcompare]; intros H;
    try discriminate; try reflexivity.
  - now destruct s.
  - rewrite Z.compare_refl.
    change (Pos.compare_cont Eq m m) with (Pos.compare m m).
    rewrite Pos.compare_refl. now destruct s.
Qed.

Lemma is_nan_spec (x : float) : PrimFloat.is_nan x = is_nan_sf (Prim2SF x).
Proof.
  unfold PrimFloat.is_nan. rewrite eqb_spec. unfold SFeqb.
  destruct (is_nan_sf (Prim2SF x)) eqn:N.
  - destruct (Prim2SF x); try discriminate. reflexivity.
  - now rewrite SFcompare_refl.
Qed.

Lemma is_infinity_spec (x : float) :
  PrimFloat.is_infinity x
  = match Prim2SF x with
    | S754_infinity _ => true
    | _ => false
    end.
Proof.
  unfold PrimFloat.is_infinity. rewrite eqb_spec, abs_spec. unfold SFeqb.
  change (Prim2SF infinity) with (S754_infinity false).
  now destruct (Prim2SF x) as [s | s | | s m e].
Qed.

Lemma is_finite_spec (x : float) :
  PrimFloat.is_finite x = finite_sf (Prim2SF x).
Proof.
  unfold PrimFloat.is_finite. rewrite is_nan_spec, is_infinity_spec.
  now destruct (Prim2SF x).
Qed.

Lemma is_finite_finite (x : float) : PrimFloat.is_finite x = true -> finite x.
Proof. unfold finite. now rewrite is_finite_spec. Qed.

Lemma finite_not_nan (x : float) : finite x -> is_nan_sf (Prim2SF x) = false.
Proof. unfold finite. now destruct (Prim2SF x). Qed.

Lemma leb_val (x y : float) :
  (x <=? y)%float = true ->
  is_nan_sf (Prim2SF x) = false /\ is_nan_sf (Prim2SF y) = false /\ val x <= val y.
Proof.
  rewrite leb_spec. apply SFleb_Vx; apply Prim2SF_valid.
Qed.

Lemma val_leb (x y : float) :
  is_nan_sf (Prim2SF x) = false -> is_nan_sf (Prim2SF y) = false ->
  val x <= val y -> (x <=? y)%float = true.
Proof.
  intros. rewrite leb_spec. apply Vx_SFleb; try apply Prim2SF_valid; assumption.
Qed.

Lemma ltb_val (x y : float) :
  (x <? y)%float = true ->
  is_nan_sf (Prim2SF x) = false /\ is_nan_sf (Prim2SF y) = false /\ val x < val y.
Proof.
  rewrite ltb_spec. apply SFltb_Vx; apply Prim2SF_valid.
Qed.

Lemma val_ltb (x y : float) :
  is_nan_sf (Prim2SF x) = false -> is_nan_sf (Prim2SF y) = false ->
  val x < val y -> (x <? y)%float = true.
Proof.
  intros. rewrite ltb_spec. apply Vx_SFltb; try apply Prim2SF_valid; assumption.
Qed.

(** Every number lies between the infinities. *)
Lemma val_range (x : float) : - bpow 1024 <= val x <= bpow 1024.
Proof.
  unfold val. pose proof (Prim2SF_valid x) as V. pose proof (bpow_pos 1024) as T.
  destruct (Prim2SF x) as [s | s | | s m e]; cbn [Vx valid_binary] in *; try lra.
  - destruct s; cbn [sgn]; lra.
  - pose proof (finite_below_top m e V). pose proof (finite_pos m e).
    destruct s; cbn [sgn]; lra.
Qed.

Lemma val_top (x : float) :
  is_nan_sf (Prim2SF x) = false -> bpow 1024 <= val x ->
  Prim2SF x = S754_infinity false.
Proof.
  unfold val. pose proof (Prim2SF_valid x) as V. pose proof (bpow_pos 1024) as T.
  destruct (Prim2SF x) as [s | s | | s m e]; cbn [Vx valid_binary is_nan_sf] in *;
    intros N H; try discriminate; try lra.
  - destruct s; cbn [sgn] in H; [lra | reflexivity].
  - pose proof (finite_below_top m e V). pose proof (finite_pos m e).
    destruct s; cbn [sgn] in H; lra.
Qed.

Lemma val_bottom (x : float) :
  is_nan_sf (Prim2SF x) = false -> val x <= - bpow 1024 ->
  Prim2SF x = S754_infinity true.
Proof.
  unfold val. pose proof (Prim2SF_valid x) as V. pose proof (bpow_pos 1024) as T.
  destruct (Prim2SF x) as [s | s | | s m e]; cbn [Vx valid_binary is_nan_sf] in *;
    intros N H; try discriminate; try lra.
  - destruct s; cbn [sgn] in H; [reflexivity | lra].
  - pose proof (finite_below_top m e V). pose proof (finite_pos m e).
    destruct s; cbn [sgn] in H; lra.
Qed.

(** A number that is not [NaN] is finite or an infinity. *)
Lemma finite_or_infinite (x : float) :
  is_nan_sf (Prim2SF x) = false ->
  finite x \/ Prim2SF x = S754_infinity false \/ Prim2SF x = S754_infinity true.
Proof.
  unfold finite. destruct (Prim2SF x) as [s | [] | | s m e]; cbn; intros H;
    try discriminate; auto.
Qed.

Lemma add_rounds (x y : float) :
  finite x -> finite y -> rounds (val x + val y) (Prim2SF (x + y)).
Proof.
  intros Fx Fy. rewrite add_spec.
  apply SFadd_rounds; try apply Prim2SF_valid; assumption.
Qed.


Lemma mul_rounds (x y : float) :
  finite x -> finite y -> rounds (val x * val y) (Prim2SF (x * y)).
Proof.
  intros Fx Fy. rewrite mul_spec.
  apply SFmul_rounds; try apply Prim2SF_valid; assumption.
Qed.

Lemma div_rounds (x y : float) :
  finite x -> finite y -> val y <> 0 -> rounds (val x / val y) (Prim2SF (x / y)).
Proof.
  intros Fx Fy NZ. rewrite div_spec. unfold val, finite in *.
  pose proof (Prim2SF_valid x) as Vx'.
  destruct (Prim2SF y) as [s | s | | s m e]; try discriminate.
  - cbn [Vx] in NZ. lra.
  - apply SFdiv_rounds; assumption.
Qed.

(** Rounding is monotone, on numbers. *)
Lemma rounds_leb (S1 S2 : R) (x y : float) :
  rounds S1 (Prim2SF x) -> rounds S2 (Prim2SF y) -> S1 <= S2 ->
  (x <=? y)%float = true.
Proof.
  intros R1 R2 Le. rewrite leb_spec.
  apply (rounds_SFleb S1 S2); try apply Prim2SF_valid; assumption.
Qed.

Lemma rounds_self_val (x : float) : finite x -> rounds (val x) (Prim2SF x).
Proof. intros F. apply rounds_self; [apply Prim2SF_valid | exact F]. Qed.

Lemma rounds_nonneg (S : R) (x : float) :
  rounds S (Prim2SF x) -> 0 <= S -> nonneg x.
Proof.
  intros Rd P. split; [exact (rounds_not_nan _ _ Rd) |].
  assert (Z : rounds 0 (S754_zero false)) by (left; split; [reflexivity | now exists false]).
  change 0 with (Vx (S754_zero false)) at 1.
  apply (rounds_mono 0 S); try apply Prim2SF_valid; try assumption. reflexivity.
Qed.

End FloatFacts.

(** ** JavaScript numbers: the operations are monotone *)

Section MonotoneFacts.

Import Binary64.

Local Open Scope R_scope.

Lemma finite_val_lt (x : float) : finite x -> - bpow 1024 < val x < bpow 1024.
Proof.
  unfold finite, val. pose proof (Prim2SF_valid x) as V. pose proof (bpow_pos 1024) as T.
  destruct (Prim2SF x) as [s | s | | s m e]; cbn [Vx valid_binary finite_sf] in *;
    intros F; try discriminate; try lra.
  pose proof (finite_below_top m e V). pose proof (finite_pos m e).
  destruct s; cbn [sgn]; lra.
Qed.

Lemma not_nan_bounded_finite (x : float) :
  is_nan_sf (Prim2SF x) = false -> - bpow 1024 < val x < bpow 1024 -> finite x.
Proof.
  intros N B. destruct (finite_or_infinite x N) as [F | [I | I]]; [exact F | |];
    unfold val in B; rewrite I in B; cbn [Vx sgn] in B; lra.
Qed.

Lemma val_infinity (x : float) (s : bool) :
  Prim2SF x = S754_infinity s -> val x = sgn s * bpow 1024.
Proof. unfold val. now intros ->. Qed.

Lemma nonneg_not_nan (x : float) : nonneg x -> is_nan_sf (Prim2SF x) = false.
Proof. now intros [N _]. Qed.


Lemma leb_infinity (x y : float) :
  is_nan_sf (Prim2SF x) = false -> Prim2SF y = S754_infinity false ->
  (x <=? y)%float = true.
Proof.
  intros N I. apply val_leb; [exact N | now rewrite I |].
  rewrite (val_infinity y false I). cbn [sgn]. pose proof (val_range x). lra.
Qed.

Lemma neg_infinity_leb (x y : float) :
  Prim2SF x = S754_infinity true -> is_nan_sf (Prim2SF y) = false ->
  (x <=? y)%float = true.
Proof.
  intros I N. apply val_leb; [now rewrite I | exact N |].
  rewrite (val_infinity x true I). cbn [sgn]. pose proof (val_range y). lra.
Qed.

Lemma leb_same (x y : float) :
  is_nan_sf (Prim2SF x) = false -> Prim2SF x = Prim2SF y -> (x <=? y)%float = true.
Proof.
  intros N E. apply val_leb; [exact N | now rewrite <- E |].
  unfold val. rewrite E. lra.
Qed.

Lemma add_infinity (x y : float) (s : bool) :
  finite x -> Prim2SF y = S754_infinity s -> Prim2SF (x + y) = S754_infinity s.
Proof.
  unfold finite. intros F I. rewrite add_spec, I.
  now destruct (Prim2SF x).
Qed.

Lemma add_not_nan (x y : float) :
  finite x -> is_nan_sf (Prim2SF y) = false -> is_nan_sf (Prim2SF (x + y)) = false.
Proof.
  intros F N. destruct (finite_or_infinite y N) as [Fy | [I | I]].
  - exact (rounds_not_nan _ _ (add_rounds x y F Fy)).
  - now rewrite (add_infinity x y false F I).
  - now rewrite (add_infinity x y true F I).
Qed.

(** Adding more gives no less. *)
Lemma add_le (x y1 y2 : float) :
  finite x -> (y1 <=? y2)%float = true -> (x + y1 <=? x + y2)%float = true.
Proof.
  intros F Le. destruct (leb_val y1 y2 Le) as (N1 & N2 & V).
  destruct (finite_or_infinite y2 N2) as [F2 | [I2 | I2]].
  - destruct (finite_or_infinite y1 N1) as [F1 | [I1 | I1]].
    + apply (rounds_leb (val x + val y1) (val x + val y2));
        [now apply add_rounds | now apply add_rounds | lra].
    + pose proof (finite_val_lt y2 F2). rewrite (val_infinity y1 false I1) in V.
      cbn [sgn] in V. lra.
    + apply neg_infinity_leb; [now apply add_infinity | now apply add_not_nan].
  - apply leb_infinity; [now apply add_not_nan | now apply add_infinity].
  - rewrite (val_infinity y2 true I2) in V. cbn [sgn] in V.
    pose proof (val_bottom y1 N1 ltac:(lra)) as I1.
    apply leb_same; [now apply add_not_nan |].
    now rewrite (add_infinity x y1 true F I1), (add_infinity x y2 true F I2).
Qed.

Lemma sub_add_opp (x y : float) : (x - y = x + - y)%float.
Proof.
  apply Prim2SF_inj. rewrite sub_spec, add_spec, opp_spec.
  apply SFsub_SFadd.
Qed.

Lemma val_opp (x : float) : val (- x) = - val x.
Proof. unfold val. rewrite opp_spec. apply Vx_SFopp. Qed.

Lemma opp_not_nan (x : float) :
  is_nan_sf (Prim2SF (- x)) = is_nan_sf (Prim2SF x).
Proof. rewrite opp_spec. apply is_nan_SFopp. Qed.

Lemma opp_le (x y : float) :
  (x <=? y)%float = true -> (- y <=? - x)%float = true.
Proof.
  intros Le. destruct (leb_val x y Le) as (N1 & N2 & V).
  apply val_leb; rewrite ?opp_not_nan, ?val_opp; try assumption. lra.
Qed.

(** Subtracting more gives no more. *)
Lemma sub_le (x y1 y2 : float) :
  finite x -> (y1 <=? y2)%float = true -> (x - y2 <=? x - y1)%float = true.
Proof.
  intros F Le. rewrite !sub_add_opp. apply add_le; [exact F |]. now apply opp_le.
Qed.

(** A number lies between itself minus and itself plus a number that is
    not negative. *)
Lemma around (x h : float) :
  finite x -> nonneg h ->
  (x - h <=? x)%float = true /\ (x <=? x + h)%float = true.
Proof.
  intros F [N P].
  assert (Up : forall k, is_nan_sf (Prim2SF k) = false -> 0 <= val k ->
                         (x <=? x + k)%float = true).
  { intros k Nk Pk. destruct (finite_or_infinite k Nk) as [Fk | [I | I]].
    - apply (rounds_leb (val x) (val x + val k));
        [now apply rounds_self_val | now apply add_rounds | lra].
    - apply leb_infinity; [now apply finite_not_nan | now apply add_infinity].
    - pose proof (bpow_pos 1024). rewrite (val_infinity k true I) in Pk.
      cbn [sgn] in Pk. lra. }
  split; [| now apply Up].
  rewrite sub_add_opp.
  destruct (finite_or_infinite h N) as [Fh | [I | I]].
  - assert (Fo : finite (- h)%float).
    { unfold finite. rewrite opp_spec, finite_SFopp. exact Fh. }
    apply (rounds_leb (val x + val (- h)%float) (val x));
      [now apply add_rounds | now apply rounds_self_val |].
    rewrite val_opp. lra.
  - apply neg_infinity_leb; [| now apply finite_not_nan].
    apply add_infinity; [exact F |]. now rewrite opp_spec, I.
  - pose proof (bpow_pos 1024). rewrite (val_infinity h true I) in P.
    cbn [sgn] in P. lra.
Qed.

Lemma positive_sign (x : float) :
  finite x -> 0 < val x -> exists m e, Prim2SF x = S754_finite false m e.
Proof.
  unfold finite, val. destruct (Prim2SF x) as [s | s | | s m e]; cbn [Vx finite_sf];
    intros F P; try discriminate; try lra.
  pose proof (finite_pos m e). destruct s; cbn [sgn] in P; [lra |].
  now exists m, e.
Qed.

Lemma mul_infinity (a b : float) :
  finite a -> 0 < val a -> Prim2SF b = S754_infinity false ->
  Prim2SF (a * b) = S754_infinity false.
Proof.
  intros F P I. destruct (positive_sign a F P) as (m & e & E).
  now rewrite mul_spec, E, I.
Qed.

(** The product of a positive number and a number that is not negative
    is not negative, and grows with both. *)
Lemma mul_le (a1 a2 b1 b2 : float) :
  finite a1 -> finite a2 -> 0 < val a1 -> (a1 <=? a2)%float = true ->
  nonneg b1 -> (b1 <=? b2)%float = true ->
  nonneg (a1 * b1) /\ (a1 * b1 <=? a2 * b2)%float = true.
Proof.
  intros F1 F2 P1 La [N1 Q1] Lb.
  destruct (leb_val a1 a2 La) as (_ & _ & Va).
  destruct (leb_val b1 b2 Lb) as (_ & N2 & Vb).
  assert (NN : nonneg (a1 * b1)).
  { destruct (finite_or_infinite b1 N1) as [Fb | [I | I]].
    - apply (rounds_nonneg (val a1 * val b1)); [now apply mul_rounds |].
      apply Rmult_le_pos; lra.
    - split; [now rewrite (mul_infinity a1 b1 F1 P1 I) |].
      unfold val. rewrite (mul_infinity a1 b1 F1 P1 I). cbn [Vx sgn].
      pose proof (bpow_pos 1024). lra.
    - pose proof (bpow_pos 1024). rewrite (val_infinity b1 true I) in Q1.
      cbn [sgn] in Q1. lra. }
  split; [exact NN |].
  destruct (finite_or_infinite b2 N2) as [Fb2 | [I2 | I2]].
  - assert (Fb1 : finite b1).
    { apply not_nan_bounded_finite; [exact N1 |].
      pose proof (finite_val_lt b2 Fb2). pose proof (bpow_pos 1024). lra. }
    apply (rounds_leb (val a1 * val b1) (val a2 * val b2));
      [now apply mul_rounds | now apply mul_rounds |].
    apply Rmult_le_compat; lra.
  - apply leb_infinity; [exact (proj1 NN) |].
    apply mul_infinity; [exact F2 | lra | exact I2].
  - pose proof (bpow_pos 1024). rewrite (val_infinity b2 true I2) in Vb.
    cbn [sgn] in Vb. lra.
Qed.

(** A quotient by a larger positive number is no larger. *)
Lemma div_anti (a d1 d2 : float) :
  finite a -> 0 <= val a -> finite d1 -> finite d2 ->
  0 < val d1 -> (d1 <=? d2)%float = true ->
  nonneg (a / d1) /\ (a / d2 <=? a / d1)%float = true.
Proof.
  intros Fa Pa F1 F2 P1 Le.
  destruct (leb_val d1 d2 Le) as (_ & _ & V).
  assert (R1 : rounds (val a / val d1) (Prim2SF (a / d1)))
    by (apply div_rounds; try assumption; lra).
  assert (R2 : rounds (val a / val d2) (Prim2SF (a / d2)))
    by (apply div_rounds; try assumption; lra).
  split.
  - apply (rounds_nonneg _ _ R1). apply Rmult_le_pos; [lra |].
    apply Rlt_le, Rinv_0_lt_compat. lra.
  - apply (rounds_leb _ _ _ _ R2 R1).
    apply Rmult_le_compat_l; [lra |]. apply Rinv_le_contravar; lra.
Qed.

Lemma div_infinity (t c : float) :
  Prim2SF t = S754_infinity false -> finite c -> 0 < val c ->
  Prim2SF (t / c) = S754_infinity false.
Proof.
  intros I F P. destruct (positive_sign c F P) as (m & e & E).
  now rewrite div_spec, E, I.
Qed.

(** The quotient of a number that is not negative by a positive number is
    not negative, and grows with the number. *)
Lemma div_le (t1 t2 c : float) :
  nonneg t1 -> (t1 <=? t2)%float = true -> finite c -> 0 < val c ->
  nonneg (t1 / c) /\ (t1 / c <=? t2 / c)%float = true.
Proof.
  intros [N1 Q1] Le Fc Pc.
  destruct (leb_val t1 t2 Le) as (_ & N2 & V).
  assert (NN : nonneg (t1 / c)).
  { destruct (finite_or_infinite t1 N1) as [Ft | [I | I]].
    - apply (rounds_nonneg (val t1 / val c)); [apply div_rounds; try assumption; lra |].
      apply Rmult_le_pos; [lra |]. apply Rlt_le, Rinv_0_lt_compat. lra.
    - split; [now rewrite (div_infinity t1 c I Fc Pc) |].
      unfold val. rewrite (div_infinity t1 c I Fc Pc). cbn [Vx sgn].
      pose proof (bpow_pos 1024). lra.
    - pose proof (bpow_pos 1024). rewrite (val_infinity t1 true I) in Q1.
      cbn [sgn] in Q1. lra. }
  split; [exact NN |].
  destruct (finite_or_infinite t2 N2) as [F2 | [I2 | I2]].
  - assert (F1 : finite t1).
    { apply not_nan_bounded_finite; [exact N1 |].
      pose proof (finite_val_lt t2 F2). pose proof (bpow_pos 1024). lra. }
    apply (rounds_leb (val t1 / val c) (val t2 / val c));
      [apply div_rounds; try assumption; lra
      | apply div_rounds; try assumption; lra |].
    apply Rmult_le_compat_r; [| exact V].
    apply Rlt_le, Rinv_0_lt_compat. lra.
  - apply leb_infinity; [exact (proj1 NN) |]. now apply div_infinity.
  - pose proof (bpow_pos 1024). rewrite (val_infinity t2 true I2) in V.
    cbn [sgn] in V. lra.
Qed.

End MonotoneFacts.

(** ** JavaScript numbers: signs and strict order *)

Section SignFacts.

Import Binary64.

Local Open Scope R_scope.

Lemma Vx_SFeqb (f1 f2 : spec_float) :
  valid_binary f1 = true -> valid_binary f2 = true ->
  is_nan_sf f1 = false -> is_nan_sf f2 = false -> Vx f1 = Vx f2 ->
  SFeqb f1 f2 = true.
Proof.
  intros V1 V2 N1 N2 E. unfold SFeqb.
  pose proof (SFcompare_Vx f1 f2 V1 V2) as C.
  destruct (SFcompare f1 f2) as [[] |]; try reflexivity; try lra.
  destruct C; congruence.
Qed.

Lemma val_eqb (x y : float) :
  is_nan_sf (Prim2SF x) = false -> is_nan_sf (Prim2SF y) = false ->
  val x = val y -> (x =? y)%float = true.
Proof.
  intros. rewrite eqb_spec. apply Vx_SFeqb; try apply Prim2SF_valid; assumption.
Qed.


Lemma leb_refl (x : float) :
  is_nan_sf (Prim2SF x) = false -> (x <=? x)%float = true.
Proof. intros N. apply val_leb; try assumption. lra. Qed.

Lemma leb_trans (x y z : float) :
  (x <=? y)%float = true -> (y <=? z)%float = true -> (x <=? z)%float = true.
Proof.
  intros A B. destruct (leb_val x y A) as (N1 & _ & V1).
  destruct (leb_val y z B) as (_ & N3 & V2).
  apply val_leb; try assumption. lra.
Qed.


(** A float found positive and finite by computation. *)
Lemma positive_by_computation (x : float) :
  positive_sf (Prim2SF x) = true -> finite x /\ 0 < val x.
Proof.
  unfold finite, val. destruct (Prim2SF x) as [s | s | | [] m e]; try discriminate.
  intros _. cbn [finite_sf Vx sgn].
  split; [reflexivity |]. pose proof (finite_pos m e). lra.
Qed.

Lemma ltb_zero_pos (x : float) : (0 <? x)%float = true -> 0 < val x.
Proof.
  intros H. destruct (ltb_val _ _ H) as (_ & _ & V).
  unfold val at 1 in V. change (Prim2SF 0) with (S754_zero false) in V. exact V.
Qed.

(** The smallest positive number. *)
Lemma positive_above_least (x : float) :
  finite x -> 0 < val x -> (0x1p-1074 <=? x)%float = true.
Proof.
  intros F P. destruct (positive_sign x F P) as (m & e & E).
  apply val_leb; [reflexivity | now rewrite E |].
  unfold val. rewrite E.
  change (Prim2SF 0x1p-1074) with (S754_finite false 1 (-1074)).
  cbn [Vx sgn].
  pose proof (Prim2SF_valid x) as V. rewrite E in V. cbn [valid_binary] in V.
  destruct (bounded_facts m e V) as (_ & [Lo _] & _).
  apply Rmult_le_compat_l; [lra |].
  apply Rmult_le_compat; [lra | apply Rlt_le, bpow_pos | | apply bpow_le; lia].
  apply IZR_le. lia.
Qed.

Lemma leb_one_finite (x : float) :
  (0 <? x)%float = true -> (x <=? 1)%float = true -> finite x.
Proof.
  intros P L. destruct (ltb_val _ _ P) as (_ & N & V).
  destruct (leb_val _ _ L) as (_ & _ & U).
  apply not_nan_bounded_finite; [exact N |].
  unfold val at 1 in V. change (Prim2SF 0) with (S754_zero false) in V.
  cbn [Vx] in V. pose proof (bpow_pos 1024).
  pose proof (finite_val_lt 1%float ltac:(reflexivity)). lra.
Qed.

End SignFacts.

(** ** JavaScript numbers: intervals around a number *)

Section IntervalFacts.

Import Binary64.

Local Open Scope float_scope.




End IntervalFacts.


(** ** JavaScript numbers: the error of one rounding *)

Section ErrorFacts.

Import Binary64.

Local Open Scope R_scope.



Local Open Scope float_scope.


End ErrorFacts.

(** ** JavaScript numbers: opposites *)

Section MirrorFacts.

Import Binary64.

Local Open Scope float_scope.

Lemma binary_round_aux_opp (s : bool) (m e : Z) (l : location) :
  binary_round_aux prec emax (negb s) m e l
  = SFopp (binary_round_aux prec emax s m e l).
Proof.
  unfold binary_round_aux.
  destruct (shr_fexp prec emax m e l) as [mrs e'].
  destruct (shr_fexp prec emax _ e' loc_Exact) as [mrs' e''].
  destruct (shr_m mrs'); try reflexivity.
  now destruct (Z.leb e'' (emax - prec)).
Qed.

Lemma xorb_negb_l (a b : bool) : xorb (negb a) b = negb (xorb a b).
Proof. now destruct a, b. Qed.

Lemma SFmul_opp (x y : spec_float) :
  SFmul prec emax (SFopp x) y = SFopp (SFmul prec emax x y).
Proof.
  destruct x as [sx | sx | | sx mx ex], y as [sy | sy | | sy my ey];
    cbn [SFmul SFopp]; rewrite ?xorb_negb_l; try reflexivity.
  apply binary_round_aux_opp.
Qed.

Lemma SFdiv_opp (x y : spec_float) :
  SFdiv prec emax (SFopp x) y = SFopp (SFdiv prec emax x y).
Proof.
  destruct x as [sx | sx | | sx mx ex], y as [sy | sy | | sy my ey];
    cbn [SFdiv SFopp]; rewrite ?xorb_negb_l; try reflexivity.
  destruct (SFdiv_core_binary prec emax (Zpos mx) ex (Zpos my) ey) as [[q e'] l].
  apply binary_round_aux_opp.
Qed.

Lemma mul_opp (x y : float) : (- x) * y = - (x * y).
Proof.
  apply Prim2SF_inj. rewrite mul_spec, !opp_spec, mul_spec. apply SFmul_opp.
Qed.

Lemma div_opp (x y : float) : (- x) / y = - (x / y).
Proof.
  apply Prim2SF_inj. rewrite div_spec, !opp_spec, div_spec. apply SFdiv_opp.
Qed.

Lemma rounds_opp (S : R) (f : spec_float) : rounds S f -> rounds (- S) (SFopp f).
Proof.
  assert (Flip : forall s rv g, repr s rv g -> repr (negb s) rv (SFopp g)).
  { intros s rv g [[-> ->] | [(m & e & -> & ->) | [-> Big]]].
    - now left.
    - right; left. now exists m, e.
    - right; right. now split. }
  intros [[-> [s ->]] | [[P (rv & N & H)] | [P (rv & N & H)]]].
  - left. split; [lra | now exists (negb s)].
  - right; right. split; [lra |]. exists rv.
    split; [now replace (- - S)%R with S by lra | exact (Flip _ _ _ H)].
  - right; left. split; [lra |]. exists rv. split; [exact N | exact (Flip _ _ _ H)].
Qed.

(** Mirroring both terms mirrors the sum (the sign of a zero apart). *)
Lemma opp_sub_eqb (x h : float) :
  finite x -> is_nan_sf (Prim2SF h) = false ->
  ((- x) - h =? - (x + h)) = true /\ ((- x) + h =? - (x - h)) = true.
Proof.
  intros F N.
  assert (Fo : finite (- x)) by (unfold finite; now rewrite opp_spec, finite_SFopp).
  assert (Key : forall k, is_nan_sf (Prim2SF k) = false ->
                          ((- x) + - k =? - (x + k)) = true).
  { intros k Nk. destruct (finite_or_infinite k Nk) as [Fk | [I | I]].
    - assert (Fk' : finite (- k)) by (unfold finite; now rewrite opp_spec, finite_SFopp).
      pose proof (add_rounds (- x) (- k) Fo Fk') as R1.
      pose proof (add_rounds x k F Fk) as R2. apply rounds_opp in R2.
      rewrite <- opp_spec in R2. rewrite !val_opp in R1.
      replace (- val x + - val k)%R with (- (val x + val k))%R in R1 by lra.
      apply val_eqb.
      + exact (rounds_not_nan _ _ R1).
      + exact (rounds_not_nan _ _ R2).
      + apply Rle_antisym;
          [ apply (rounds_mono _ _ _ _ R1 R2) | apply (rounds_mono _ _ _ _ R2 R1) ];
          try apply Prim2SF_valid; lra.
    - apply val_eqb.
      + rewrite (add_infinity (- x) (- k) true Fo); [reflexivity |].
        now rewrite opp_spec, I.
      + now rewrite opp_spec, (add_infinity x k false F I).
      + unfold val. rewrite (add_infinity (- x) (- k) true Fo) by (now rewrite opp_spec, I).
        now rewrite opp_spec, (add_infinity x k false F I).
    - apply val_eqb.
      + rewrite (add_infinity (- x) (- k) false Fo); [reflexivity |].
        now rewrite opp_spec, I.
      + now rewrite opp_spec, (add_infinity x k true F I).
      + unfold val. rewrite (add_infinity (- x) (- k) false Fo) by (now rewrite opp_spec, I).
        now rewrite opp_spec, (add_infinity x k true F I). }
  split.
  - rewrite sub_add_opp. now apply Key.
  - assert (No : is_nan_sf (Prim2SF (- h)) = false) by (now rewrite opp_not_nan).
    pose proof (Key (- h) No) as K.
    assert (Inv : - - h = h).
    { apply Prim2SF_inj. rewrite !opp_spec. now destruct (Prim2SF h) as [[] | [] | | [] m e]. }
    rewrite Inv in K. now rewrite (sub_add_opp x h).
Qed.

End MirrorFacts.

(** ** The bounding box *)

Section GeoFacts.

Import Binary64 Geo.

Variable cos : float -> float.

Local Open Scope float_scope.

(** The half-extents of the box, as [bbox] computes them. *)
Lemma bbox_edges (lat lon scaleKm : float) :
  bbox cos (Some (lat, lon)) scaleKm
  = Some {| south := lat - (scaleKm * (1 / 110.574)) / 2;
            north := lat + (scaleKm * (1 / 110.574)) / 2;
            west := lon - (scaleKm * (1 / (111.320 * cos ((lat * 3.141592653589793) / 180)))) / 2;
            east := lon + (scaleKm * (1 / (111.320 * cos ((lat * 3.141592653589793) / 180)))) / 2 |}.
Proof. reflexivity. Qed.

(** The latitude half-extent is not negative and grows with the scale. *)
Lemma halfLat_le (s1 s2 : float) :
  is_finite s1 = true -> is_finite s2 = true ->
  (0 <? s1) = true -> (s1 <=? s2) = true ->
  nonneg ((s1 * (1 / 110.574)) / 2)
  /\ ((s1 * (1 / 110.574)) / 2 <=? (s2 * (1 / 110.574)) / 2) = true.
Proof.
  intros F1 F2 P L.
  apply is_finite_finite in F1, F2. apply ltb_zero_pos in P.
  assert (K : nonneg (1 / 110.574)).
  { split; [reflexivity |].
    destruct (positive_by_computation (1 / 110.574) eq_refl).
    lra. }
  destruct (mul_le s1 s2 (1 / 110.574) (1 / 110.574) F1 F2 P L K eq_refl) as [N M].
  destruct (positive_by_computation 2 eq_refl) as [F P2].
  exact (div_le _ _ 2 N M F P2).
Qed.

(** What [1 / (111.320 * c)] is for a cosine [c] in (0, 1]: not negative,
    and no smaller for a smaller cosine. *)
Lemma degLonPerKm_le (c1 c2 : float) :
  (0 <? c2) = true -> (c2 <=? c1) = true -> (c1 <=? 1) = true ->
  nonneg (1 / (111.320 * c1))
  /\ (1 / (111.320 * c1) <=? 1 / (111.320 * c2)) = true.
Proof.
  intros P2 L U.
  destruct (leb_val _ _ L) as (N2 & N1 & V).
  pose proof (ltb_zero_pos c2 P2) as Q2.
  assert (P1 : (0 <? c1) = true).
  { apply val_ltb; [reflexivity | exact N1 |].
    unfold val at 1. change (Prim2SF 0) with (S754_zero false). cbn [Vx].
    exact (Rlt_le_trans _ _ _ Q2 V). }
  pose proof (leb_one_finite c1 P1 U) as F1.
  pose proof (leb_one_finite c2 P2 (leb_trans _ _ _ L U)) as F2.
  destruct (positive_by_computation 111.320 eq_refl) as [Fa Pa].
  assert (D : forall c, finite c -> (0 <? c) = true -> (c <=? 1) = true ->
                        finite (111.320 * c) /\ (0 < val (111.320 * c))%R).
  { intros c Fc Pc Uc. pose proof (ltb_zero_pos c Pc) as Qc.
    pose proof (positive_above_least c Fc Qc) as Least.
    destruct (mul_le 111.320 111.320 0x1p-1074 c Fa Fa Pa eq_refl) as [_ Lo];
      [split; [reflexivity |] | exact Least |].
    { destruct (positive_by_computation 0x1p-1074 eq_refl). lra. }
    destruct (mul_le 111.320 111.320 c 1 Fa Fa Pa eq_refl) as [Nn Hi];
      [split; [now apply finite_not_nan | lra] | exact Uc |].
    destruct (leb_val _ _ Lo) as (_ & _ & VLo).
    destruct (leb_val _ _ Hi) as (_ & _ & VHi).
    destruct (positive_by_computation (111.320 * 0x1p-1074) eq_refl) as [_ PLo].
    pose proof (finite_val_lt (111.320 * 1) ltac:(reflexivity)) as [_ Top].
    split; [| lra].
    apply not_nan_bounded_finite; [exact (proj1 Nn) |].
    pose proof (bpow_pos 1024). lra. }
  destruct (D c1 F1 P1 U) as [Fd1 Pd1].
  destruct (D c2 F2 P2 (leb_trans _ _ _ L U)) as [Fd2 Pd2].
  destruct (positive_by_computation 1 eq_refl) as [Fone Pone].
  destruct (mul_le 111.320 111.320 c2 c1 Fa Fa Pa eq_refl) as [_ Ld];
    [split; [exact N2 | lra] | exact L |].
  destruct (div_anti 1 (111.320 * c2) (111.320 * c1) Fone ltac:(lra) Fd2 Fd1 Pd2 Ld)
    as [_ Anti].
  split; [| exact Anti].
  destruct (div_anti 1 (111.320 * c1) (111.320 * c1) Fone ltac:(lra) Fd1 Fd1 Pd1) as [Nn _];
    [apply leb_refl; now apply finite_not_nan | exact Nn].
Qed.

(** The longitude half-extent is not negative, grows with the scale and is
    no smaller for a smaller cosine. *)
Lemma halfLon_le (s1 s2 c1 c2 : float) :
  is_finite s1 = true -> is_finite s2 = true ->
  (0 <? s1) = true -> (s1 <=? s2) = true ->
  (0 <? c2) = true -> (c2 <=? c1) = true -> (c1 <=? 1) = true ->
  nonneg ((s1 * (1 / (111.320 * c1))) / 2)
  /\ ((s1 * (1 / (111.320 * c1))) / 2 <=? (s2 * (1 / (111.320 * c2))) / 2) = true.
Proof.
  intros F1 F2 P L Pc Lc Uc.
  apply is_finite_finite in F1, F2. apply ltb_zero_pos in P.
  destruct (degLonPerKm_le c1 c2 Pc Lc Uc) as [K Kle].
  destruct (mul_le s1 s2 _ _ F1 F2 P L K Kle) as [N M].
  destruct (positive_by_computation 2 eq_refl) as [F P2].
  exact (div_le _ _ 2 N M F P2).
Qed.



End GeoFacts.

Section GeoRuns.

Import Geo GeoScenario.

Local Open Scope float_scope.





End GeoRuns.

(** ** The imagery request *)

Section WvsFacts.

Import Wvs.

Lemma free_app (sep : ascii) (s t : string) :
  free sep (s ++ t) = free sep s && free sep t.
Proof.
  induction s as [| c s IH]; simpl; [reflexivity |].
  now rewrite IH, andb_assoc.
Qed.

(** Byte by byte, decoding undoes encoding. *)
Lemma urldecode_encodeByte (c : ascii) (rest : string) :
  urldecode (encodeByte c ++ rest) = String c (urldecode rest).
Proof.
  destruct c as [[] [] [] [] [] [] [] []]; reflexivity.
Qed.

(** An encoded byte is neither [&] nor [=]. *)
Lemma encodeByte_free (c : ascii) :
  free "&"%char (encodeByte c) = true /\ free "="%char (encodeByte c) = true.
Proof.
  destruct c as [[] [] [] [] [] [] [] []]; split; reflexivity.
Qed.

Lemma urldecode_urlencode (s : string) : urldecode (urlencode s) = s.
Proof.
  induction s as [| c s IH]; simpl; [reflexivity |].
  now rewrite urldecode_encodeByte, IH.
Qed.

Lemma urlencode_free (s : string) :
  free "&"%char (urlencode s) = true /\ free "="%char (urlencode s) = true.
Proof.
  induction s as [| c s [IH1 IH2]]; simpl; [now split |].
  rewrite !free_app, IH1, IH2.
  destruct (encodeByte_free c) as [-> ->]. now split.
Qed.

Lemma nameValue_app (n v : string) :
  free "="%char n = true -> nameValue (n ++ String "="%char v) = (n, v).
Proof.
  induction n as [| c n IH]; simpl; [reflexivity |].
  intros F. apply andb_prop in F as [Ne F].
  destruct (Ascii.eqb c "=") eqn:E; [discriminate |].
  now rewrite (IH F).
Qed.

Lemma splitOn_app (sep : ascii) (s t : string) :
  free sep s = true ->
  splitOn sep (s ++ String sep t) = s :: splitOn sep t.
Proof.
  induction s as [| c s IH]; simpl.
  - now rewrite Ascii.eqb_refl.
  - intros F. apply andb_prop in F as [Ne F].
    destruct (Ascii.eqb c sep); [discriminate |].
    now rewrite (IH F).
Qed.

Lemma splitOn_free (sep : ascii) (s : string) :
  free sep s = true -> splitOn sep s = [s].
Proof.
  induction s as [| c s IH]; simpl; [reflexivity |].
  intros F. apply andb_prop in F as [Ne F].
  destruct (Ascii.eqb c sep); [discriminate |].
  now rewrite (IH F).
Qed.

(** Splitting undoes joining when no piece holds the separator. *)
Lemma splitOn_join (sep : ascii) (pieces : list string) :
  pieces <> [] ->
  Forall (fun p => free sep p = true) pieces ->
  splitOn sep (join (String sep EmptyString) pieces) = pieces.
Proof.
  induction pieces as [| p ps IH]; [congruence |].
  intros _ F. inversion F as [| ? ? Fp Fps]; subst.
  destruct ps as [| q qs].
  - simpl. now apply splitOn_free.
  - change (join (String sep EmptyString) (p :: q :: qs))
      with (p ++ String sep (join (String sep EmptyString) (q :: qs)))%string.
    rewrite splitOn_app by exact Fp.
    f_equal. apply IH; [discriminate | exact Fps].
Qed.

Lemma encodePair_spec (kv : string * string) :
  free "&"%char (encodePair kv) = true
  /\ truthy_string (encodePair kv) = true
  /\ nameValue (encodePair kv) = (urlencode (fst kv), urlencode (snd kv)).
Proof.
  unfold encodePair.
  destruct (urlencode_free (fst kv)) as [A1 E1].
  destruct (urlencode_free (snd kv)) as [A2 _].
  repeat split.
  - now rewrite !free_app, A1, A2.
  - destruct (urlencode (fst kv)); reflexivity.
  - now apply nameValue_app.
Qed.

(** A serialized query reads back as the pairs it was made from, in their
    order. *)
Lemma parseQuery_serialize (ps : list (string * string)) :
  parseQuery (serialize ps) = ps.
Proof.
  unfold parseQuery, serialize.
  destruct ps as [| p ps]; [reflexivity |].
  rewrite splitOn_join.
  - induction (p :: ps) as [| kv l IH]; [reflexivity |].
    cbn [map filter].
    destruct (encodePair_spec kv) as (_ & T & NV).
    rewrite T. cbn [map]. rewrite NV, !urldecode_urlencode, IH.
    now destruct kv.
  - discriminate.
  - apply Forall_forall. intros x In. apply in_map_iff in In as (kv & <- & _).
    apply encodePair_spec.
Qed.

Variable numberToString : float -> string.

(** C8: [buildWvsUrl] is a function of its argument alone, and what it
    returns is the snapshot endpoint followed by one query string that
    holds exactly eight fields, in this order: the request type, the date
    given, the box given as "south,west,north,east", the coordinate
    reference system EPSG:4326, the layers given, joined by commas in
    their order, the format given, the width given and the height given;
    read back, the query string gives these eight pairs.  Where the caller
    leaves the layers out they are the true-color composite followed by
    the coastlines; a format left out is PNG, a width left out 1600, a
    height left out 900. *)
Theorem buildWvsUrl_request (s w n e : float) (day : string)
  (wd ht : option float) (ls : option (list string)) (fmt : option string) :
  let fields :=
    [ ("REQUEST", "GetSnapshot");
      ("TIME", day);
      ("BBOX", (numberToString s ++ "," ++ numberToString w ++ ","
                ++ numberToString n ++ "," ++ numberToString e)%string);
      ("CRS", "EPSG:4326");
      ("LAYERS", join "," match ls with
                          | Some given => given
                          | None => ["MODIS_Terra_CorrectedReflectance_TrueColor";
                                     "Coastlines"]
                          end);
      ("FORMAT", match fmt with
                 | Some given => given
                 | None => "image/png"
                 end);
      ("WIDTH", numberToString match wd with
                               | Some given => given
                               | None => 1600%float
                               end);
      ("HEIGHT", numberToString match ht with
                                | Some given => given
                                | None => 900%float
                                end) ] in
  buildWvsUrl numberToString
    {| south := s; west := w; north := n; east := e; date := day;
       width := wd; height := ht; layers := ls; format := fmt |}
  = ("https://wvs.earthdata.nasa.gov/api/v1/snapshot?" ++ serialize fields)%string
  /\ parseQuery (serialize fields) = fields.
Proof.
  intros fields. split; [| apply parseQuery_serialize].
  unfold buildWvsUrl, params, fields.
  now destruct wd, ht, ls, fmt.
Qed.

End WvsFacts.

(** ** The chips *)

Section ChipFacts.

Import Compositor.

Variable intlFormat : float -> string.
Variable numberToString : float -> string.
Variable toLocaleDateString : string -> string.
Variable measureText : string -> float.

(** A truthy number is not [NaN], so [formatNumber] prints it. *)
Lemma truthy_number_not_nan (x : float) :
  truthy_number x = true -> PrimFloat.eqb x x = true.
Proof. unfold truthy_number. intros H. now apply andb_prop in H. Qed.

(** The drawing loop draws the chips it is given, first to last. *)
Lemma drawChips_texts (x : float) (cs : list string) :
  map text (drawChips measureText x cs) = cs.
Proof.
  revert x. induction cs as [| c cs IH]; intros x; cbn [drawChips map text].
  - reflexivity.
  - now rewrite IH.
Qed.

(** The drawing loop sets the pills side by side: the first at [x], each
    as wide as its text and its padding, the next one 10 further. *)
Lemma drawChips_inRow (x : float) (cs : list string) :
  inRow measureText x (drawChips measureText x cs).
Proof.
  revert x. induction cs as [| c cs IH]; intros x; cbn [drawChips inRow].
  - exact I.
  - cbn [left pillWidth text]. split; [reflexivity |]. split; [reflexivity |].
    apply IH.
Qed.

(** C9 (the code departs from the claim): for facts whose population is 0,
    a population that is present, the chips are the elevation chip, if
    there is an elevation, and the date chip: the population chip the
    claim asks for is missing (an elevation of 0 does get its chip).  The
    rest of the claim holds.  For every fact set the chips are, in this
    order, the population chip if the population is defined and truthy
    (neither 0 nor [NaN]), the elevation chip if the elevation is defined,
    and the date chip; the loop draws exactly these, left to right from 72
    on, each pill as wide as its text and its padding and the next pill 10
    after it, so that a missing chip leaves no gap; and for
    [{ population: 37000000, elev: undefined }] the chips are the
    population chip and the date chip. *)
Theorem zero_population_chip_is_dropped
  (l c : option string) (e : option float) (date : string) (g : Facts) :
  let f := {| label := l; country := c; population := Some 0%float; elev := e |} in
  let elevation :=
    match e with
    | Some v => [("標高 " ++ numberToString v ++ "m")%string]
    | None => []
    end in
  chips intlFormat numberToString toLocaleDateString f date
  = elevation ++ [toLocaleDateString date]
  /\ chips_stated intlFormat numberToString toLocaleDateString f date
     = ("人口 " ++ intlFormat 0%float ++ "人")%string
         :: elevation ++ [toLocaleDateString date]
  /\ chips intlFormat numberToString toLocaleDateString f date
     <> chips_stated intlFormat numberToString toLocaleDateString f date
  /\ chips intlFormat numberToString toLocaleDateString
       {| label := l; country := c; population := None; elev := Some 0%float |} date
     = [("標高 " ++ numberToString 0%float ++ "m")%string; toLocaleDateString date]
  /\ chips intlFormat numberToString toLocaleDateString g date
     = (match population g with
        | Some p =>
            if truthy_number p
            then [("人口 " ++ intlFormat p ++ "人")%string]
            else []
        | None => []
        end)
       ++ (match elev g with
           | Some v => [("標高 " ++ numberToString v ++ "m")%string]
           | None => []
           end)
       ++ [toLocaleDateString date]
  /\ map text (chipRow intlFormat numberToString toLocaleDateString measureText g date)
     = chips intlFormat numberToString toLocaleDateString g date
  /\ inRow measureText 72%float
       (chipRow intlFormat numberToString toLocaleDateString measureText g date)
  /\ chips intlFormat numberToString toLocaleDateString
       {| label := l; country := c; population := Some 37000000%float;
          elev := None |} date
     = [("人口 " ++ intlFormat 37000000%float ++ "人")%string;
        toLocaleDateString date].
Proof.
  intros f elevation.
  assert (Code : chips intlFormat numberToString toLocaleDateString f date
                 = elevation ++ [toLocaleDateString date]).
  { unfold chips, push, f, elevation. cbn. now destruct e. }
  assert (Stated : chips_stated intlFormat numberToString toLocaleDateString f date
                   = ("人口 " ++ intlFormat 0%float ++ "人")%string
                       :: elevation ++ [toLocaleDateString date]).
  { unfold chips_stated, populationChip, formatNumber, f, elevation. cbn.
    now destruct e. }
  split; [exact Code |]. split; [exact Stated |].
  split.
  { rewrite Code, Stated. intros Same.
    apply (f_equal (@List.length string)) in Same. cbn [List.length] in Same. lia. }
  split; [reflexivity |].
  split.
  { unfold chips, hasPopulation, populationChip, elevationChip, push, formatNumber.
    destruct (population g) as [p |]; [destruct (truthy_number p) eqn:T |];
      destruct (elev g) as [v |]; cbn [app template]; try reflexivity;
      rewrite (truthy_number_not_nan p T); reflexivity. }
  split; [apply drawChips_texts |].
  split; [apply drawChips_inRow | reflexivity].
Qed.

End ChipFacts.

(** The failing input of C9, run: facts with a population of zero and no
    elevation give the date chip alone, where the claim has a population
    chip before it. *)
Lemma zero_population_has_no_chip :
  population uninhabited = Some 0%float
  /\ Compositor.chips sampleFormat sampleFormat sampleDate uninhabited "2024/5/1"
     = ["2024/5/1"]
  /\ Compositor.chips_stated sampleFormat sampleFormat sampleDate uninhabited "2024/5/1"
     = ["人口 0人"; "2024/5/1"]
  /\ Compositor.chips sampleFormat sampleFormat sampleDate uninhabited "2024/5/1"
     <> Compositor.chips_stated sampleFormat sampleFormat sampleDate
          uninhabited "2024/5/1".
Proof.
  split; [reflexivity |]. split; [reflexivity |]. split; [reflexivity |].
  vm_compute. discriminate.
Qed.

(** ** The file name *)

Section NameFacts.

Import Download.

Variable isLetter : N -> bool.
Variable isNumber : N -> bool.

(** The first run of a non-empty text starts with its first character and
    has that character's class. *)
Lemma runs_head (c : N) (s : text) :
  exists r more,
    runs isLetter isNumber (c :: s) = (unsafe isLetter isNumber c, c :: r) :: more.
Proof.
  revert c. induction s as [| d s IH]; intros c.
  - now exists [], [].
  - destruct (IH d) as (r & more & E).
    cbn [runs]. cbn [runs] in E. rewrite E.
    destruct (Bool.eqb (unsafe isLetter isNumber d) (unsafe isLetter isNumber c)) eqn:Q.
    + apply Bool.eqb_prop in Q. rewrite Q. now exists (d :: r), more.
    + now exists [], ((unsafe isLetter isNumber d, d :: r) :: more).
Qed.

(** The runs are the text, cut in pieces. *)
Lemma runs_concat (s : text) :
  List.concat (map snd (runs isLetter isNumber s)) = s.
Proof.
  induction s as [| c s IH]; [reflexivity |].
  cbn [runs]. destruct (runs isLetter isNumber s) as [| [b r] more] eqn:E.
  - destruct s as [| d s]; [reflexivity |].
    destruct (runs_head d s) as (r & more & E'). congruence.
  - destruct (Bool.eqb b (unsafe isLetter isNumber c)); cbn in *; now rewrite IH.
Qed.

(** Every character of a run has the class of the run. *)
Lemma runs_homogeneous (s : text) :
  Forall (fun run => Forall (fun c => unsafe isLetter isNumber c = fst run) (snd run))
    (runs isLetter isNumber s).
Proof.
  induction s as [| c s IH]; [constructor |].
  cbn [runs]. destruct (runs isLetter isNumber s) as [| [b r] more].
  - repeat constructor.
  - inversion IH as [| ? ? Hr Hmore]; subst. cbn in Hr.
    destruct (Bool.eqb b (unsafe isLetter isNumber c)) eqn:Q.
    + apply Bool.eqb_prop in Q. constructor; [| exact Hmore].
      cbn. constructor; [now symmetry | exact Hr].
    + constructor; [repeat constructor | exact IH].
Qed.

(** Neighbouring runs differ in class: the runs are maximal. *)
Lemma runs_alternate (s : text) : alternate (runs isLetter isNumber s).
Proof.
  induction s as [| c s IH]; [exact I |].
  cbn [runs]. destruct (runs isLetter isNumber s) as [| [b r] more] eqn:E; [exact I |].
  destruct (Bool.eqb b (unsafe isLetter isNumber c)) eqn:Q.
  - destruct more; [exact I |]. exact IH.
  - split; [| exact IH]. cbn. intros Eq.
    rewrite Eq, Bool.eqb_reflx in Q. discriminate.
Qed.

(** What the regular expression replaces are the maximal runs. *)
Lemma replaceRuns_maximal (s : text) :
  replaceRuns isLetter isNumber s = replaceMaximalRuns isLetter isNumber s.
Proof.
  unfold replaceMaximalRuns.
  induction s as [| c s IH]; [reflexivity |].
  destruct s as [| d s].
  - cbn. now destruct (unsafe isLetter isNumber c).
  - destruct (runs_head d s) as (r & more & E).
    cbn [runs]. cbn [runs] in E, IH. rewrite E in *.
    cbn [map List.concat fst snd] in IH.
    cbn [replaceRuns insideRun] in *.
    destruct (unsafe isLetter isNumber c) eqn:Uc,
             (unsafe isLetter isNumber d) eqn:Ud;
      cbn [Bool.eqb map List.concat fst snd app] in *.
    + injection IH as IH. now rewrite IH.
    + now rewrite <- IH.
    + now rewrite <- IH.
    + now rewrite <- IH.
Qed.

Lemma titleSource_amended_eq (label : option text) (place : text) :
  titleSource label place = titleSource_amended label place.
Proof.
  destruct label as [[| c l] |]; reflexivity.
Qed.

(** C10 (amended): the file name is made from the facts label if it is
    present and not the empty string, else from the query text if that is
    not empty, else from "postcard"; every maximal run of characters that
    are not Unicode letters, Unicode numbers, underscore or hyphen becomes
    one underscore; then come an underscore, the date and ".png". *)
Theorem downloadName_sanitized (label : option text) (place date : text) :
  downloadName isLetter isNumber label place date
  = downloadName_amended isLetter isNumber label place date.
Proof.
  unfold downloadName, downloadName_amended.
  now rewrite replaceRuns_maximal, titleSource_amended_eq.
Qed.

End NameFacts.

(** C10 as stated fails: with the empty string for a label, the name comes
    from the query text, where the claim takes the label that is
    present. *)
Lemma empty_label_falls_back_to_place :
  Download.downloadName Download.asciiLetter Download.asciiDigit
    (Some []) (Download.codes "Tokyo") (Download.codes "2024-05-01")
  = Download.codes "Tokyo_2024-05-01.png"
  /\ Download.downloadName_stated Download.asciiLetter Download.asciiDigit
       (Some []) (Download.codes "Tokyo") (Download.codes "2024-05-01")
     = Download.codes "_2024-05-01.png"
  /\ Download.downloadName Download.asciiLetter Download.asciiDigit
       (Some []) (Download.codes "Tokyo") (Download.codes "2024-05-01")
     <> Download.downloadName_stated Download.asciiLetter Download.asciiDigit
          (Some []) (Download.codes "Tokyo") (Download.codes "2024-05-01").
Proof.
  split; [reflexivity |]. split; [reflexivity |].
  vm_compute. discriminate.
Qed.

(** ** The whole of [onGenerate] *)

Section GenerateFacts.

Variable toLowerCase : string -> string.
Variable Number : string -> float.
Variable w : World.

(** [onGenerate] is the resolver, then the coordinate block or the "not
    found" status, all under the [catch]. *)
Lemma onGenerate_run (place : string) (lang : Lang) (st : State) :
  run w (onGenerate toLowerCase Number place lang) st []
  = orCatch w
      (andThen w
         (run w (placeSearchResolver toLowerCase place lang)
            (with_status statusSearching st) [StatusSet statusSearching])
         (fun title =>
            match title with
            | Some t =>
                if truthy_string t
                then coordinateFactResolver Number t lang
                else setStatus statusNotFound
            | None => setStatus statusNotFound
            end))
      (fun msg => setStatus (statusFailed msg)).
Proof.
  unfold onGenerate. rewrite run_try_catch. cbn [setStatus bind run app].
  now rewrite run_bind.
Qed.

Ltac finish_block :=
  cbn [history finalState result fst snd with_status with_center with_facts
       status center facts];
  rewrite <- ?app_assoc; cbn [app];
  eexists;
  split; [reflexivity |];
  split; [discriminate |];
  split; [reflexivity |];
  split; [reflexivity |];
  split; [reflexivity |];
  split; [reflexivity |];
  split; [cbn; lia |];
  split; [cbn; repeat constructor |];
  split; [cbn; lia |];
  split; [cbn; repeat constructor |];
  unfold settled; cbn [status center facts];
  first [ left; split; [reflexivity | eexists; reflexivity]
        | right; right; left; repeat split; reflexivity
        | right; right; right; eexists; split; reflexivity ].

(** The coordinate block under the [catch], in any world: it returns, it
    makes no search, at most two coordinate lookups, all for the title and
    the first in the requested language, and at most one fact lookup, in
    the requested language; its last act is to set the status it ends
    with. *)
Lemma coordinate_block_run (title : string) (lang : Lang) (st : State)
  (h : list event) :
  let r := orCatch w (run w (coordinateFactResolver Number title lang) st h)
             (fun msg => setStatus (statusFailed msg)) in
  exists h',
    history r = h ++ h'
    /\ h' <> []
    /\ result r = Returned tt
    /\ last h' (StatusSet "") = StatusSet (status (finalState r))
    /\ searches h' = []
    /\ hd_error (coord_lookups h') = Some (title, lang)
    /\ List.length (coord_lookups h') <= 2
    /\ Forall (sameTitle title) (coord_lookups h')
    /\ List.length (facts_lookups h') <= 1
    /\ Forall (sameLang lang) (facts_lookups h')
    /\ settled st (finalState r) (status (finalState r)).
Proof.
  unfold coordinateFactResolver, useCoordinates, wikiTitleToCoordAndQid, wikidataFacts.
  destruct lang; cbn [Lang_eqb negb setStatus setCenter setFacts bind run orCatch];
    repeat (split_fetch;
            cbn [coordinates wikibase_item bind run orCatch
                 qid lat lon setStatus setCenter setFacts]);
    finish_block.
Qed.

Lemma last_app_nonempty {A : Type} (l l' : list A) (d : A) :
  l' <> [] -> last (l ++ l') d = last l' d.
Proof.
  intros NE. induction l as [| a l IH]; [reflexivity |].
  cbn [app]. rewrite <- IH.
  destruct (l ++ l') eqn:E; [| reflexivity].
  apply app_eq_nil in E as [_ E]. congruence.
Qed.

Lemma stages_length (place : string) (lang : Lang) :
  List.length (stages place lang) <= 4.
Proof.
  unfold stages.
  destruct (differs (getSearchTerm place lang) place), lang; cbn; lia.
Qed.

(** X1: whatever the place, the language, the state before and the
    answers of the network (also rejected requests and responses that are
    not ok), a run of [onGenerate] never lets an exception escape, and the
    last thing it does is to set the status it ends with.  That status
    tells how the run went: it is empty and a center is set; or it is the
    "no page found" or the "no coordinates" message and the center and the
    facts are the ones from before the run; or it is the failure message
    built from the exception, and the facts are the ones from before the
    run. *)
Theorem onGenerate_always_settles (place : string) (lang : Lang) (st : State) :
  let r := run w (onGenerate toLowerCase Number place lang) st [] in
  result r = Returned tt
  /\ last (history r) (StatusSet "") = StatusSet (status (finalState r))
  /\ settled st (finalState r) (status (finalState r)).
Proof.
  cbv zeta. rewrite onGenerate_run.
  destruct (placeSearchResolver_run toLowerCase w place lang
              (with_status statusSearching st) [StatusSet statusSearching])
    as (h' & out & R & _).
  rewrite R. clear R.
  assert (NotFound :
    let r := orCatch w
               (run w (setStatus statusNotFound) (with_status statusSearching st)
                  ([StatusSet statusSearching] ++ h'))
               (fun msg => setStatus (statusFailed msg)) in
    result r = Returned tt
    /\ last (history r) (StatusSet "") = StatusSet (status (finalState r))
    /\ settled st (finalState r) (status (finalState r))).
  { cbn [setStatus run orCatch history finalState result fst snd with_status status].
    split; [reflexivity |]. split.
    - rewrite last_app_nonempty by discriminate. reflexivity.
    - right; left. repeat split. }
  destruct out as [[t |] | msg]; cbn [andThen].
  - destruct (truthy_string t); [| exact NotFound].
    destruct (coordinate_block_run t lang (with_status statusSearching st)
                ([StatusSet statusSearching] ++ h'))
      as (h'' & H & NE & Res & Last & _ & _ & _ & _ & _ & _ & Settled).
    split; [exact Res |]. split.
    + rewrite H, last_app_nonempty by exact NE. exact Last.
    + exact Settled.
  - exact NotFound.
  - cbn [setStatus run orCatch history finalState result fst snd with_status status].
    split; [reflexivity |]. split.
    + rewrite last_app_nonempty by discriminate. reflexivity.
    + right; right; right. exists msg. split; reflexivity.
Qed.

(** X2: one run of [onGenerate] makes at most four searches, at most two
    coordinate lookups and at most one fact lookup, whatever the network
    answers.  The fact lookup is made in the requested language, all
    coordinate lookups ask for one and the same title, and every search
    comes before every lookup. *)
Theorem onGenerate_request_budget (place : string) (lang : Lang) (st : State) :
  let h := history (run w (onGenerate toLowerCase Number place lang) st []) in
  List.length (searches h) <= 4
  /\ List.length (coord_lookups h) <= 2
  /\ List.length (facts_lookups h) <= 1
  /\ Forall (sameLang lang) (facts_lookups h)
  /\ (exists title, Forall (sameTitle title) (coord_lookups h))
  /\ (exists h1 h2,
        h = h1 ++ h2
        /\ coord_lookups h1 = [] /\ facts_lookups h1 = [] /\ searches h2 = []).
Proof.
  cbv zeta. rewrite onGenerate_run.
  destruct (placeSearchResolver_run toLowerCase w place lang
              (with_status statusSearching st) [StatusSet statusSearching])
    as (h' & out & R & C & F & _ & [n S] & _).
  rewrite R. clear R.
  assert (S4 : List.length (searches h') <= 4).
  { rewrite S, length_firstn. pose proof (stages_length place lang). lia. }
  assert (Short : forall s,
    let h := history (orCatch w
               (run w (setStatus s) (with_status statusSearching st)
                  ([StatusSet statusSearching] ++ h'))
               (fun msg => setStatus (statusFailed msg))) in
    List.length (searches h) <= 4
    /\ List.length (coord_lookups h) <= 2
    /\ List.length (facts_lookups h) <= 1
    /\ Forall (sameLang lang) (facts_lookups h)
    /\ (exists title, Forall (sameTitle title) (coord_lookups h))
    /\ (exists h1 h2,
          h = h1 ++ h2
          /\ coord_lookups h1 = [] /\ facts_lookups h1 = [] /\ searches h2 = [])).
  { intros s. cbn [setStatus run orCatch history fst snd].
    rewrite !searches_app, !coord_lookups_app, !facts_lookups_app, C, F.
    cbn [searches coord_lookups facts_lookups app List.length].
    rewrite app_nil_r.
    split; [exact S4 |]. split; [lia |]. split; [lia |].
    split; [constructor |]. split; [exists ""; constructor |].
    exists ([StatusSet statusSearching] ++ h'), [StatusSet s].
    rewrite coord_lookups_app, facts_lookups_app, C, F. repeat split. }
  destruct out as [[t |] | msg]; cbn [andThen].
  - destruct (truthy_string t); [| apply Short].
    destruct (coordinate_block_run t lang (with_status statusSearching st)
                ([StatusSet statusSearching] ++ h'))
      as (h'' & H & _ & _ & _ & S0 & _ & C2 & CT & F1 & FL & _).
    rewrite H, !searches_app, !coord_lookups_app, !facts_lookups_app, C, F, S0.
    cbn [searches coord_lookups facts_lookups app]. rewrite app_nil_r.
    split; [exact S4 |]. split; [exact C2 |]. split; [exact F1 |].
    split; [exact FL |]. split; [exists t; exact CT |].
    exists ([StatusSet statusSearching] ++ h'), h''.
    rewrite coord_lookups_app, facts_lookups_app, C, F. repeat split. exact S0.
  - apply Short.
  - apply (Short (statusFailed msg)).
Qed.

End GenerateFacts.

(** ** Particular courses of [onGenerate] *)

(** Every entry of the dictionary maps its key to another text. *)
Lemma placeNameDict_translates (place t : string) :
  own_entry place placeNameDict = Some t -> differs (Text t) place = true.
Proof.
  intros E. apply own_entry_In in E.
  assert (A : Forall (fun kv => differs (Text (snd kv)) (fst kv) = true) placeNameDict)
    by (repeat constructor).
  rewrite Forall_forall in A. apply (A _ E).
Qed.

(** A name every object inherits is looked up as the inherited value. *)
Lemma inherited_not_own (place : string) :
  In place objectPrototypeKeys -> getSearchTerm place ja = Inherited place.
Proof.
  intros H. cbn in H.
  repeat (destruct H as [<- | H]; [reflexivity |]). destruct H.
Qed.

Section FailureFacts.

Variable toLowerCase : string -> string.
Variable Number : string -> float.
Variable w : World.

(** An exception in the first search ends the run. *)
Lemma first_search_throws (place : string) (lang : Lang) (st : State) (msg : string) :
  result (run w (wikiSearchTitle toLowerCase (getSearchTerm place lang) lang)
            (with_status statusSearching st) [StatusSet statusSearching])
  = Thrown msg ->
  run w (onGenerate toLowerCase Number place lang) st []
  = (with_status (statusFailed msg) st,
     [StatusSet statusSearching; Searched (getSearchTerm place lang) lang;
      StatusSet (statusFailed msg)],
     Returned tt).
Proof.
  intros Throws. rewrite onGenerate_run. unfold placeSearchResolver.
  destruct (wikiSearchTitle_run toLowerCase w (getSearchTerm place lang) lang
              (with_status statusSearching st) [StatusSet statusSearching])
    as [out [R _]].
  rewrite R in Throws. cbn in Throws. subst out.
  rewrite run_bind, R. reflexivity.
Qed.

(** X3: when the first search fails (the request is rejected, or the
    response is not ok and the code throws "HTTP error! status: ..."), the
    fallback chain is not tried: the run makes that one search and no other
    request, reports the failure with the message of the exception, and
    leaves the center and the facts as they were. *)
Theorem failed_search_is_not_retried (place : string) (lang : Lang) (st : State)
  (msg : string) :
  searchFailure (search_api w [StatusSet statusSearching]
                   (getSearchTerm place lang) lang) = Some msg ->
  run w (onGenerate toLowerCase Number place lang) st []
  = (with_status (statusFailed msg) st,
     [StatusSet statusSearching; Searched (getSearchTerm place lang) lang;
      StatusSet (statusFailed msg)],
     Returned tt).
Proof.
  intros Fails. apply first_search_throws.
  unfold wikiSearchTitle. cbn [run].
  destruct (search_api w [StatusSet statusSearching] (getSearchTerm place lang) lang)
    as [m | code | rs]; cbn in Fails; try discriminate;
    injection Fails as <-; reflexivity.
Qed.

(** X4: a place named like a property every object inherits from
    [Object.prototype] ("constructor", "toString", ...) cannot be looked up
    in Japanese: [placeNameDict[place]] is the inherited value, no string,
    and as soon as the search has a result the call [q.toLowerCase()]
    throws.  The run ends after that one search with the failure status;
    the place itself is never searched for. *)
Theorem inherited_name_breaks_search (place t : string) (ts : list string) (st : State) :
  In place objectPrototypeKeys ->
  search_api w [StatusSet statusSearching] (Inherited place) ja
  = SearchJson (Some (t :: ts)) ->
  run w (onGenerate toLowerCase Number place ja) st []
  = (with_status (statusFailed "q.toLowerCase is not a function") st,
     [StatusSet statusSearching; Searched (Inherited place) ja;
      StatusSet (statusFailed "q.toLowerCase is not a function")],
     Returned tt).
Proof.
  intros Inh Reply.
  rewrite <- (inherited_not_own place Inh).
  apply first_search_throws.
  rewrite (inherited_not_own place Inh).
  unfold wikiSearchTitle. cbn [run]. rewrite Reply. reflexivity.
Qed.

(** X5: for a key of the dictionary, requested in Japanese, with every
    search coming back empty, the run makes all four searches of the
    fallback chain, in this order: the dictionary's text in Japanese, the
    key in Japanese, the dictionary's text in English, the key in English;
    then it reports that no page was found and changes nothing else. *)
Theorem dictionary_entry_runs_four_stages (place t : string) (st : State) :
  own_entry place placeNameDict = Some t ->
  (forall h q l, emptyResults (search_api w h q l) = true) ->
  run w (onGenerate toLowerCase Number place ja) st []
  = (with_status statusNotFound st,
     [StatusSet statusSearching;
      Searched (Text t) ja; Searched (Text place) ja;
      Searched (Text t) en; Searched (Text place) en;
      StatusSet statusNotFound],
     Returned tt).
Proof.
  intros Entry Empty. rewrite onGenerate_run. unfold placeSearchResolver.
  rewrite (getSearchTerm_entry place t ja Entry), (placeNameDict_translates place t Entry).
  rewrite run_bind, wikiSearchTitle_empty by apply Empty.
  cbn [andThen truthy_opt negb andb Lang_eqb altLang].
  rewrite run_bind, wikiSearchTitle_empty by apply Empty.
  cbn [andThen truthy_opt negb andb].
  rewrite run_bind, wikiSearchTitle_empty by apply Empty.
  cbn [andThen truthy_opt negb andb].
  rewrite run_bind, wikiSearchTitle_empty by apply Empty.
  reflexivity.
Qed.

(** X6: when the first search answers with a non-empty title, no further
    search is made, and the first coordinate lookup asks for exactly that
    title in the requested language. *)
Theorem first_candidate_goes_to_lookup (place : string) (lang : Lang) (st : State)
  (t : string) :
  result (run w (wikiSearchTitle toLowerCase (getSearchTerm place lang) lang)
            (with_status statusSearching st) [StatusSet statusSearching])
  = Returned (Some t) ->
  truthy_string t = true ->
  let h := history (run w (onGenerate toLowerCase Number place lang) st []) in
  searches h = [(getSearchTerm place lang, lang)]
  /\ hd_error (coord_lookups h) = Some (t, lang).
Proof.
  intros Answer Truthy. cbv zeta.
  pose proof (first_candidate_ends_search toLowerCase w place lang
                (with_status statusSearching st) [StatusSet statusSearching]
                (Some t) Answer Truthy) as R.
  rewrite onGenerate_run, R. cbn [andThen]. rewrite Truthy.
  destruct (coordinate_block_run Number w t lang (with_status statusSearching st)
              ([StatusSet statusSearching]
                 ++ [Searched (getSearchTerm place lang) lang]))
    as (h'' & H & _ & _ & _ & S0 & Hd & _).
  rewrite H, !searches_app, !coord_lookups_app, S0. cbn [searches coord_lookups app].
  split; [reflexivity | exact Hd].
Qed.

(** X7: a Japanese request whose page has no coordinates on the Japanese
    Wikipedia and has them on the English one succeeds.  The title found is
    looked up in [ja], then in [en]; the center becomes the English
    coordinates; the facts are fetched for the item of the English page, in
    Japanese, and replace the old ones; the status ends empty.  Nothing
    else happens after the searches. *)
Theorem coordinates_found_in_english (place title : string) (st st1 : State)
  (h1 : list event) (la lo : float) (id : string) (b : binding) :
  run w (placeSearchResolver toLowerCase place ja)
    (with_status statusSearching st) [StatusSet statusSearching]
  = (st1, h1, Returned (Some title)) ->
  truthy_string title = true ->
  noCoordinates (coord_api w (h1 ++ [StatusSet statusLocating]) title ja) = true ->
  coord_api w (h1 ++ [StatusSet statusLocating; CoordLookup title ja]) title en
  = CoordJson (Some {| coordinates := Some (la, lo); wikibase_item := Some id |}) ->
  truthy_string id = true ->
  facts_api w (h1 ++ [StatusSet statusLocating; CoordLookup title ja;
                      CoordLookup title en; CenterSet (la, lo);
                      StatusSet statusFetchingFacts]) id ja
  = FactsJson (Some b) ->
  let found := {| label := itemLabel b;
                  country := countryLabel b;
                  population := num Number (population_value b);
                  elev := num Number (elev_value b) |} in
  run w (onGenerate toLowerCase Number place ja) st []
  = ({| status := ""; center := Some (la, lo); facts := found |},
     h1 ++ [StatusSet statusLocating; CoordLookup title ja; CoordLookup title en;
            CenterSet (la, lo); StatusSet statusFetchingFacts;
            FactsLookup id ja; FactsSet found; StatusSet ""],
     Returned tt).
Proof.
  intros Found Truthy NoJa En Item Row found.
  destruct (onGenerate_resolved toLowerCase Number w place ja st st1 h1 title Found Truthy)
    as (R & _).
  rewrite R. clear R Found.
  unfold coordinateFactResolver, useCoordinates, wikiTitleToCoordAndQid, wikidataFacts.
  cbn [Lang_eqb negb setStatus setCenter setFacts bind run orCatch].
  destruct (coord_api w (h1 ++ [StatusSet statusLocating]) title ja)
    as [? | [[[[? ?] |] ?] |]]; try discriminate NoJa;
    cbn [coordinates bind run orCatch];
    rewrite <- ?app_assoc; cbn [app]; rewrite En;
    cbn [coordinates wikibase_item bind run orCatch qid lat lon];
    rewrite Item; cbn [setStatus setCenter setFacts bind run orCatch];
    rewrite <- ?app_assoc; cbn [app]; rewrite Row;
    cbn [setStatus setFacts bind run orCatch with_status with_center with_facts
         status center facts];
    rewrite <- ?app_assoc; reflexivity.
Qed.

End FailureFacts.

(** The hypothesis of X3 holds for a search answered with status 503: the
    facts of the previous query stay, under the failure status. *)
Lemma failed_search_is_not_retried_witness :
  run downWorld (onGenerate ascii_toLowerCase sampleNumber "Tokyo" en) afterTokyo []
  = (with_status (statusFailed "HTTP error! status: 503") afterTokyo,
     [StatusSet statusSearching; Searched (Text "Tokyo") en;
      StatusSet (statusFailed "HTTP error! status: 503")],
     Returned tt).
Proof.
  apply (failed_search_is_not_retried ascii_toLowerCase sampleNumber downWorld
           "Tokyo" en afterTokyo "HTTP error! status: 503").
  reflexivity.
Defined.

(** The hypotheses of X4 hold for the place "constructor" where the search
    has results. *)
Lemma inherited_name_breaks_search_witness :
  run towerWorld (onGenerate ascii_toLowerCase sampleNumber "constructor" ja) idle []
  = (with_status (statusFailed "q.toLowerCase is not a function") idle,
     [StatusSet statusSearching; Searched (Inherited "constructor") ja;
      StatusSet (statusFailed "q.toLowerCase is not a function")],
     Returned tt).
Proof.
  apply (inherited_name_breaks_search ascii_toLowerCase sampleNumber towerWorld
           "constructor" "Tokyo Tower" ["Tokyo"] idle).
  - left. reflexivity.
  - reflexivity.
Defined.

(** The hypotheses of X5 hold for the key 大阪 where every search is
    empty. *)
Lemma dictionary_entry_runs_four_stages_witness :
  run silentWorld (onGenerate ascii_toLowerCase sampleNumber "大阪" ja) idle []
  = (with_status statusNotFound idle,
     [StatusSet statusSearching;
      Searched (Text "Osaka") ja; Searched (Text "大阪") ja;
      Searched (Text "Osaka") en; Searched (Text "大阪") en;
      StatusSet statusNotFound],
     Returned tt).
Proof.
  apply (dictionary_entry_runs_four_stages ascii_toLowerCase sampleNumber
           silentWorld "大阪" "Osaka" idle).
  - reflexivity.
  - intros h q l. reflexivity.
Defined.

(** The hypotheses of X6 hold for "Atlantis", found by the first search. *)
Lemma first_candidate_goes_to_lookup_witness :
  searches (history (run unchartedWorld
              (onGenerate ascii_toLowerCase sampleNumber "Atlantis" en) idle []))
  = [(Text "Atlantis", en)]
  /\ hd_error (coord_lookups (history (run unchartedWorld
                 (onGenerate ascii_toLowerCase sampleNumber "Atlantis" en) idle [])))
     = Some ("Atlantis", en).
Proof.
  apply (first_candidate_goes_to_lookup ascii_toLowerCase sampleNumber
           unchartedWorld "Atlantis" en idle "Atlantis").
  - reflexivity.
  - reflexivity.
Defined.

(** The hypotheses of X7 hold for Mount Fuji where only the English page
    carries coordinates. *)
Lemma coordinates_found_in_english_witness :
  run splitWorld (onGenerate ascii_toLowerCase sampleNumber "Mount Fuji" ja) afterTokyo []
  = ({| status := "";
        center := Some (35.5, 138.75)%float;
        facts := {| label := Some "富士山"; country := Some "日本";
                    population := None; elev := None |} |},
     [StatusSet statusSearching; Searched (Text "Mount Fuji") ja]
       ++ [StatusSet statusLocating;
           CoordLookup "Mount Fuji" ja; CoordLookup "Mount Fuji" en;
           CenterSet (35.5, 138.75)%float; StatusSet statusFetchingFacts;
           FactsLookup "Q39231" ja;
           FactsSet {| label := Some "富士山"; country := Some "日本";
                       population := None; elev := None |};
           StatusSet ""],
     Returned tt).
Proof.
  apply (coordinates_found_in_english ascii_toLowerCase sampleNumber splitWorld
           "Mount Fuji" "Mount Fuji" afterTokyo
           (with_status statusSearching afterTokyo)
           [StatusSet statusSearching; Searched (Text "Mount Fuji") ja]
           35.5%float 138.75%float "Q39231"
           {| itemLabel := Some "富士山"; countryLabel := Some "日本";
              population_value := None; elev_value := None |});
    reflexivity.
Defined.

(** ** One search call, once more *)

Section SearchCallFacts.

Variable toLowerCase : string -> string.
Variable w : World.

Lemma selectTitle_member (q : string) (results : list string) (t : string) :
  selectTitle toLowerCase q results = Some t -> In t results.
Proof.
  unfold selectTitle, or_else.
  destruct (find (titleMatches toLowerCase q) results) as [m |] eqn:F.
  - cbn [truthy_opt]. destruct (truthy_string m).
    + intros [= <-]. now apply find_some in F.
    + destruct results as [| r rs]; [discriminate |]. intros [= <-]. now left.
  - cbn [truthy_opt]. destruct results as [| r rs]; [discriminate |].
    intros [= <-]. now left.
Qed.

(** X8: [wikiSearchTitle] makes nothing up.  It returns [undefined] only
    when the reply has no results (none, or an empty list); a title it
    returns is the title of one of the results of the reply; and it throws
    only for a reply that is a failure or has results. *)
Theorem wikiSearchTitle_answers_from_reply (q : searchTerm) (l : Lang)
  (st : State) (h : list event) :
  match result (run w (wikiSearchTitle toLowerCase q l) st h) with
  | Returned None => emptyResults (search_api w h q l) = true
  | Returned (Some t) =>
      exists results,
        search_api w h q l = SearchJson (Some results) /\ In t results
  | Thrown _ => emptyResults (search_api w h q l) = false
  end.
Proof.
  unfold wikiSearchTitle. cbn [run result snd].
  destruct (search_api w h q l) as [msg | code | [[| r rs] |]]; cbn; try reflexivity.
  destruct q as [s | key]; cbn; [| reflexivity].
  destruct (selectTitle toLowerCase s (r :: rs)) as [t |] eqn:S.
  - exists (r :: rs). split; [reflexivity |]. now apply selectTitle_member in S.
  - apply selectTitle_none in S. discriminate.
Qed.

Lemma find_first {A : Type} (f : A -> bool) (before after : list A) (x : A) :
  Forall (fun b => f b = false) before -> f x = true ->
  find f (before ++ x :: after) = Some x.
Proof.
  intros No Yes. induction No as [| b bs Nb _ IH]; cbn.
  - now rewrite Yes.
  - now rewrite Nb.
Qed.

(** X9: among the results of a search, the title chosen is the first one
    that, lower-cased, contains the lower-cased query, whatever comes after
    it (also a title equal to the query), given that this title is not
    empty. *)
Theorem selectTitle_takes_first_containing (q t : string) (before after : list string) :
  Forall (fun b => includes (toLowerCase b) (toLowerCase q) = false) before ->
  includes (toLowerCase t) (toLowerCase q) = true ->
  truthy_string t = true ->
  selectTitle toLowerCase q (before ++ t :: after) = Some t.
Proof.
  intros No Yes Named. rewrite selectTitle_first_containing.
  unfold containsQuery. rewrite (find_first _ before after t No Yes).
  unfold or_else. cbn [truthy_opt]. now rewrite Named.
Qed.

End SearchCallFacts.

(** The hypotheses of X9 hold for the query "tokyo" and the results
    "Kyoto", "Tokyo Tower", "Tokyo". *)
Lemma selectTitle_takes_first_containing_witness :
  selectTitle ascii_toLowerCase "tokyo" (["Kyoto"] ++ "Tokyo Tower" :: ["Tokyo"])
  = Some "Tokyo Tower".
Proof.
  apply (selectTitle_takes_first_containing ascii_toLowerCase
           "tokyo" "Tokyo Tower" ["Kyoto"] ["Tokyo"]).
  - repeat constructor.
  - reflexivity.
  - reflexivity.
Defined.

(** ** The imagery request, once more *)

Section UrlFacts.

Import Wvs.

Variable numberToString : float -> string.

Lemma allBytes_app (p : ascii -> bool) (s t : string) :
  allBytes p (s ++ t) = allBytes p s && allBytes p t.
Proof.
  induction s as [| c s IH]; cbn; [reflexivity |]. now rewrite IH, andb_assoc.
Qed.

Lemma encodeByte_queryBytes (c : ascii) : allBytes queryByte (encodeByte c) = true.
Proof. destruct c as [[] [] [] [] [] [] [] []]; reflexivity. Qed.

Lemma urlencode_queryBytes (s : string) : allBytes queryByte (urlencode s) = true.
Proof.
  induction s as [| c s IH]; cbn; [reflexivity |].
  now rewrite allBytes_app, encodeByte_queryBytes, IH.
Qed.

Lemma serialize_queryBytes (ps : list (string * string)) :
  allBytes queryByte (serialize ps) = true.
Proof.
  unfold serialize.
  induction ps as [| p ps IH]; [reflexivity |].
  assert (P : allBytes queryByte (encodePair p) = true).
  { unfold encodePair. now rewrite !allBytes_app, !urlencode_queryBytes. }
  destruct ps as [| p' ps]; [exact P |].
  change (join "&" (map encodePair (p :: p' :: ps)))
    with (encodePair p ++ "&" ++ join "&" (map encodePair (p' :: ps)))%string.
  rewrite !allBytes_app, P, IH. reflexivity.
Qed.

Lemma append_cancel (p s t : string) : (p ++ s = p ++ t)%string -> s = t.
Proof.
  induction p as [| c p IH]; cbn; [auto |]. intros [= E]. now apply IH.
Qed.

(** X10: whatever the arguments (any date text, any layer names, any
    format, any printing of numbers), the URL is the endpoint, a [?] and a
    query string made only of ASCII letters and digits and the bytes
    [* - . _ + % = &]: no space, no [#], no second [?] and no byte above
    127 reaches the URL unescaped. *)
Theorem buildWvsUrl_query_is_plain (a : Args) :
  exists query,
    buildWvsUrl numberToString a = (endpoint ++ "?" ++ query)%string
    /\ allBytes queryByte query = true.
Proof.
  exists (serialize (params numberToString a)).
  split; [reflexivity | apply serialize_queryBytes].
Qed.

(** X11: the URL determines the request: two argument objects that give
    the same URL give the same eight parameters (date, box text, layers
    text, format, width and height texts), so no two different requests
    share a URL. *)
Theorem buildWvsUrl_injective (a b : Args) :
  buildWvsUrl numberToString a = buildWvsUrl numberToString b ->
  params numberToString a = params numberToString b.
Proof.
  unfold buildWvsUrl. intros E.
  apply append_cancel in E. apply append_cancel in E.
  rewrite <- (parseQuery_serialize (params numberToString a)).
  rewrite <- (parseQuery_serialize (params numberToString b)).
  now rewrite E.
Qed.

End UrlFacts.

(** The hypothesis of X11 holds for two different argument objects: one
    leaves the optional properties out, the other gives them their default
    values. *)
Lemma buildWvsUrl_injective_witness :
  Wvs.params sampleFormat bareArgs = Wvs.params sampleFormat spelledArgs.
Proof.
  apply (buildWvsUrl_injective sampleFormat bareArgs spelledArgs).
  reflexivity.
Defined.

(** ** The file name, once more *)

Section SanitizeFacts.

Import Download.

Variable isLetter : N -> bool.
Variable isNumber : N -> bool.

Lemma replaceRuns_cons (c : N) (rest : text) :
  replaceRuns isLetter isNumber (c :: rest)
  = if unsafe isLetter isNumber c
    then underscore :: insideRun isLetter isNumber rest
    else c :: replaceRuns isLetter isNumber rest.
Proof. reflexivity. Qed.

Lemma insideRun_cons (c : N) (rest : text) :
  insideRun isLetter isNumber (c :: rest)
  = if unsafe isLetter isNumber c
    then insideRun isLetter isNumber rest
    else c :: replaceRuns isLetter isNumber rest.
Proof. reflexivity. Qed.

Lemma underscore_safe : unsafe isLetter isNumber underscore = false.
Proof. unfold unsafe. cbn. now rewrite !orb_true_r. Qed.

(** Inside and outside a match, what the replacement leaves is safe. *)
Lemma replaceRuns_safe (s : text) :
  safeText isLetter isNumber (replaceRuns isLetter isNumber s)
  /\ safeText isLetter isNumber (insideRun isLetter isNumber s).
Proof.
  unfold safeText.
  induction s as [| c s [IH1 IH2]]; [split; constructor |].
  rewrite replaceRuns_cons, insideRun_cons.
  destruct (unsafe isLetter isNumber c) eqn:U; split;
    try assumption; constructor; try assumption; apply underscore_safe.
Qed.

Lemma replaceRuns_fixes_safe (s : text) :
  safeText isLetter isNumber s -> replaceRuns isLetter isNumber s = s.
Proof.
  intros Safe. induction Safe as [| c s Sc _ IH]; [reflexivity |].
  rewrite replaceRuns_cons. now rewrite Sc, IH.
Qed.

Lemma replaceRuns_length (s : text) :
  List.length (replaceRuns isLetter isNumber s) <= List.length s
  /\ List.length (insideRun isLetter isNumber s) <= List.length s.
Proof.
  induction s as [| c s [IH1 IH2]]; [split; reflexivity |].
  rewrite replaceRuns_cons, insideRun_cons.
  destruct (unsafe isLetter isNumber c); cbn [Datatypes.length]; lia.
Qed.

Lemma replaceRuns_nonempty (s : text) :
  s <> [] -> replaceRuns isLetter isNumber s <> [].
Proof.
  destruct s as [| c s]; [congruence |]. intros _. rewrite replaceRuns_cons.
  destruct (unsafe isLetter isNumber c); discriminate.
Qed.

Lemma titleSource_nonempty (label : option text) (place : text) :
  titleSource label place <> [].
Proof.
  unfold titleSource.
  destruct label as [[| c l] |], place as [| p ps]; cbn; discriminate.
Qed.

(** X12: the name of the download is always a stem, an underscore, the
    date and ".png", and the stem is never empty, holds only letters,
    numbers, [_] and [-] (no path separator, no dot, no space, whatever the
    label and the place are), and is no longer than the text it was made
    from. *)
Theorem downloadName_is_a_safe_stem (label : option text) (place date : text) :
  exists stem,
    downloadName isLetter isNumber label place date
    = stem ++ [underscore] ++ date ++ codes ".png"
    /\ stem <> []
    /\ safeText isLetter isNumber stem
    /\ List.length stem <= List.length (titleSource label place).
Proof.
  exists (replaceRuns isLetter isNumber (titleSource label place)).
  split; [reflexivity |]. split; [| split].
  - apply replaceRuns_nonempty, titleSource_nonempty.
  - apply replaceRuns_safe.
  - apply replaceRuns_length.
Qed.

(** X13: the replacement [.replace(/[^\p{L}\p{N}_-]+/gu, "_")] is
    idempotent, and it leaves a text of letters, numbers, [_] and [-] as it
    is. *)
Theorem replaceRuns_idempotent (s : text) :
  replaceRuns isLetter isNumber (replaceRuns isLetter isNumber s)
  = replaceRuns isLetter isNumber s
  /\ (safeText isLetter isNumber s -> replaceRuns isLetter isNumber s = s).
Proof.
  split; [| apply replaceRuns_fixes_safe].
  apply replaceRuns_fixes_safe, replaceRuns_safe.
Qed.

End SanitizeFacts.

(** ** The bounding box, once more *)

Section BoxFacts.

Import Binary64 Geo.

Variable cos : float -> float.

Local Open Scope float_scope.

(** X14: for a finite center and a [Math.cos] that returns a number in
    (0, 1] for the latitude, a box of a larger scale contains the box of a
    smaller, positive scale, which contains the center: from south to
    north and from west to east the edges are in the order outer, inner,
    center, inner, outer (in binary64 two of them can be the same
    number). *)
Theorem bbox_grows_with_scale (lat lon small large : float) :
  is_finite lat = true -> is_finite lon = true ->
  is_finite small = true -> is_finite large = true ->
  (0 <? small) = true -> (small <=? large) = true ->
  (0 <? cos ((lat * 3.141592653589793) / 180)) = true ->
  (cos ((lat * 3.141592653589793) / 180) <=? 1) = true ->
  exists inner outer,
    bbox cos (Some (lat, lon)) small = Some inner
    /\ bbox cos (Some (lat, lon)) large = Some outer
    /\ (south outer <=? south inner) = true /\ (south inner <=? lat) = true
    /\ (lat <=? north inner) = true /\ (north inner <=? north outer) = true
    /\ (west outer <=? west inner) = true /\ (west inner <=? lon) = true
    /\ (lon <=? east inner) = true /\ (east inner <=? east outer) = true.
Proof.
  intros Flat Flon F1 F2 P L Pc Uc.
  destruct (leb_val _ _ Uc) as (Nc & _ & _).
  pose proof (is_finite_finite _ Flat) as Fa.
  pose proof (is_finite_finite _ Flon) as Fo.
  destruct (halfLat_le small large F1 F2 P L) as [NLat HLat].
  destruct (halfLon_le small large _ _ F1 F2 P L Pc (leb_refl _ Nc) Uc) as [NLon HLon].
  destruct (around lat _ Fa NLat) as [S N].
  destruct (around lon _ Fo NLon) as [W E].
  do 2 eexists. split; [apply bbox_edges |]. split; [apply bbox_edges |].
  cbn [south north west east].
  split; [now apply sub_le |]. split; [exact S |]. split; [exact N |].
  split; [now apply add_le |].
  split; [now apply sub_le |]. split; [exact W |]. split; [exact E |].
  now apply add_le.
Qed.

(** X15: for an even [Math.cos], a finite latitude and a finite scale
    above 0, the box of the center mirrored at the equator is the mirrored
    box: its south edge is the opposite of the north edge, its north edge
    the opposite of the south edge (as numbers: a zero may differ in its
    sign), and its west and east edges are the same. *)
Theorem bbox_mirrors (lat lon scaleKm : float) :
  (forall x, cos (- x) = cos x) ->
  is_finite lat = true -> is_finite scaleKm = true -> (0 <? scaleKm) = true ->
  exists b mirrored,
    bbox cos (Some (lat, lon)) scaleKm = Some b
    /\ bbox cos (Some (- lat, lon)) scaleKm = Some mirrored
    /\ (south mirrored =? - north b) = true
    /\ (north mirrored =? - south b) = true
    /\ west mirrored = west b /\ east mirrored = east b.
Proof.
  intros Even Flat Fs Ps.
  destruct (halfLat_le scaleKm scaleKm Fs Fs Ps) as [[N _] _].
  { apply leb_refl. now apply finite_not_nan, is_finite_finite. }
  destruct (opp_sub_eqb lat _ (is_finite_finite _ Flat) N) as [S Nn].
  do 2 eexists. split; [apply bbox_edges |]. split; [apply bbox_edges |].
  cbn [south north west east].
  split; [exact S |]. split; [exact Nn |].
  rewrite mul_opp, div_opp, Even. now split.
Qed.

End BoxFacts.

Section BoxRuns.

Import Geo GeoScenario.

Local Open Scope float_scope.

(** The hypotheses of X14 hold for boxes of 100 km and 200 km around
    (35, 139). *)
Lemma bbox_grows_with_scale_witness :
  exists inner outer,
    bbox taylorCos (Some (35, 139)) 100 = Some inner
    /\ bbox taylorCos (Some (35, 139)) 200 = Some outer
    /\ (south outer <=? south inner) = true /\ (north inner <=? north outer) = true
    /\ (west outer <=? west inner) = true /\ (east inner <=? east outer) = true.
Proof.
  destruct (bbox_grows_with_scale taylorCos 35 139 100 200) as (i & o & H);
    try reflexivity.
  exists i, o. tauto.
Defined.

(** The polynomial of the runs is even. *)
Lemma taylorCos_even (x : float) : taylorCos (- x) = taylorCos x.
Proof.
  unfold taylorCos. f_equal. f_equal.
  assert (Inv : forall y : float, - - y = y).
  { intros y. apply Prim2SF_inj. rewrite !opp_spec.
    now destruct (Prim2SF y) as [[] | [] | | [] m e]. }
  rewrite mul_opp.
  assert (C : forall a b : float, a * - b = - (a * b)).
  { intros a b. apply Prim2SF_inj. rewrite mul_spec, !opp_spec, mul_spec.
    destruct (Prim2SF a) as [[] | [] | | [] ma ea],
             (Prim2SF b) as [[] | [] | | [] mb eb];
      cbn [SFmul SFopp xorb negb]; try reflexivity;
      first [ apply (binary_round_aux_opp false) | apply (binary_round_aux_opp true) ]. }
  now rewrite C, Inv.
Qed.

(** The hypotheses of X15 hold for a box of 120 km around (35, 139). *)
Lemma bbox_mirrors_witness :
  exists b mirrored,
    bbox taylorCos (Some (35, 139)) 120 = Some b
    /\ bbox taylorCos (Some (- 35, 139)) 120 = Some mirrored
    /\ (south mirrored =? - north b) = true
    /\ (north mirrored =? - south b) = true
    /\ west mirrored = west b /\ east mirrored = east b.
Proof.
  apply (bbox_mirrors taylorCos 35 139 120 taylorCos_even); reflexivity.
Defined.

End BoxRuns.

(** ** [toISODate] *)

Section IsoDateFacts.

Import IsoDate.

Lemma string_length_app (s t : string) :
  String.length (s ++ t) = String.length s + String.length t.
Proof. induction s as [| c s IH]; simpl; [reflexivity | now rewrite IH]. Qed.

(** Fuel beyond the number itself changes nothing. *)
Lemma digits_fuel (f1 f2 n : nat) :
  n < f1 -> n < f2 -> digits f1 n = digits f2 n.
Proof.
  revert f2 n. induction f1 as [| f1 IH]; intros f2 n L1 L2; [lia |].
  destruct f2 as [| f2]; [lia |].
  cbn [digits]. destruct (n <? 10)%nat eqn:Small; [reflexivity |].
  apply Nat.ltb_ge in Small.
  assert (D : n / 10 < n) by (apply Nat.div_lt; lia).
  rewrite (IH f2 (n / 10)) by lia. reflexivity.
Qed.

Lemma decimalString_small (n : nat) :
  n < 10 -> decimalString n = String (digit n) EmptyString.
Proof.
  intros Lt. unfold decimalString. cbn [digits].
  apply Nat.ltb_lt in Lt. now rewrite Lt.
Qed.

Lemma decimalString_step (n : nat) :
  10 <= n ->
  decimalString n
  = (decimalString (n / 10) ++ String (digit (n mod 10)) EmptyString)%string.
Proof.
  intros Ge. unfold decimalString at 1. cbn [digits].
  apply Nat.ltb_ge in Ge as Big. rewrite Big.
  rewrite (digits_fuel n (S (n / 10)) (n / 10)); [reflexivity | | lia].
  apply Nat.div_lt; lia.
Qed.

Lemma digit_value (d : nat) : d < 10 -> digitValue (digit d) = Some d.
Proof.
  intros Lt. do 10 (destruct d as [| d]; [reflexivity |]). lia.
Qed.

Lemma digit_not_hyphen (d : nat) : d < 10 -> Ascii.eqb (digit d) "-"%char = false.
Proof.
  intros Lt. do 10 (destruct d as [| d]; [reflexivity |]). lia.
Qed.

(** A number prints as digits only, and at least one. *)
Lemma decimalString_digits (n : nat) :
  Wvs.free "-"%char (decimalString n) = true /\ decimalString n <> EmptyString.
Proof.
  induction n as [n IH] using (well_founded_induction lt_wf).
  destruct (Nat.lt_ge_cases n 10) as [Small | Big].
  - rewrite (decimalString_small n Small). cbn [Wvs.free].
    rewrite (digit_not_hyphen n Small). split; [reflexivity | discriminate].
  - rewrite (decimalString_step n Big).
    destruct (IH (n / 10)) as [F NE]; [apply Nat.div_lt; lia |].
    split.
    + rewrite free_app, F. cbn [Wvs.free].
      rewrite digit_not_hyphen; [reflexivity | apply Nat.mod_upper_bound; lia].
    + destruct (decimalString (n / 10)); [congruence | discriminate].
Qed.

Lemma readDigits_last (s : string) (c : ascii) (acc : nat) :
  s <> EmptyString ->
  readDigits (s ++ String c EmptyString) acc
  = match readDigits s acc, digitValue c with
    | Some k, Some v => Some (10 * k + v)
    | _, _ => None
    end.
Proof.
  revert acc. induction s as [| a s IH]; intros acc NE; [congruence |].
  cbn [append readDigits].
  destruct (digitValue a) as [v |]; [| reflexivity].
  destruct s as [| b s].
  - cbn. now destruct (digitValue c).
  - cbn [append]. rewrite <- (IH (10 * acc + v)) by discriminate. reflexivity.
Qed.

(** Reading undoes printing. *)
Lemma readDigits_decimalString (n : nat) : readDigits (decimalString n) 0 = Some n.
Proof.
  induction n as [n IH] using (well_founded_induction lt_wf).
  destruct (Nat.lt_ge_cases n 10) as [Small | Big].
  - rewrite (decimalString_small n Small). cbn [readDigits].
    rewrite (digit_value n Small). f_equal.
  - rewrite (decimalString_step n Big).
    rewrite readDigits_last by apply decimalString_digits.
    rewrite IH by (apply Nat.div_lt; lia).
    rewrite digit_value by (apply Nat.mod_upper_bound; lia).
    f_equal. symmetry. apply Nat.div_mod_eq.
Qed.

Lemma readDigits_zeros (k : nat) (s : string) :
  s <> EmptyString -> readDigits (zeros k ++ s) 0 = readDigits s 0.
Proof.
  intros NE. induction k as [| k IH]; [reflexivity |].
  cbn [zeros append readDigits]. cbn [digitValue].
  change (digitValue "0"%char) with (Some 0). cbn beta iota.
  destruct (zeros k ++ s)%string eqn:E.
  - destruct k; cbn in E; [congruence | discriminate].
  - exact IH.
Qed.

Lemma zeros_free (k : nat) : Wvs.free "-"%char (zeros k) = true.
Proof. induction k as [| k IH]; [reflexivity | exact IH]. Qed.

Lemma pad_spec (n : nat) :
  Wvs.free "-"%char (pad n) = true /\ readDigits (pad n) 0 = Some n.
Proof.
  unfold pad. destruct (decimalString_digits n) as [F NE]. split.
  - now rewrite free_app, zeros_free, F.
  - rewrite readDigits_zeros by exact NE. apply readDigits_decimalString.
Qed.

(** X16: the text [toISODate] gives always reads back as the date it was
    made from: split at the hyphens it has exactly three parts, each a
    decimal number, and they are the year, the month counted from 1
    ([getMonth() + 1]) and the day. *)
Theorem toISODate_reads_back (d : DateFields) :
  readISODate (toISODate d)
  = Some (fullYear d, monthIndex d + 1, dayOfMonth d).
Proof.
  unfold readISODate, toISODate.
  destruct (decimalString_digits (fullYear d)) as [Fy _].
  destruct (pad_spec (monthIndex d + 1)) as [Fm Rm].
  destruct (pad_spec (dayOfMonth d)) as [Fd Rd].
  change ("-" ++ pad (monthIndex d + 1) ++ "-" ++ pad (dayOfMonth d))%string
    with (String "-"%char
            (pad (monthIndex d + 1) ++ String "-"%char (pad (dayOfMonth d))))%string.
  rewrite splitOn_app by exact Fy.
  rewrite splitOn_app by exact Fm.
  rewrite splitOn_free by exact Fd.
  now rewrite readDigits_decimalString, Rm, Rd.
Qed.

(** The number of digits of a number. *)
Lemma decimalString_length (k n : nat) :
  n < 10 ^ S k <-> String.length (decimalString n) <= S k.
Proof.
  revert n. induction k as [| k IH]; intros n.
  - destruct (Nat.lt_ge_cases n 10) as [Small | Big].
    + rewrite (decimalString_small n Small). cbn. lia.
    + rewrite (decimalString_step n Big), string_length_app. cbn [String.length].
      destruct (decimalString_digits (n / 10)) as [_ NE].
      destruct (decimalString (n / 10)); [congruence |]. cbn. lia.
  - destruct (Nat.lt_ge_cases n 10) as [Small | Big].
    + rewrite (decimalString_small n Small). cbn [String.length].
      assert (10 ^ S k > 0) by (apply Nat.neq_0_lt_0, Nat.pow_nonzero; lia).
      change (10 ^ S (S k)) with (10 * 10 ^ S k). lia.
    + rewrite (decimalString_step n Big), string_length_app. cbn [String.length].
      specialize (IH (n / 10)).
      change (10 ^ S (S k)) with (10 * 10 ^ S k).
      pose proof (Nat.div_mod_eq n 10) as DM.
      pose proof (Nat.mod_upper_bound n 10 ltac:(lia)) as MB.
      split; intros H.
      * assert (n / 10 < 10 ^ S k) by lia. apply IH in H0. lia.
      * assert (String.length (decimalString (n / 10)) <= S k) by lia.
        apply IH in H0. lia.
Qed.

Lemma pad_length (n : nat) : n < 100 -> String.length (pad n) = 2.
Proof.
  intros Lt. unfold pad. rewrite string_length_app.
  assert (L : String.length (decimalString n) <= 2)
    by (apply (decimalString_length 1 n); exact Lt).
  destruct (decimalString_digits n) as [_ NE].
  destruct (decimalString n) as [| a [| b [| c s]]]; cbn in *; try congruence; lia.
Qed.

(** X17: for the month and day of a calendar date, the month and the day
    are written with exactly two characters each, so the text is six
    characters longer than the year; it has the ten characters of
    YYYY-MM-DD exactly when the year has four digits (the year is not
    padded). *)
Theorem toISODate_ten_characters (d : DateFields) :
  monthIndex d <= 11 ->
  dayOfMonth d <= 31 ->
  String.length (pad (monthIndex d + 1)) = 2
  /\ String.length (pad (dayOfMonth d)) = 2
  /\ String.length (toISODate d) = String.length (decimalString (fullYear d)) + 6
  /\ (String.length (toISODate d) = 10 <-> 10 ^ 3 <= fullYear d < 10 ^ 4).
Proof.
  intros Month Day.
  assert (Lm : String.length (pad (monthIndex d + 1)) = 2) by (apply pad_length; lia).
  assert (Ld : String.length (pad (dayOfMonth d)) = 2) by (apply pad_length; lia).
  assert (L : String.length (toISODate d)
              = String.length (decimalString (fullYear d)) + 6).
  { unfold toISODate. rewrite !string_length_app, Lm, Ld. cbn [String.length]. lia. }
  split; [exact Lm |]. split; [exact Ld |]. split; [exact L |]. split.
  - intros Ten.
    assert (L4 : String.length (decimalString (fullYear d)) <= 4) by lia.
    apply (decimalString_length 3) in L4. split; [| exact L4].
    destruct (Nat.lt_ge_cases (fullYear d) (10 ^ 3)) as [Short | Ok]; [| exact Ok].
    apply (decimalString_length 2) in Short. lia.
  - intros [Lo Hi].
    apply (decimalString_length 3) in Hi.
    destruct (Nat.le_gt_cases (String.length (decimalString (fullYear d))) 3)
      as [Short | Ok]; [| lia].
    apply (decimalString_length 2) in Short. lia.
Qed.

(** The hypotheses of X17 hold for 9 March 2026. *)
Lemma toISODate_ten_characters_witness :
  String.length (pad 3) = 2
  /\ String.length (pad 9) = 2
  /\ String.length (toISODate {| fullYear := 2026; monthIndex := 2; dayOfMonth := 9 |})
     = String.length (decimalString 2026) + 6
  /\ (String.length (toISODate {| fullYear := 2026; monthIndex := 2; dayOfMonth := 9 |}) = 10
      <-> 10 ^ 3 <= 2026 < 10 ^ 4).
Proof.
  apply (toISODate_ten_characters
           {| fullYear := 2026; monthIndex := 2; dayOfMonth := 9 |}); cbn; lia.
Defined.

End IsoDateFacts.

(** ** The fact cards and the chips *)

Section CardFacts.

Import Cards.

Variable intlFormat : float -> string.
Variable numberToString : float -> string.
Variable toLocaleDateString : string -> string.

(** X18: an elevation that is known always gets its chip on the postcard,
    also the elevation 0.  Under the preview its card is shown exactly when
    the country is a non-empty text, the population is a number other than
    0 and NaN, or the elevation itself is other than 0 and NaN; otherwise
    (a place at sea level with nothing else known) the panel is not
    rendered and the bare number stands in its place. *)
Theorem elevation_chip_without_card
  (l c : option string) (p : option float) (e : float) (date : string) :
  let f := {| label := l; country := c; population := p; elev := Some e |} in
  In (Compositor.elevationChip numberToString e)
     (Compositor.chips intlFormat numberToString toLocaleDateString f date)
  /\ (shows (factPanel intlFormat numberToString f)
        (Card "Elevation (m)" (numberToString e))
      <-> truthy_opt c || Compositor.hasPopulation f || truthy_number e = true)
  /\ (truthy_opt c || Compositor.hasPopulation f || truthy_number e = false ->
      factPanel intlFormat numberToString f = BareNumber e).
Proof.
  intros f. split; [| split].
  - unfold Compositor.chips, Compositor.push. cbn [elev f].
    apply in_or_app. left. apply in_or_app. right. now left.
  - unfold factPanel, Compositor.hasPopulation. cbn [country population elev f].
    destruct (truthy_opt c || match p with Some x => truthy_number x | None => false end)
      eqn:V; cbn [orb].
    + split; [reflexivity |]. intros _. cbn [shows].
      apply in_or_app. right. apply in_or_app. right. now left.
    + destruct (truthy_number e); cbn [shows].
      * split; [reflexivity |]. intros _.
        apply in_or_app. right. apply in_or_app. right. now left.
      * split; [intros [] | discriminate].
  - unfold factPanel, Compositor.hasPopulation. cbn [country population elev f].
    intros Hid. apply orb_false_elim in Hid as [V E]. rewrite V, E. reflexivity.
Qed.

End CardFacts.
